(** * esign-rantau: the overlay geometry and state engine of [src/App.tsx]

    A shallow embedding of the parts of the editor that the specification
    talks about: the history log (undo / redo), the drag, resize and rotate
    sessions with their snapping, the one-step mutations, the colour helper
    and the two export paths.  The handlers are modelled twice: on values,
    where the geometry is proved, and on a store of arrays and objects,
    where it matters which of them are shared; the two models are shown
    to agree.  The view controls, the dialogs and the two components
    around the engine follow the store.

    Numbers.  A JavaScript [number] is modelled as an exact rational [Q];
    [Math.min], [Math.max] and [Math.abs] are [Qmin], [Qmax] and [Qabs].
    Rounding of IEEE doubles, [NaN] and the infinities are outside the
    model, so a division is only meaningful where its divisor is not zero.
    The export code that needs [Math.cos] and [Math.sin] is modelled over
    the real numbers [R]. *)

From Stdlib Require Import ZArith QArith Qminmax Qabs Lia List Ascii String.
From Stdlib Require Import Reals Qreals Psatz.
From stdpp Require Import gmap strings list fin_maps pretty.

Import ListNotations.

(** ** The data model of [types.ts] *)

Module SignatureElement.
Record t : Type := mk {
  id : string;
  dataUrl : string;
  pageIndex : Z;
  x : Q;
  y : Q;
  width : Q;
  aspectRatio : Q;
  rotation : Q;
  opacity : Q
}.
End SignatureElement.

Module StrokePoint.
Record t : Type := mk { x : Q; y : Q }.
End StrokePoint.

Module Stroke.
Record t : Type := mk {
  points : list StrokePoint.t;
  color : string;
  width : Q
}.
End Stroke.

(** [PageDrawings = Record<number, Stroke[]>] *)
Abbreviation PageDrawings := (gmap Z (list Stroke.t)).

(** ** The history log

    The three React states [signatures], [drawings] and [history] together.
    The operations never look inside a snapshot, so they are written once
    for any representation [S] of the signature array and [D] of the
    drawings object: values in the geometry model below, references in
    the store model at the end of the file. *)

Module History.
Section Log.
Context {S D : Type}.

Record entry : Type := mkEntry { sigs : S; draws : D }.

Record t : Type := mk { past : list entry; future : list entry }.

Record editor : Type := mkEditor {
  signatures : S;
  drawings : D;
  history : t
}.

Definition empty : t := {| past := []; future := [] |}.

(** The live state as a snapshot, [{ sigs: signatures, draws: drawings }]. *)
Definition live (st : editor) : entry :=
  {| sigs := signatures st; draws := drawings st |}.

(** The updater every recording site passes to [setHistory]:
    [prev => ({ past: [...prev.past, e], future: [] })]. *)
Definition record (e : entry) (prev : t) : t :=
  {| past := past prev ++ [e]; future := [] |}.

Definition saveToHistory (st : editor) : editor :=
  {| signatures := signatures st;
     drawings := drawings st;
     history := record (live st) (history st) |}.

Definition undo (st : editor) : editor :=
  match last (past (history st)) with
  | None => st                                   (* past.length === 0 *)
  | Some previous =>
      let newPast := removelast (past (history st)) in
      {| signatures := sigs previous;
         drawings := draws previous;
         history := {| past := newPast;
                       future := live st :: future (history st) |} |}
  end.

Definition redo (st : editor) : editor :=
  match future (history st) with
  | [] => st                                     (* future.length === 0 *)
  | next :: newFuture =>
      {| signatures := sigs next;
         drawings := draws next;
         history := {| past := past (history st) ++ [live st];
                       future := newFuture |} |}
  end.

(** A recorded mutation: [saveToHistory()] and then the setters put the
    new live state [after] in place. *)
Definition mutate (after : entry) (st : editor) : editor :=
  let st' := saveToHistory st in
  {| signatures := sigs after; drawings := draws after; history := history st' |}.

Definition times (n : nat) (f : editor -> editor) (st : editor) : editor :=
  Nat.iter n f st.

(** Everything the log knows, oldest first: the past, the live state, the
    future.  Undo and redo move the live position along this line. *)
Definition timeline (st : editor) : list entry :=
  past (history st) ++ live st :: future (history st).

(** [h'] is [h] with the snapshot [e] recorded: appended to the past,
    with nothing left to redo. *)
Definition recorded (e : entry) (h h' : t) : Prop :=
  past h' = past h ++ [e] /\ future h' = [].

(** [n] recorded mutations in a row, with the states they lead to. *)
Definition mutations (afters : list entry) (st : editor) : editor :=
  fold_left (fun s after => mutate after s) afters st.

End Log.
Arguments entry : clear implicits.
Arguments t : clear implicits.
Arguments editor : clear implicits.
End History.

(** ** JavaScript helpers over the rational model *)

(** [a < b] on numbers. *)
Definition Qltb (a b : Q) : bool := negb (Qle_bool b a).

(** [s.includes(c)] for a one-character needle. *)
Definition includes (c : ascii) (s : string) : bool :=
  existsb (Ascii.eqb c) (list_ascii_of_string s).

(** [handle?.includes(c)]: [undefined], hence falsy, on [null]. *)
Definition handle_includes (c : ascii) (handle : option string) : bool :=
  match handle with
  | Some s => includes c s
  | None => false
  end.

(** ** View state around the geometry model *)

(** The part of [getBoundingClientRect()] that the handlers read. *)
Module DOMRect.
Record t : Type := mk { width : Q; height : Q }.
End DOMRect.

Module SnapTarget.
Record t : Type := mk { x : Q; y : Q; width : Q; height : Q }.
End SnapTarget.

Inductive Orientation : Type := vertical | horizontal.

Module SnapLine.
Record t : Type := mk { orientation : Orientation; position : Q }.
End SnapLine.

Module ResizeMode.
Record t : Type := mk {
  isResizing : bool;
  handle : option string;
  startPos : Q * Q;
  startSig : option SignatureElement.t
}.
Definition idle : t :=
  {| isResizing := false; handle := None; startPos := (0%Q, 0%Q); startSig := None |}.
End ResizeMode.

Module RotateMode.
Record t : Type := mk {
  isRotating : bool;
  startAngle : Q;
  initialRotation : Q;
  center : option (Q * Q);
  sigId : option string
}.
Definition idle : t :=
  {| isRotating := false; startAngle := 0%Q; initialRotation := 0%Q;
     center := None; sigId := None |}.
End RotateMode.

Abbreviation Signatures := (list SignatureElement.t).
Abbreviation Snapshot := (History.entry Signatures PageDrawings).

(** The state of the [App] component that the handlers below read and
    write.  [signaturesRef] and [historyStartRef] are the two [useRef]
    cells; [canvasRect] is [canvasRef.current?.getBoundingClientRect()],
    [None] while no canvas is mounted. *)
Module App.
Record t : Type := mk {
  ed : History.editor Signatures PageDrawings;
  signaturesRef : Signatures;
  historyStartRef : option Snapshot;
  selectedSigId : option string;
  editingSigId : option string;
  isFreeDrawMode : bool;
  aspectRatioLocked : bool;
  resizeMode : ResizeMode.t;
  rotateMode : RotateMode.t;
  snapTargets : list SnapTarget.t;
  snapLines : list SnapLine.t;
  pageNum : Z;
  canvasRect : option DOMRect.t
}.

Definition signatures (st : t) : Signatures := History.signatures (ed st).
Definition drawings (st : t) : PageDrawings := History.drawings (ed st).
Definition history (st : t) : History.t Signatures PageDrawings :=
  History.history (ed st).

(** A new value of the three states.  The render that follows runs the
    effect [useEffect(() => { signaturesRef.current = signatures },
    [signatures])] whenever [signatures] is a new array, so after every
    render the ref holds the rendered [signatures]; the ref is brought up
    to date in the same step. *)
Definition with_ed (e : History.editor Signatures PageDrawings) (st : t) : t :=
  mk e (History.signatures e) (historyStartRef st) (selectedSigId st) (editingSigId st)
     (isFreeDrawMode st) (aspectRatioLocked st) (resizeMode st) (rotateMode st)
     (snapTargets st) (snapLines st) (pageNum st) (canvasRect st).

Definition setSignatures (f : Signatures -> Signatures) (st : t) : t :=
  with_ed {| History.signatures := f (signatures st);
             History.drawings := drawings st;
             History.history := history st |} st.

Definition setDrawings (f : PageDrawings -> PageDrawings) (st : t) : t :=
  with_ed {| History.signatures := signatures st;
             History.drawings := f (drawings st);
             History.history := history st |} st.

Definition setHistory
    (f : History.t Signatures PageDrawings -> History.t Signatures PageDrawings)
    (st : t) : t :=
  with_ed {| History.signatures := signatures st;
             History.drawings := drawings st;
             History.history := f (history st) |} st.

Definition setSnapLines (l : list SnapLine.t) (st : t) : t :=
  mk (ed st) (signaturesRef st) (historyStartRef st) (selectedSigId st) (editingSigId st)
     (isFreeDrawMode st) (aspectRatioLocked st) (resizeMode st) (rotateMode st)
     (snapTargets st) l (pageNum st) (canvasRect st).

Definition setSelectedSigId (i : option string) (st : t) : t :=
  mk (ed st) (signaturesRef st) (historyStartRef st) i (editingSigId st)
     (isFreeDrawMode st) (aspectRatioLocked st) (resizeMode st) (rotateMode st)
     (snapTargets st) (snapLines st) (pageNum st) (canvasRect st).

Definition setEditingSigId (i : option string) (st : t) : t :=
  mk (ed st) (signaturesRef st) (historyStartRef st) (selectedSigId st) i
     (isFreeDrawMode st) (aspectRatioLocked st) (resizeMode st) (rotateMode st)
     (snapTargets st) (snapLines st) (pageNum st) (canvasRect st).

Definition setResizeMode (m : ResizeMode.t) (st : t) : t :=
  mk (ed st) (signaturesRef st) (historyStartRef st) (selectedSigId st) (editingSigId st)
     (isFreeDrawMode st) (aspectRatioLocked st) m (rotateMode st)
     (snapTargets st) (snapLines st) (pageNum st) (canvasRect st).

Definition setRotateMode (m : RotateMode.t) (st : t) : t :=
  mk (ed st) (signaturesRef st) (historyStartRef st) (selectedSigId st) (editingSigId st)
     (isFreeDrawMode st) (aspectRatioLocked st) (resizeMode st) m
     (snapTargets st) (snapLines st) (pageNum st) (canvasRect st).

Definition setHistoryStartRef (e : option Snapshot) (st : t) : t :=
  mk (ed st) (signaturesRef st) e (selectedSigId st) (editingSigId st)
     (isFreeDrawMode st) (aspectRatioLocked st) (resizeMode st) (rotateMode st)
     (snapTargets st) (snapLines st) (pageNum st) (canvasRect st).

(** The three history handlers of the component. *)
Definition saveToHistory (st : t) : t := with_ed (History.saveToHistory (ed st)) st.
Definition undo (st : t) : t := with_ed (History.undo (ed st)) st.
Definition redo (st : t) : t := with_ed (History.redo (ed st)) st.
End App.

(** ** The commit at pointer-up, shared by the three sessions

    [JSON.stringify] of the signature array.  Every element object is built
    with the same key order, so the text is determined field by field.  A
    number is printed as its reduced fraction: like the conversion of
    JavaScript, it gives two numbers the same text exactly when they are
    the same number. *)

Module JSON.
Local Open Scope string_scope.

Definition quote : string := String (ascii_of_nat 34) EmptyString.

Definition number (q : Q) : string :=
  let r := Qred q in
  match Qden r with
  | xH => pretty (Qnum r)
  | d => pretty (Qnum r) ++ "/" ++ pretty (Zpos d)
  end.

Definition str (s : string) : string := quote ++ s ++ quote.

Definition key (k : string) : string := str k ++ ":".

Definition element (s : SignatureElement.t) : string :=
  "{" ++ key "id" ++ str (SignatureElement.id s)
   ++ "," ++ key "dataUrl" ++ str (SignatureElement.dataUrl s)
   ++ "," ++ key "pageIndex" ++ pretty (SignatureElement.pageIndex s)
   ++ "," ++ key "x" ++ number (SignatureElement.x s)
   ++ "," ++ key "y" ++ number (SignatureElement.y s)
   ++ "," ++ key "width" ++ number (SignatureElement.width s)
   ++ "," ++ key "aspectRatio" ++ number (SignatureElement.aspectRatio s)
   ++ "," ++ key "rotation" ++ number (SignatureElement.rotation s)
   ++ "," ++ key "opacity" ++ number (SignatureElement.opacity s)
   ++ "}".

Fixpoint joined (l : list string) : string :=
  match l with
  | [] => EmptyString
  | [a] => a
  | a :: rest => a ++ "," ++ joined rest
  end.

Definition stringify (l : Signatures) : string :=
  "[" ++ joined (map element l) ++ "]".
End JSON.

Module Commit.

(** [JSON.stringify(startState.sigs) !== JSON.stringify(signaturesRef.current)] *)
Definition hasChanged (startState : Snapshot) (st : App.t) : bool :=
  negb (String.eqb (JSON.stringify (History.sigs startState))
                   (JSON.stringify (App.signaturesRef st))).

(** The block headed "Commit to history if changed" / "Commit History",
    which [upHandler], [handleUp] and [handleRotateUp] each contain
    verbatim. *)
Definition commit (st : App.t) : App.t :=
  match App.historyStartRef st with
  | Some startState =>
      if hasChanged startState st
      then App.setHistory
             (History.record {| History.sigs := History.sigs startState;
                                History.draws := History.draws startState |}) st
      else st
  | None => st
  end.

End Commit.

(** ** Drag with snapping: [handleDragStart] and its two closures *)

Module Drag.
Local Open Scope Q_scope.

Definition SNAP_THRESHOLD : Q := 0.5.

(** What [moveHandler] and [upHandler] capture when the drag starts. *)
Record Session : Type := mkSession {
  id : string;
  canvasRect : DOMRect.t;
  startX : Q;
  startY : Q;
  sig : SignatureElement.t;
  pageNum : Z;
  snapTargets : list SnapTarget.t
}.

Definition startLeftPct (d : Session) : Q := SignatureElement.x (sig d).
Definition startTopPct (d : Session) : Q := SignatureElement.y (sig d).

(** [handleDragStart(e, id)] with the pointer at [(clientX, clientY)]:
    the new state, and the session when the listeners are attached. *)
Definition handleDragStart (clientX clientY : Q) (i : string) (st : App.t)
    : App.t * option Session :=
  if App.isFreeDrawMode st then (st, None)
  else if ResizeMode.isResizing (App.resizeMode st)
          || RotateMode.isRotating (App.rotateMode st) then (st, None)
  else
    let st1 := App.setSelectedSigId (Some i) st in
    let st2 := App.setHistoryStartRef
                 (Some {| History.sigs := App.signaturesRef st;
                          History.draws := App.drawings st |}) st1 in
    match App.canvasRect st with
    | None => (st2, None)
    | Some rect =>
        match find (fun s => String.eqb (SignatureElement.id s) i) (App.signatures st) with
        | None => (st2, None)
        | Some s =>
            (st2, Some {| id := i; canvasRect := rect;
                          startX := clientX; startY := clientY;
                          sig := s; pageNum := App.pageNum st;
                          snapTargets := App.snapTargets st |})
        end
    end.

(** The mutable locals of one snapping loop: [minDiffX], [nextX],
    [activeLines] and [snappedX] (or their Y namesakes). *)
Record Locals : Type := mkLocals {
  minDiff : Q;
  next : Q;
  activeLines : list SnapLine.t;
  snapped : bool
}.

(** The body of [for (const target of vSnapPoints)]. *)
Definition tryTarget (o : Orientation) (currentEdgePos offset : Q)
    (acc : Locals) (target : Q) : Locals :=
  let diff := Qabs (currentEdgePos - target) in
  if Qltb diff (minDiff acc) then
    {| minDiff := diff;
       next := target - offset;
       activeLines := activeLines acc ++ [ {| SnapLine.orientation := o;
                                              SnapLine.position := target |} ];
       snapped := true |}
  else acc.

(** One pass of [for (const edge of myEdgesX)] before its [break] test:
    [currentEdgePos] is read once, ahead of the inner loop. *)
Definition tryEdge (o : Orientation) (snapPoints : list Q) (acc : Locals)
    (offset : Q) : Locals :=
  let currentEdgePos := next acc + offset in
  fold_left (tryTarget o currentEdgePos offset) snapPoints acc.

(** The outer loop, left at the first edge after which the flag is set. *)
Fixpoint snapAxis (o : Orientation) (snapPoints : list Q) (edges : list Q)
    (acc : Locals) : Locals :=
  match edges with
  | [] => acc
  | offset :: rest =>
      let acc' := tryEdge o snapPoints acc offset in
      if snapped acc' then acc' else snapAxis o snapPoints rest acc'
  end.

(** [hPct], the height of the dragged element in percent of the canvas. *)
Definition hPct (d : Session) : Q :=
  let canvasRatio := DOMRect.width (canvasRect d) / DOMRect.height (canvasRect d) in
  SignatureElement.width (sig d) * canvasRatio / SignatureElement.aspectRatio (sig d).

(** The siblings that contribute snap points: not the dragged element and
    on the current page. *)
Definition isSibling (d : Session) (s : SignatureElement.t) : bool :=
  negb (String.eqb (SignatureElement.id s) (id d)
        || negb (Z.eqb (SignatureElement.pageIndex s) (pageNum d - 1))).

Definition vSnapPoints (d : Session) (current : Signatures) : list Q :=
  [0; 50; 100]
   ++ flat_map (fun s => [SignatureElement.x s;
                          SignatureElement.x s + SignatureElement.width s / 2;
                          SignatureElement.x s + SignatureElement.width s])
        (List.filter (isSibling d) current)
   ++ flat_map (fun t => [SnapTarget.x t;
                          SnapTarget.x t + SnapTarget.width t / 2;
                          SnapTarget.x t + SnapTarget.width t])
        (snapTargets d).

Definition hSnapPoints (d : Session) (current : Signatures) : list Q :=
  let canvasRatio := DOMRect.width (canvasRect d) / DOMRect.height (canvasRect d) in
  [0; 50; 100]
   ++ flat_map (fun s =>
        let sHeight := SignatureElement.width s * canvasRatio
                       / SignatureElement.aspectRatio s in
        [SignatureElement.y s;
         SignatureElement.y s + sHeight / 2;
         SignatureElement.y s + sHeight])
        (List.filter (isSibling d) current)
   ++ flat_map (fun t => [SnapTarget.y t;
                          SnapTarget.y t + SnapTarget.height t / 2;
                          SnapTarget.y t + SnapTarget.height t])
        (snapTargets d).

(** The proposed position, clamped to the page before snapping. *)
Definition proposedX (d : Session) (currentX : Q) : Q :=
  let deltaXPixels := currentX - startX d in
  let deltaXPct := (deltaXPixels / DOMRect.width (canvasRect d)) * 100 in
  Qmin (Qmax (startLeftPct d + deltaXPct) 0) (100 - SignatureElement.width (sig d)).

Definition proposedY (d : Session) (currentY : Q) : Q :=
  let deltaYPixels := currentY - startY d in
  let deltaYPct := (deltaYPixels / DOMRect.height (canvasRect d)) * 100 in
  Qmin (Qmax (startTopPct d + deltaYPct) 0) (100 - hPct d).

(** The result of the section "Snapping Logic" for one move event. *)
Record Snapped : Type := mkSnapped {
  nextX : Q;
  nextY : Q;
  lines : list SnapLine.t
}.

Definition snap (d : Session) (current : Signatures) (currentX currentY : Q)
    : Snapped :=
  let sx := snapAxis vertical (vSnapPoints d current)
              [0; SignatureElement.width (sig d) / 2; SignatureElement.width (sig d)]
              {| minDiff := SNAP_THRESHOLD; next := proposedX d currentX;
                 activeLines := []; snapped := false |} in
  let sy := snapAxis horizontal (hSnapPoints d current)
              [0; hPct d / 2; hPct d]
              {| minDiff := SNAP_THRESHOLD; next := proposedY d currentY;
                 activeLines := activeLines sx; snapped := false |} in
  {| nextX := next sx; nextY := next sy; lines := activeLines sy |}.

(** The callback of the final [prev.map]. *)
Definition place (d : Session) (r : Snapped) (s : SignatureElement.t)
    : SignatureElement.t :=
  if String.eqb (SignatureElement.id s) (id d) then
    {| SignatureElement.id := SignatureElement.id s;
       SignatureElement.dataUrl := SignatureElement.dataUrl s;
       SignatureElement.pageIndex := SignatureElement.pageIndex s;
       SignatureElement.x :=
         Qmin (Qmax (nextX r) 0) (100 - SignatureElement.width s);
       SignatureElement.y := Qmin (Qmax (nextY r) 0) (100 - hPct d);
       SignatureElement.width := SignatureElement.width s;
       SignatureElement.aspectRatio := SignatureElement.aspectRatio s;
       SignatureElement.rotation := SignatureElement.rotation s;
       SignatureElement.opacity := SignatureElement.opacity s |}
  else s.

(** [moveHandler(moveEvent)] with the pointer at [(currentX, currentY)]. *)
Definition moveHandler (d : Session) (currentX currentY : Q) (st : App.t) : App.t :=
  let r := snap d (App.signaturesRef st) currentX currentY in
  let st1 := App.setSnapLines (lines r) st in
  App.setSignatures (map (place d r)) st1.

Definition upHandler (st : App.t) : App.t :=
  Commit.commit (App.setSnapLines [] st).

(** The move events of a gesture, in order. *)
Definition moved (d : Session) (moves : list (Q * Q)) (st : App.t) : App.t :=
  fold_left (fun s m => moveHandler d (fst m) (snd m) s) moves st.

(** A whole drag gesture: pointer-down on element [i], the move events in
    order, pointer-up. *)
Definition session (clientX clientY : Q) (i : string) (moves : list (Q * Q))
    (st : App.t) : App.t :=
  match handleDragStart clientX clientY i st with
  | (st', Some d) =>
      upHandler (moved d moves st')
  | (st', None) => st'
  end.

(** The shape of the dragged element is the one captured at the start. *)
Definition sameShape (d : Session) (st : App.t) : Prop :=
  forall s, In s (App.signatures st) -> SignatureElement.id s = id d ->
    SignatureElement.width s = SignatureElement.width (sig d)
    /\ SignatureElement.aspectRatio s = SignatureElement.aspectRatio (sig d).

End Drag.

(** ** Resize: [handleResizeStart] and the listeners of its effect *)

Module Resize.
Local Open Scope Q_scope.

Definition handleResizeStart (clientX clientY : Q) (s : SignatureElement.t)
    (handle : string) (st : App.t) : App.t :=
  let st1 := App.setHistoryStartRef
               (Some {| History.sigs := App.signaturesRef st;
                        History.draws := App.drawings st |}) st in
  App.setResizeMode
    {| ResizeMode.isResizing := true;
       ResizeMode.handle := Some handle;
       ResizeMode.startPos := (clientX, clientY);
       ResizeMode.startSig := Some s |} st1.

(** [getHPct(w, r)], the height in percent that goes with a width. *)
Definition getHPct (rect : DOMRect.t) (w r : Q) : Q :=
  (w * DOMRect.width rect) / r / DOMRect.height rect.

(** The locals [newX], [newY], [newWidth], [newHeightPct] and
    [aspectRatio] of [handleMove]. *)
Record Box : Type := mkBox {
  newX : Q;
  newY : Q;
  newWidth : Q;
  newHeightPct : Q;
  aspectRatio : Q
}.

(** The branch [if (aspectRatioLocked)]: three independent [if]s. *)
Definition locked (rect : DOMRect.t) (handle : option string)
    (s : SignatureElement.t) (deltaXPct : Q) : Box :=
  let x := SignatureElement.x s in
  let y := SignatureElement.y s in
  let width := SignatureElement.width s in
  let ar := SignatureElement.aspectRatio s in
  let b0 := {| newX := x; newY := y; newWidth := width;
               newHeightPct := getHPct rect width ar; aspectRatio := ar |} in
  let b1 := if handle_includes "e" handle
            then mkBox (newX b0) (newY b0) (Qmax 1 (width + deltaXPct))
                       (newHeightPct b0) ar
            else b0 in
  let b2 := if handle_includes "w" handle
            then let change := Qmin deltaXPct (width - 1) in
                 mkBox (x + change) (newY b1) (width - change) (newHeightPct b1) ar
            else b1 in
  if handle_includes "n" handle
  then let oldH := getHPct rect width ar in
       let newH := getHPct rect (newWidth b2) ar in
       mkBox (newX b2) (y - (newH - oldH)) (newWidth b2) (newHeightPct b2) ar
  else b2.

(** The [else] branch: width and height change independently and the
    aspect ratio is recomputed from the pixel sizes. *)
Definition free (rect : DOMRect.t) (handle : option string)
    (s : SignatureElement.t) (deltaXPct deltaYPct : Q) : Box :=
  let x := SignatureElement.x s in
  let y := SignatureElement.y s in
  let width := SignatureElement.width s in
  let ar := SignatureElement.aspectRatio s in
  let b0 := {| newX := x; newY := y; newWidth := width;
               newHeightPct := getHPct rect width ar; aspectRatio := ar |} in
  let b1 := if handle_includes "e" handle
            then mkBox (newX b0) (newY b0) (Qmax 1 (width + deltaXPct))
                       (newHeightPct b0) ar
            else if handle_includes "w" handle
            then let change := Qmin deltaXPct (width - 1) in
                 mkBox (x + change) (newY b0) (width - change) (newHeightPct b0) ar
            else b0 in
  let b2 := if handle_includes "s" handle
            then mkBox (newX b1) (newY b1) (newWidth b1)
                       (Qmax 0.5 (newHeightPct b1 + deltaYPct)) ar
            else if handle_includes "n" handle
            then let change := Qmin deltaYPct (newHeightPct b1 - 0.5) in
                 mkBox (newX b1) (y + change) (newWidth b1)
                       (newHeightPct b1 - change) ar
            else b1 in
  let wPx := (newWidth b2 / 100) * DOMRect.width rect in
  let hPx := (newHeightPct b2 / 100) * DOMRect.height rect in
  mkBox (newX b2) (newY b2) (newWidth b2) (newHeightPct b2) (wPx / hPx).

(** The two guards after the branches. *)
Definition guard (b : Box) : Box :=
  let w := if Qltb (newWidth b) 1 then 1 else newWidth b in
  let x := if Qltb (newX b) 0 then 0 else newX b in
  mkBox x (newY b) w (newHeightPct b) (aspectRatio b).

(** The box that one move event at [(clientX, clientY)] computes. *)
Definition resized (rect : DOMRect.t) (m : ResizeMode.t) (aspectRatioLocked : bool)
    (s : SignatureElement.t) (clientX clientY : Q) : Box :=
  let deltaX := clientX - fst (ResizeMode.startPos m) in
  let deltaY := clientY - snd (ResizeMode.startPos m) in
  let deltaXPct := (deltaX / DOMRect.width rect) * 100 in
  let deltaYPct := (deltaY / DOMRect.height rect) * 100 in
  guard (if aspectRatioLocked
         then locked rect (ResizeMode.handle m) s deltaXPct
         else free rect (ResizeMode.handle m) s deltaXPct deltaYPct).

(** The callback of the final [prev.map]. *)
Definition place (s : SignatureElement.t) (b : Box) (e : SignatureElement.t)
    : SignatureElement.t :=
  if String.eqb (SignatureElement.id e) (SignatureElement.id s) then
    {| SignatureElement.id := SignatureElement.id e;
       SignatureElement.dataUrl := SignatureElement.dataUrl e;
       SignatureElement.pageIndex := SignatureElement.pageIndex e;
       SignatureElement.x := newX b;
       SignatureElement.y := newY b;
       SignatureElement.width := newWidth b;
       SignatureElement.aspectRatio := aspectRatio b;
       SignatureElement.rotation := SignatureElement.rotation e;
       SignatureElement.opacity := SignatureElement.opacity e |}
  else e.

(** [handleMove(e)]; the effect that installs it returns early unless a
    resize is in progress with a start element and a mounted canvas. *)
Definition handleMove (clientX clientY : Q) (st : App.t) : App.t :=
  let m := App.resizeMode st in
  if negb (ResizeMode.isResizing m) then st
  else match ResizeMode.startSig m, App.canvasRect st with
       | Some s, Some rect =>
           let b := resized rect m (App.aspectRatioLocked st) s clientX clientY in
           App.setSignatures (map (place s b)) st
       | _, _ => st
       end.

Definition handleUp (st : App.t) : App.t :=
  let m := App.resizeMode st in
  if negb (ResizeMode.isResizing m) then st
  else match ResizeMode.startSig m, App.canvasRect st with
       | Some _, Some _ => Commit.commit (App.setResizeMode ResizeMode.idle st)
       | _, _ => st
       end.

(** The move events of a gesture, in order. *)
Definition moved (moves : list (Q * Q)) (st : App.t) : App.t :=
  fold_left (fun a m => handleMove (fst m) (snd m) a) moves st.

(** A whole resize gesture on element [s] by [handle]. *)
Definition session (clientX clientY : Q) (s : SignatureElement.t) (handle : string)
    (moves : list (Q * Q)) (st : App.t) : App.t :=
  handleUp (moved moves (handleResizeStart clientX clientY s handle st)).

End Resize.

(** ** Rotate: [handleRotateStart] and the listeners of its effect

    [Math.atan2] has no rational model: the handlers take the angle of the
    pointer around the centre, in degrees, as their argument. *)

Module Rotate.
Local Open Scope Q_scope.

Definition handleRotateStart (center : Q * Q) (startAngle : Q)
    (s : SignatureElement.t) (st : App.t) : App.t :=
  let st1 := App.setHistoryStartRef
               (Some {| History.sigs := App.signaturesRef st;
                        History.draws := App.drawings st |}) st in
  App.setRotateMode
    {| RotateMode.isRotating := true;
       RotateMode.startAngle := startAngle;
       RotateMode.initialRotation := SignatureElement.rotation s;
       RotateMode.center := Some center;
       RotateMode.sigId := Some (SignatureElement.id s) |} st1.

Definition turn (m : RotateMode.t) (newRotation : Q) (s : SignatureElement.t)
    : SignatureElement.t :=
  match RotateMode.sigId m with
  | Some i =>
      if String.eqb (SignatureElement.id s) i then
        {| SignatureElement.id := SignatureElement.id s;
           SignatureElement.dataUrl := SignatureElement.dataUrl s;
           SignatureElement.pageIndex := SignatureElement.pageIndex s;
           SignatureElement.x := SignatureElement.x s;
           SignatureElement.y := SignatureElement.y s;
           SignatureElement.width := SignatureElement.width s;
           SignatureElement.aspectRatio := SignatureElement.aspectRatio s;
           SignatureElement.rotation := newRotation;
           SignatureElement.opacity := SignatureElement.opacity s |}
      else s
  | None => s
  end.

Definition handleRotateMove (currentAngle : Q) (st : App.t) : App.t :=
  let m := App.rotateMode st in
  if negb (RotateMode.isRotating m) then st
  else match RotateMode.center m with
       | None => st
       | Some _ =>
           let deltaAngle := currentAngle - RotateMode.startAngle m in
           let newRotation := RotateMode.initialRotation m + deltaAngle in
           App.setSignatures (map (turn m newRotation)) st
       end.

Definition handleRotateUp (st : App.t) : App.t :=
  let m := App.rotateMode st in
  if negb (RotateMode.isRotating m) then st
  else match RotateMode.center m with
       | None => st
       | Some _ =>
           Commit.commit
             (App.setRotateMode
                {| RotateMode.isRotating := false;
                   RotateMode.startAngle := RotateMode.startAngle m;
                   RotateMode.initialRotation := RotateMode.initialRotation m;
                   RotateMode.center := None;
                   RotateMode.sigId := None |} st)
       end.

Definition session (center : Q * Q) (startAngle : Q) (s : SignatureElement.t)
    (angles : list Q) (st : App.t) : App.t :=
  handleRotateUp (fold_left (fun a g => handleRotateMove g a) angles
                    (handleRotateStart center startAngle s st)).

End Rotate.

(** ** The one-step mutations of the component *)

Module Edit.
Local Open Scope Q_scope.

(** Truthiness of a [string | null] state. *)
Definition truthy (o : option string) : bool :=
  match o with
  | Some s => negb (String.eqb s EmptyString)
  | None => false
  end.

Definition is_id (o : option string) (s : SignatureElement.t) : bool :=
  match o with
  | Some i => String.eqb (SignatureElement.id s) i
  | None => false
  end.

(** [handleSaveSignature(dataUrl)] together with its [img.onload]: [uuid]
    is the value of [crypto.randomUUID()] and [aspectRatio] the ratio
    [img.width / img.height] of the decoded image. *)
Definition handleSaveSignature (dataUrl uuid : string) (aspectRatio : Q)
    (st : App.t) : App.t :=
  let st1 := App.saveToHistory st in
  if truthy (App.editingSigId st) then
    App.setEditingSigId None
      (App.setSignatures
         (map (fun s =>
            if is_id (App.editingSigId st) s then
              {| SignatureElement.id := SignatureElement.id s;
                 SignatureElement.dataUrl := dataUrl;
                 SignatureElement.pageIndex := SignatureElement.pageIndex s;
                 SignatureElement.x := SignatureElement.x s;
                 SignatureElement.y := SignatureElement.y s;
                 SignatureElement.width := SignatureElement.width s;
                 SignatureElement.aspectRatio := aspectRatio;
                 SignatureElement.rotation := SignatureElement.rotation s;
                 SignatureElement.opacity := SignatureElement.opacity s |}
            else s)) st1)
  else
    let newSig :=
      {| SignatureElement.id := uuid;
         SignatureElement.dataUrl := dataUrl;
         SignatureElement.pageIndex := (App.pageNum st - 1)%Z;
         SignatureElement.x := 40;
         SignatureElement.y := 40;
         SignatureElement.width := 20;
         SignatureElement.aspectRatio := aspectRatio;
         SignatureElement.rotation := 0;
         SignatureElement.opacity := 1 |} in
    App.setSelectedSigId (Some uuid)
      (App.setSignatures (fun prev => prev ++ [newSig]) st1).

Definition handleSaveStyle (dataUrl : string) (opacity : Q) (st : App.t) : App.t :=
  if negb (truthy (App.editingSigId st)) then st
  else
    let st1 := App.saveToHistory st in
    App.setEditingSigId None
      (App.setSignatures
         (map (fun s =>
            if is_id (App.editingSigId st) s then
              {| SignatureElement.id := SignatureElement.id s;
                 SignatureElement.dataUrl := dataUrl;
                 SignatureElement.pageIndex := SignatureElement.pageIndex s;
                 SignatureElement.x := SignatureElement.x s;
                 SignatureElement.y := SignatureElement.y s;
                 SignatureElement.width := SignatureElement.width s;
                 SignatureElement.aspectRatio := SignatureElement.aspectRatio s;
                 SignatureElement.rotation := SignatureElement.rotation s;
                 SignatureElement.opacity := opacity |}
            else s)) st1).

Definition handleAddStroke (stroke : Stroke.t) (st : App.t) : App.t :=
  let st1 := App.saveToHistory st in
  App.setDrawings
    (fun prev =>
       let pageStrokes := default [] (prev !! (App.pageNum st - 1)%Z) in
       <[ (App.pageNum st - 1)%Z := pageStrokes ++ [stroke] ]> prev) st1.

Definition handleClearPage (st : App.t) : App.t :=
  let st1 := App.saveToHistory st in
  App.setDrawings (fun prev => <[ (App.pageNum st - 1)%Z := [] ]> prev) st1.

Definition deleteSignature (i : string) (st : App.t) : App.t :=
  let st1 := App.saveToHistory st in
  let st2 := App.setSignatures
               (List.filter (fun s => negb (String.eqb (SignatureElement.id s) i))) st1 in
  match App.selectedSigId st with
  | Some j => if String.eqb j i then App.setSelectedSigId None st2 else st2
  | None => st2
  end.

Definition handleDuplicateSignature (sigId uuid : string) (st : App.t) : App.t :=
  match find (fun s => String.eqb (SignatureElement.id s) sigId) (App.signatures st) with
  | None => st
  | Some originalSig =>
      let st1 := App.saveToHistory st in
      let newSig :=
        {| SignatureElement.id := uuid;
           SignatureElement.dataUrl := SignatureElement.dataUrl originalSig;
           SignatureElement.pageIndex := SignatureElement.pageIndex originalSig;
           SignatureElement.x := Qmin (SignatureElement.x originalSig + 2) 90;
           SignatureElement.y := Qmin (SignatureElement.y originalSig + 2) 90;
           SignatureElement.width := SignatureElement.width originalSig;
           SignatureElement.aspectRatio := SignatureElement.aspectRatio originalSig;
           SignatureElement.rotation := SignatureElement.rotation originalSig;
           SignatureElement.opacity := SignatureElement.opacity originalSig |} in
      App.setSelectedSigId (Some uuid)
        (App.setSignatures (fun prev => prev ++ [newSig]) st1)
  end.

End Edit.

(** ** The colour helper [hexToRgb] *)

Module Color.
Local Open Scope Q_scope.

(** A channel is a number or [NaN] (here [None]). *)
Record RGB : Type := mkRGB { r : option Q; g : option Q; b : option Q }.


(** Value of a hexadecimal digit, either case. *)
Definition digitValue (c : ascii) : option Z :=
  let n := Z.of_nat (nat_of_ascii c) in
  if ((48 <=? n) && (n <=? 57))%Z then Some (n - 48)%Z
  else if ((97 <=? n) && (n <=? 102))%Z then Some (n - 87)%Z
  else if ((65 <=? n) && (n <=? 70))%Z then Some (n - 55)%Z
  else None.

(** The class [[a-f\d]] under the flag [i]: a decimal digit or a letter
    from a to f in either case. *)
Definition inClass (c : ascii) : bool :=
  let n := nat_of_ascii c in
  ((48 <=? n) && (n <=? 57) || (97 <=? n) && (n <=? 102)
   || (65 <=? n) && (n <=? 70))%nat.

(** The three groups [([a-f\d]{2})] followed by the end anchor. *)
Definition groups (s : string) : option (string * string * string) :=
  match list_ascii_of_string s with
  | [c1; c2; c3; c4; c5; c6] =>
      if forallb inClass [c1; c2; c3; c4; c5; c6]
      then Some (string_of_list_ascii [c1; c2],
                 string_of_list_ascii [c3; c4],
                 string_of_list_ascii [c5; c6])
      else None
  | _ => None
  end.

(** [/^#?([a-f\d]{2})([a-f\d]{2})([a-f\d]{2})$/i.exec(hex)]: the optional
    [#] is tried first and given back when the rest does not match. *)
Definition exec (hex : string) : option (string * string * string) :=
  match hex with
  | String "#" rest =>
      match groups rest with
      | Some m => Some m
      | None => groups hex
      end
  | _ => groups hex
  end.

(** The digits that [parseInt(s, 16)] reads: the longest prefix of
    hexadecimal digits, most significant first. *)
Fixpoint digits (l : list ascii) : list Z :=
  match l with
  | [] => []
  | c :: rest =>
      match digitValue c with
      | Some v => v :: digits rest
      | None => []
      end
  end.

(** An optional sign in front of the number. *)
Definition stripSign (l : list ascii) : Z * list ascii :=
  match l with
  | "-"%char :: t => ((-1)%Z, t)
  | "+"%char :: t => (1%Z, t)
  | _ => (1%Z, l)
  end.

(** An optional prefix [0x] or [0X], which radix 16 allows. *)
Definition stripPrefix (l : list ascii) : list ascii :=
  match l with
  | "0"%char :: "x"%char :: t => t
  | "0"%char :: "X"%char :: t => t
  | _ => l
  end.

(** [parseInt(s, 16)], [None] for [NaN].  Leading white space, which
    JavaScript skips, is not modelled. *)
Definition parseInt16 (s : string) : option Z :=
  let '(sign, l1) := stripSign (list_ascii_of_string s) in
  match digits (stripPrefix l1) with
  | [] => None
  | ds => Some (sign * fold_left (fun acc d => 16 * acc + d) ds 0)%Z
  end.

Definition channel (group : string) : option Q :=
  match parseInt16 group with
  | Some n => Some (inject_Z n / 255)
  | None => None
  end.

Definition hexToRgb (hex : string) : RGB :=
  match exec hex with
  | Some (g1, g2, g3) => {| r := channel g1; g := channel g2; b := channel g3 |}
  | None => {| r := Some 0; g := Some 0; b := Some 0 |}
  end.




End Color.

(** ** Document export: the drawing requests of [handleDownload]

    The requests that reach pdf-lib are collected instead of performed.
    Coordinates are real numbers, the numbers of the model enter through
    [Q2R]. *)

Module PdfExport.
Local Open Scope R_scope.

(** [page.getSize()] *)
Record PageSize : Type := mkPageSize { width : R; height : R }.

(** The value of [degrees(a)]. *)
Inductive Rotation : Type := degrees (angle : R).

Definition angleOf (t : Rotation) : R := match t with degrees a => a end.

Record Point : Type := mkPoint { px : R; py : R }.

(** The argument of [page.drawLine]. *)
Record LineOptions : Type := mkLine {
  lineStart : Point;
  lineEnd : Point;
  thickness : R;
  color : Color.RGB;
  lineOpacity : R
}.

(** The argument [drawOptions] of [page.drawImage]; [rotate] is absent
    unless the element is rotated. *)
Record ImageOptions : Type := mkImage {
  x : R;
  y : R;
  imgWidth : R;
  imgHeight : R;
  opacity : R;
  rotate : option Rotation
}.

Inductive Request : Type :=
  | drawLine (page : nat) (o : LineOptions)
  | drawImage (page : nat) (image : string) (o : ImageOptions).

(** The mapping of one stroke point into the point space of the page. *)
Definition toPage (s : PageSize) (p : StrokePoint.t) : Point :=
  {| px := Q2R (StrokePoint.x p) * width s;
     py := height s - (Q2R (StrokePoint.y p) * height s) |}.

(** The loop [for (let j = 0; j < stroke.points.length - 1; j++)]. *)
Fixpoint segments (s : PageSize) (stroke : Stroke.t) (pts : list StrokePoint.t)
    : list LineOptions :=
  match pts with
  | p1 :: ((p2 :: _) as rest) =>
      {| lineStart := toPage s p1;
         lineEnd := toPage s p2;
         thickness := Q2R (Stroke.width stroke);
         color := Color.hexToRgb (Stroke.color stroke);
         lineOpacity := 1 |} :: segments s stroke rest
  | _ => []
  end.

Definition burnStroke (s : PageSize) (stroke : Stroke.t) : list LineOptions :=
  if (length (Stroke.points stroke) <? 2)%nat then []
  else segments s stroke (Stroke.points stroke).

(** Part 1, "Burn Drawings", for the pages from index [i] on. *)
Fixpoint burnDrawings (drawings : PageDrawings) (i : nat) (pages : list PageSize)
    : list Request :=
  match pages with
  | [] => []
  | s :: rest =>
      let here := match drawings !! Z.of_nat i with
                  | Some pageStrokes =>
                      map (drawLine i) (flat_map (burnStroke s) pageStrokes)
                  | None => []
                  end in
      here ++ burnDrawings drawings (S i) rest
  end.

(** The object literal [drawOptions], before the rotation is looked at. *)
Definition baseOptions (s : PageSize) (e : SignatureElement.t) : ImageOptions :=
  let pageWidth := width s in
  let pageHeight := height s in
  let imgW := (Q2R (SignatureElement.width e) / 100) * pageWidth in
  let imgH := imgW / Q2R (SignatureElement.aspectRatio e) in
  let x0 := (Q2R (SignatureElement.x e) / 100) * pageWidth in
  let yFromTopPct := Q2R (SignatureElement.y e) in
  let yFromTopUnits := (yFromTopPct / 100) * pageHeight in
  let y0 := pageHeight - yFromTopUnits - imgH in
  {| x := x0; y := y0; imgWidth := imgW; imgHeight := imgH;
     opacity := Q2R (SignatureElement.opacity e); rotate := None |}.

(** The body of the loop of part 2, "Burn Signatures", for one element on
    a page of size [s]: the options that [page.drawImage] receives. *)
Definition imageOptions (s : PageSize) (e : SignatureElement.t) : ImageOptions :=
  let drawOptions := baseOptions s e in
  if Qeq_bool (SignatureElement.rotation e) 0 then drawOptions
  else
    let rads := (Q2R (SignatureElement.rotation e) * -1) * (PI / 180) in
    let centerX := x drawOptions + imgWidth drawOptions / 2 in
    let centerY := y drawOptions + imgHeight drawOptions / 2 in
    let rotX := (imgWidth drawOptions / 2) * cos rads
                - (imgHeight drawOptions / 2) * sin rads in
    let rotY := (imgWidth drawOptions / 2) * sin rads
                + (imgHeight drawOptions / 2) * cos rads in
    {| x := centerX - rotX; y := centerY - rotY;
       imgWidth := imgWidth drawOptions; imgHeight := imgHeight drawOptions;
       opacity := opacity drawOptions;
       rotate := Some (degrees (Q2R (SignatureElement.rotation e) * -1)) |}.

(** Part 2 for every element; [None] when [pages[sig.pageIndex]] is
    missing, which throws and ends the export in the [catch]. *)
Fixpoint burnSignatures (pages : list PageSize) (l : Signatures)
    : option (list Request) :=
  match l with
  | [] => Some []
  | e :: rest =>
      if (SignatureElement.pageIndex e <? 0)%Z then None
      else
        let i := Z.to_nat (SignatureElement.pageIndex e) in
        match pages !! i, burnSignatures pages rest with
        | Some s, Some reqs =>
            Some (drawImage i (SignatureElement.dataUrl e) (imageOptions s e) :: reqs)
        | _, _ => None
        end
  end.

Definition handleDownload (pages : list PageSize) (drawings : PageDrawings)
    (signatures : Signatures) : option (list Request) :=
  match burnSignatures pages signatures with
  | Some reqs => Some (burnDrawings drawings 0 pages ++ reqs)
  | None => None
  end.

(** pdf-lib turns an angle in degrees into radians. *)
Definition toRadians (deg : R) : R := (deg * PI) / 180.

(** What pdf-lib does with the options of [drawImage]: it translates to
    [(x, y)], rotates counter-clockwise by [rotate] about that point and
    scales the unit square to the size of the image.  The point [(u, v)]
    of the image, [v] counted upwards from its bottom edge, lands at: *)
Definition imagePoint (o : ImageOptions) (u v : R) : Point :=
  let t := match rotate o with
           | Some d => toRadians (angleOf d)
           | None => 0
           end in
  {| px := x o + (u * imgWidth o * cos t - v * imgHeight o * sin t);
     py := y o + (u * imgWidth o * sin t + v * imgHeight o * cos t) |}.

(** The point of a page of height [h] that shows what the canvas, [k]
    times as large and with its y axis pointing down, shows at [p]. *)
Definition ofCanvas (k h : R) (p : R * R) : Point :=
  {| px := fst p / k; py := h - snd p / k |}.

End PdfExport.

(** ** Raster export: the canvas calls of [handleExportPageAsImage] *)

Module RasterExport.
Local Open Scope R_scope.

(** [page.getViewport({ scale: exportScale })] *)
Record Viewport : Type := mkViewport { width : R; height : R }.

Definition exportScale : R := 2.

(** The calls between [ctx.save()] and [ctx.restore()] for one element:
    [globalAlpha], [translate(cx, cy)], [rotate(angle)],
    [translate(-cx, -cy)] and [drawImage(img, x, y, width, height)]. *)
Record ImageCalls : Type := mkCalls {
  globalAlpha : R;
  translateTo : R * R;
  rotate : R;
  translateBack : R * R;
  x : R;
  y : R;
  imgWidth : R;
  imgHeight : R
}.

Definition imageCalls (v : Viewport) (e : SignatureElement.t) : ImageCalls :=
  let w := (Q2R (SignatureElement.width e) / 100) * width v in
  let h := w / Q2R (SignatureElement.aspectRatio e) in
  let x0 := (Q2R (SignatureElement.x e) / 100) * width v in
  let y0 := (Q2R (SignatureElement.y e) / 100) * height v in
  let cx := x0 + w / 2 in
  let cy := y0 + h / 2 in
  {| globalAlpha := Q2R (SignatureElement.opacity e);
     translateTo := (cx, cy);
     rotate := (Q2R (SignatureElement.rotation e) * PI) / 180;
     translateBack := (- cx, - cy);
     x := x0; y := y0; imgWidth := w; imgHeight := h |}.

(** Part 3, "Draw Signatures": the elements of the exported page. *)
Definition drawSignatures (v : Viewport) (pageNum : Z) (signatures : Signatures)
    : list ImageCalls :=
  map (imageCalls v)
      (List.filter (fun s => Z.eqb (SignatureElement.pageIndex s) (pageNum - 1))
         signatures).

(** One stroke of part 2, "Draw Strokes": the line width and the points
    given to [moveTo] and [lineTo]. *)
Definition drawStroke (v : Viewport) (stroke : Stroke.t)
    : option (R * list (R * R)) :=
  if (length (Stroke.points stroke) <? 2)%nat then None
  else Some (Q2R (Stroke.width stroke) * exportScale,
             map (fun p => (Q2R (StrokePoint.x p) * width v,
                            Q2R (StrokePoint.y p) * height v))
                 (Stroke.points stroke)).

(** What the canvas does with these calls, in its coordinates with the
    y axis pointing down: [rotate(a)] turns by [a] radians clockwise on the
    screen, and the two translations make the centre the pivot.  The point
    [(u, t)] of the image, [t] counted downwards from its top edge, lands
    at: *)
Definition imagePoint (c : ImageCalls) (u t : R) : R * R :=
  let dx := (x c + u * imgWidth c) + fst (translateBack c) in
  let dy := (y c + t * imgHeight c) + snd (translateBack c) in
  (fst (translateTo c) + (dx * cos (rotate c) - dy * sin (rotate c)),
   snd (translateTo c) + (dx * sin (rotate c) + dy * cos (rotate c))).

End RasterExport.

(** ** The page invariant, in the words of the specification *)

Module Geometry.
Local Open Scope Q_scope.

(** Height of an element in percent of the page height:
    [width * (viewportWidth / viewportHeight) / aspectRatio]. *)
Definition heightPercent (rect : DOMRect.t) (s : SignatureElement.t) : Q :=
  SignatureElement.width s * (DOMRect.width rect / DOMRect.height rect)
   / SignatureElement.aspectRatio s.

(** [x >= 0], [y >= 0], [x + width <= 100], [width >= 1] and
    [y <= 100 - heightPercent]. *)
Definition onPage (hPct : Q) (s : SignatureElement.t) : Prop :=
  0 <= SignatureElement.x s /\ 0 <= SignatureElement.y s
  /\ SignatureElement.x s + SignatureElement.width s <= 100
  /\ 1 <= SignatureElement.width s
  /\ SignatureElement.y s <= 100 - hPct.

(** The invariant for every element shown on a canvas of size [rect]. *)
Definition allOnPage (rect : DOMRect.t) (l : list SignatureElement.t) : Prop :=
  Forall (fun s => onPage (heightPercent rect s) s) l.

End Geometry.

(** ** Concrete states used as test inputs *)

Module Examples.
Local Open Scope Q_scope.

Definition element (i : string) (x y width aspectRatio : Q) : SignatureElement.t :=
  {| SignatureElement.id := i; SignatureElement.dataUrl := "data:image/png;base64,";
     SignatureElement.pageIndex := 0;
     SignatureElement.x := x; SignatureElement.y := y;
     SignatureElement.width := width; SignatureElement.aspectRatio := aspectRatio;
     SignatureElement.rotation := 0; SignatureElement.opacity := 1 |}.

(** A page of 600 by 800 pixels showing the signatures [l] of page 1. *)
Definition page (l : Signatures) : App.t :=
  {| App.ed := {| History.signatures := l; History.drawings := ∅;
                  History.history := History.empty |};
     App.signaturesRef := l;
     App.historyStartRef := None;
     App.selectedSigId := None;
     App.editingSigId := None;
     App.isFreeDrawMode := false;
     App.aspectRatioLocked := true;
     App.resizeMode := ResizeMode.idle;
     App.rotateMode := RotateMode.idle;
     App.snapTargets := [];
     App.snapLines := [];
     App.pageNum := 1;
     App.canvasRect := Some {| DOMRect.width := 600; DOMRect.height := 800 |} |}.

(** A signature as [handleSaveSignature] places it, of a 2:1 image. *)
Definition fresh : SignatureElement.t := element "a" 40 40 20 2.

(** The same for an image ten times as high as it is wide. *)
Definition tall : SignatureElement.t := element "a" 40 40 20 0.1.

Definition canvas : DOMRect.t := {| DOMRect.width := 600; DOMRect.height := 800 |}.

(** The session that a pointer-down at (300, 400) on the element of the
    page [page [s]] starts. *)
Definition dragOf (s : SignatureElement.t) : Drag.Session :=
  {| Drag.id := "a";
     Drag.canvasRect := {| DOMRect.width := 600; DOMRect.height := 800 |};
     Drag.startX := 300; Drag.startY := 400;
     Drag.sig := s; Drag.pageNum := 1; Drag.snapTargets := [] |}.

(** A second signature on the same page, with its left edge at [x]. *)
Definition sibling (x : Q) : SignatureElement.t := element "b" x 10 20 2.

(** The fresh signature dragged 60 pixels to the right and 80 down. *)
Definition dragged : App.t :=
  Drag.session 300 400 "a" [(360, 480)] (page [fresh]).

(** The tall signature picked up and put down where it was. *)
Definition draggedTall : App.t :=
  Drag.session 300 400 "a" [(300, 400)] (page [tall]).

(** A stroke from the middle of the top edge to the middle of the page. *)
Definition stroke : Stroke.t :=
  {| Stroke.points := [ {| StrokePoint.x := 0.5; StrokePoint.y := 0 |};
                        {| StrokePoint.x := 0.5; StrokePoint.y := 0.5 |} ];
     Stroke.color := "#000000"; Stroke.width := 3 |}.

(** The fresh signature turned by 30 degrees. *)
Definition turned : SignatureElement.t :=
  {| SignatureElement.id := "a"; SignatureElement.dataUrl := "data:image/png;base64,";
     SignatureElement.pageIndex := 0;
     SignatureElement.x := 40; SignatureElement.y := 40;
     SignatureElement.width := 20; SignatureElement.aspectRatio := 2;
     SignatureElement.rotation := 30; SignatureElement.opacity := 1 |}.

(** The fresh signature dragged away and back to where it started. *)
Definition draggedBack : App.t :=
  Drag.session 300 400 "a" [(360, 480); (300, 400)] (page [fresh]).

(** The same gesture just before the pointer goes up. *)
Definition heldBack : App.t :=
  Drag.moved (dragOf fresh) [(360, 480); (300, 400)]
    (fst (Drag.handleDragStart 300 400 "a" (page [fresh]))).

(** A drag that ends 60 pixels to the right, just before pointer-up, in
    an editor where one undo has left something to redo. *)
Definition heldAway : App.t :=
  Drag.moved (dragOf fresh) [(360, 400)]
    (fst (Drag.handleDragStart 300 400 "a"
            (App.undo (Edit.handleClearPage (page [fresh]))))).

(** A page of 1000 by 1250 pixels, one pixel being a tenth of a percent
    of its width, with the form fields [targets] as snap targets. *)
Definition wide : DOMRect.t := {| DOMRect.width := 1000; DOMRect.height := 1250 |}.

Definition form (l : Signatures) (targets : list SnapTarget.t) : App.t :=
  {| App.ed := {| History.signatures := l; History.drawings := ∅;
                  History.history := History.empty |};
     App.signaturesRef := l;
     App.historyStartRef := None;
     App.selectedSigId := None;
     App.editingSigId := None;
     App.isFreeDrawMode := false;
     App.aspectRatioLocked := true;
     App.resizeMode := ResizeMode.idle;
     App.rotateMode := RotateMode.idle;
     App.snapTargets := targets;
     App.snapLines := [];
     App.pageNum := 1;
     App.canvasRect := Some wide |}.

(** The session that a pointer-down at (300, 400) on the fresh signature
    starts on such a page. *)
Definition dragOnForm (targets : list SnapTarget.t) : Drag.Session :=
  {| Drag.id := "a"; Drag.canvasRect := wide;
     Drag.startX := 300; Drag.startY := 400;
     Drag.sig := fresh; Drag.pageNum := 1; Drag.snapTargets := targets |}.

(** A form field whose left edge is at 50.2 percent of the page width. *)
Definition field : SnapTarget.t :=
  {| SnapTarget.x := 50.2; SnapTarget.y := 10;
     SnapTarget.width := 30; SnapTarget.height := 5 |}.

(** The fresh signature on the page with that field, picked up at
    (300, 400) by [handleDragStart]. *)
Definition nearField : App.t :=
  fst (Drag.handleDragStart 300 400 "a" (form [fresh] [field])).

(** The fresh signature resized by its east handle, 480 pixels to the
    right. *)
Definition resized : App.t :=
  Resize.session 300 400 fresh "e" [(780, 400)] (page [fresh]).

(** A signature near the bottom of the page, resized the same way. *)
Definition low : SignatureElement.t := element "a" 40 90 20 2.

Definition resizedLow : App.t :=
  Resize.session 300 400 low "e" [(780, 400)] (page [low]).

(** The page with the aspect lock switched off. *)
Definition unlocked (st : App.t) : App.t :=
  App.mk (App.ed st) (App.signaturesRef st) (App.historyStartRef st)
    (App.selectedSigId st) (App.editingSigId st) (App.isFreeDrawMode st) false
    (App.resizeMode st) (App.rotateMode st) (App.snapTargets st) (App.snapLines st)
    (App.pageNum st) (App.canvasRect st).

(** The fresh signature resized by its north handle, 400 pixels up, with
    the aspect lock off. *)
Definition resizedNorth : App.t :=
  Resize.session 300 400 fresh "n" [(300, 0)] (unlocked (page [fresh])).

End Examples.

(** ** The store: arrays and objects behind the React states

    The values above forget that [signatures], [drawings] and every
    snapshot are references to JavaScript arrays and objects.  Here they
    are locations in a store.  A location is the index of an object in the
    store and an allocation appends to it. *)

Module Store.

Abbreviation loc := nat.

Inductive Obj : Type :=
  | SigArray (elems : list loc)            (* a [SignatureElement[]] *)
  | SigObject (s : SignatureElement.t)     (* one element object *)
  | DrawingsObject (pages : gmap Z loc)    (* a [PageDrawings] object *)
  | StrokeArray (strokes : list Stroke.t). (* a [Stroke[]] *)

Abbreviation Heap := (list Obj).

Record t : Type := mk {
  heap : Heap;
  ed : History.editor loc loc;
  signaturesRef : loc;
  historyStartRef : option (History.entry loc loc)
}.

Definition signatures (st : t) : loc := History.signatures (ed st).
Definition drawings (st : t) : loc := History.drawings (ed st).
Definition history (st : t) : History.t loc loc := History.history (ed st).

(** An array or object literal, a spread or the result of [map] or
    [filter]: a new object at a new location. *)
Definition alloc (o : Obj) (h : Heap) : loc * Heap := (length h, h ++ [o]).

(** [prev.map(s => changed(s) ? f(s) : s)]: [f(s)] is a new object, built
    by a spread of [s]; an element that is not changed is returned as it
    is, that is, the same object. *)
Fixpoint mapElems (changed : SignatureElement.t -> bool)
    (f : SignatureElement.t -> SignatureElement.t) (h : Heap) (ls : list loc)
    : list loc * Heap :=
  match ls with
  | [] => ([], h)
  | l :: rest =>
      let '(l', h1) :=
        match h !! l with
        | Some (SigObject s) =>
            if changed s then alloc (SigObject (f s)) h else (l, h)
        | _ => (l, h)
        end in
      let '(rest', h2) := mapElems changed f h1 rest in
      (l' :: rest', h2)
  end.

(** [prev.filter(s => keep(s))] *)
Definition filterElems (keep : SignatureElement.t -> bool) (h : Heap)
    (ls : list loc) : list loc :=
  List.filter (fun l => match h !! l with
                        | Some (SigObject s) => keep s
                        | _ => false
                        end) ls.

Definition elemsOf (h : Heap) (l : loc) : list loc :=
  match h !! l with
  | Some (SigArray ls) => ls
  | _ => []
  end.

Definition pagesOf (h : Heap) (l : loc) : gmap Z loc :=
  match h !! l with
  | Some (DrawingsObject pages) => pages
  | _ => ∅
  end.

Definition strokesOf (h : Heap) (l : loc) : list Stroke.t :=
  match h !! l with
  | Some (StrokeArray ss) => ss
  | _ => []
  end.

(** [setSignatures(a)] for a new array with the elements [ls], followed by
    the effect that copies the reference into [signaturesRef]. *)
Definition setSignatures (ls : list loc) (h : Heap) (st : t) : t :=
  let '(a, h') := alloc (SigArray ls) h in
  {| heap := h';
     ed := {| History.signatures := a;
              History.drawings := drawings st;
              History.history := history st |};
     signaturesRef := a;
     historyStartRef := historyStartRef st |}.

Definition setDrawings (pages : gmap Z loc) (h : Heap) (st : t) : t :=
  let '(d, h') := alloc (DrawingsObject pages) h in
  {| heap := h';
     ed := {| History.signatures := signatures st;
              History.drawings := d;
              History.history := history st |};
     signaturesRef := signaturesRef st;
     historyStartRef := historyStartRef st |}.

Definition with_ed (e : History.editor loc loc) (st : t) : t :=
  {| heap := heap st; ed := e;
     signaturesRef := History.signatures e;
     historyStartRef := historyStartRef st |}.

(** Deep reads: the value that a reference stands for, [None] when a
    location on the way holds no object of the expected kind. *)
Definition readElem (h : Heap) (l : loc) : option SignatureElement.t :=
  match h !! l with
  | Some (SigObject s) => Some s
  | _ => None
  end.

Definition readSigs (h : Heap) (l : loc) : option Signatures :=
  match h !! l with
  | Some (SigArray ls) => mapM (readElem h) ls
  | _ => None
  end.

Definition readStrokes (h : Heap) (l : loc) : option (list Stroke.t) :=
  match h !! l with
  | Some (StrokeArray ss) => Some ss
  | _ => None
  end.

Definition readDraws (h : Heap) (l : loc) : option PageDrawings :=
  match h !! l with
  | Some (DrawingsObject pages) =>
      if decide (map_Forall (fun _ a => is_Some (readStrokes h a)) pages)
      then Some (omap (readStrokes h) pages)
      else None
  | _ => None
  end.

Definition readEntry (h : Heap) (e : History.entry loc loc) : option Snapshot :=
  match readSigs h (History.sigs e), readDraws h (History.draws e) with
  | Some s, Some d => Some {| History.sigs := s; History.draws := d |}
  | _, _ => None
  end.

(** The state changes that the handlers of the component are made of. *)
Inductive Op : Type :=
  | SaveToHistory
  | Undo
  | Redo
  | MapSignatures (changed : SignatureElement.t -> bool)
                  (f : SignatureElement.t -> SignatureElement.t)
  | AppendSignature (newSig : SignatureElement.t)
  | FilterSignatures (keep : SignatureElement.t -> bool)
  | AddStroke (page : Z) (stroke : Stroke.t)
  | ClearPage (page : Z)
  | SessionStart
  | SessionCommit
  | Reset.

(** [JSON.stringify(startState.sigs) !== JSON.stringify(signaturesRef.current)] *)
Definition hasChanged (st : t) (startState : History.entry loc loc) : bool :=
  match readSigs (heap st) (History.sigs startState),
        readSigs (heap st) (signaturesRef st) with
  | Some a, Some b => negb (String.eqb (JSON.stringify a) (JSON.stringify b))
  | _, _ => false
  end.

Definition run (op : Op) (st : t) : t :=
  match op with
  | SaveToHistory => with_ed (History.saveToHistory (ed st)) st
  | Undo => with_ed (History.undo (ed st)) st
  | Redo => with_ed (History.redo (ed st)) st
  | MapSignatures changed f =>
      let '(ls, h) := mapElems changed f (heap st) (elemsOf (heap st) (signatures st)) in
      setSignatures ls h st
  | AppendSignature newSig =>
      let '(l, h) := alloc (SigObject newSig) (heap st) in
      setSignatures (elemsOf (heap st) (signatures st) ++ [l]) h st
  | FilterSignatures keep =>
      setSignatures (filterElems keep (heap st) (elemsOf (heap st) (signatures st)))
                    (heap st) st
  | AddStroke page stroke =>
      let prev := pagesOf (heap st) (drawings st) in
      let pageStrokes := match prev !! page with
                         | Some a => strokesOf (heap st) a
                         | None => []
                         end in
      let '(a, h) := alloc (StrokeArray (pageStrokes ++ [stroke])) (heap st) in
      setDrawings (<[page := a]> prev) h st
  | ClearPage page =>
      let prev := pagesOf (heap st) (drawings st) in
      let '(a, h) := alloc (StrokeArray []) (heap st) in
      setDrawings (<[page := a]> prev) h st
  | SessionStart =>
      {| heap := heap st; ed := ed st; signaturesRef := signaturesRef st;
         historyStartRef := Some {| History.sigs := signaturesRef st;
                                    History.draws := drawings st |} |}
  | SessionCommit =>
      match historyStartRef st with
      | Some startState =>
          if hasChanged st startState
          then {| heap := heap st;
                  ed := {| History.signatures := signatures st;
                           History.drawings := drawings st;
                           History.history :=
                             History.record
                               {| History.sigs := History.sigs startState;
                                  History.draws := History.draws startState |}
                               (history st) |};
                  signaturesRef := signaturesRef st;
                  historyStartRef := historyStartRef st |}
          else st
      | None => st
      end
  | Reset =>
      let '(a, h1) := alloc (SigArray []) (heap st) in
      let '(d, h2) := alloc (DrawingsObject ∅) h1 in
      {| heap := h2;
         ed := {| History.signatures := a; History.drawings := d;
                  History.history := History.empty |};
         signaturesRef := a;
         historyStartRef := historyStartRef st |}
  end.

Definition runs (ops : list Op) (st : t) : t :=
  fold_left (fun s op => run op s) ops st.

(** Every snapshot that the history holds. *)
Definition recorded (st : t) : list (History.entry loc loc) :=
  History.past (history st) ++ History.future (history st).

(** The locations that a pair of a signature array and a drawings object
    reaches: the two themselves, the element objects and the stroke
    arrays. *)
Definition reach (h : Heap) (s d : loc) : list loc :=
  s :: elemsOf h s ++ d :: map snd (map_to_list (pagesOf h d)).

(** A snapshot that is a deep copy shares no location with the live
    state. *)
Definition deepCopy (st : t) (e : History.entry loc loc) : Prop :=
  forall l, In l (reach (heap st) (History.sigs e) (History.draws e)) ->
    ~ In l (reach (heap st) (signatures st) (drawings st)).

(** The values that a state of the store stands for: the three React
    states and the two refs, read through their references. *)
Definition readHistory (h : Heap) (hist : History.t loc loc)
    : option (History.t Signatures PageDrawings) :=
  match mapM (readEntry h) (History.past hist), mapM (readEntry h) (History.future hist) with
  | Some p, Some f => Some {| History.past := p; History.future := f |}
  | _, _ => None
  end.

Record Values : Type := mkValues {
  vEd : History.editor Signatures PageDrawings;
  vRef : Signatures;
  vStart : option Snapshot
}.

Definition readStart (h : Heap) (o : option (History.entry loc loc))
    : option (option Snapshot) :=
  match o with
  | None => Some None
  | Some e => match readEntry h e with
              | Some v => Some (Some v)
              | None => None
              end
  end.

Definition view (st : t) : option Values :=
  match readSigs (heap st) (signatures st), readDraws (heap st) (drawings st),
        readHistory (heap st) (history st),
        readSigs (heap st) (signaturesRef st), readStart (heap st) (historyStartRef st) with
  | Some s, Some d, Some h, Some r, Some o =>
      Some {| vEd := {| History.signatures := s; History.drawings := d;
                        History.history := h |};
              vRef := r; vStart := o |}
  | _, _, _, _, _ => None
  end.

(** The same state changes on values, as the handlers of the geometry
    model perform them. *)
Definition withSignatures (l : Signatures) (v : Values) : Values :=
  {| vEd := {| History.signatures := l;
               History.drawings := History.drawings (vEd v);
               History.history := History.history (vEd v) |};
     vRef := l; vStart := vStart v |}.

Definition withDrawings (d : PageDrawings) (v : Values) : Values :=
  {| vEd := {| History.signatures := History.signatures (vEd v);
               History.drawings := d;
               History.history := History.history (vEd v) |};
     vRef := vRef v; vStart := vStart v |}.

Definition withEd (e : History.editor Signatures PageDrawings) (v : Values) : Values :=
  {| vEd := e; vRef := History.signatures e; vStart := vStart v |}.

Definition denote (op : Op) (v : Values) : Values :=
  match op with
  | SaveToHistory => withEd (History.saveToHistory (vEd v)) v
  | Undo => withEd (History.undo (vEd v)) v
  | Redo => withEd (History.redo (vEd v)) v
  | MapSignatures changed f =>
      withSignatures (map (fun s => if changed s then f s else s)
                          (History.signatures (vEd v))) v
  | AppendSignature newSig =>
      withSignatures (History.signatures (vEd v) ++ [newSig]) v
  | FilterSignatures keep =>
      withSignatures (List.filter keep (History.signatures (vEd v))) v
  | AddStroke page stroke =>
      let prev := History.drawings (vEd v) in
      withDrawings (<[page := default [] (prev !! page) ++ [stroke]]> prev) v
  | ClearPage page =>
      withDrawings (<[page := []]> (History.drawings (vEd v))) v
  | SessionStart =>
      {| vEd := vEd v; vRef := vRef v;
         vStart := Some {| History.sigs := vRef v;
                           History.draws := History.drawings (vEd v) |} |}
  | SessionCommit =>
      match vStart v with
      | Some startState =>
          if negb (String.eqb (JSON.stringify (History.sigs startState))
                              (JSON.stringify (vRef v)))
          then {| vEd := {| History.signatures := History.signatures (vEd v);
                            History.drawings := History.drawings (vEd v);
                            History.history :=
                              History.record startState (History.history (vEd v)) |};
                  vRef := vRef v; vStart := vStart v |}
          else v
      | None => v
      end
  | Reset =>
      {| vEd := {| History.signatures := []; History.drawings := ∅;
                   History.history := History.empty |};
         vRef := []; vStart := vStart v |}
  end.

(** A component that has just been mounted: [useState([])],
    [useState({})] and an empty history. *)
Definition initial : t :=
  {| heap := [SigArray []; DrawingsObject ∅];
     ed := {| History.signatures := 0; History.drawings := 1;
              History.history := History.empty |};
     signaturesRef := 0;
     historyStartRef := None |}.

(** The part of the component state that lives behind references. *)
Definition values (a : App.t) : Values :=
  {| vEd := App.ed a; vRef := App.signaturesRef a; vStart := App.historyStartRef a |}.

Definition denotes (ops : list Op) (v : Values) : Values :=
  fold_left (fun a op => denote op a) ops v.

(** Two signatures are placed; then a recorded mutation moves the first
    one to [x = 60]. *)
Definition placed : t :=
  runs [AppendSignature Examples.fresh; AppendSignature (Examples.sibling 50)] initial.

Definition toSixty (s : SignatureElement.t) : SignatureElement.t :=
  {| SignatureElement.id := SignatureElement.id s;
     SignatureElement.dataUrl := SignatureElement.dataUrl s;
     SignatureElement.pageIndex := SignatureElement.pageIndex s;
     SignatureElement.x := 60;
     SignatureElement.y := SignatureElement.y s;
     SignatureElement.width := SignatureElement.width s;
     SignatureElement.aspectRatio := SignatureElement.aspectRatio s;
     SignatureElement.rotation := SignatureElement.rotation s;
     SignatureElement.opacity := SignatureElement.opacity s |}.

Definition firstMoved : list Op :=
  [SaveToHistory;
   MapSignatures (fun s => String.eqb (SignatureElement.id s) "a") toSixty].

End Store.
(** ** The rest of the component: view controls

    The handlers of [src/App.tsx] around the geometry engine: zoom and page
    navigation, the snap targets read from the form fields of the page, the
    free-draw switch, the dialogs, and loading and resetting a document. *)

(** *** Zoom: [fitToWidth], [handleZoomIn] and [handleZoomOut] *)

Module Zoom.
Local Open Scope Q_scope.

(** The scale that [fitToWidth] sets for a container of [containerWidth]
    pixels and a page that is [unscaledWidth] points wide at scale 1. *)
Definition fitToWidth (containerWidth unscaledWidth : Q) : Q :=
  let desiredScale := (containerWidth - 48) / unscaledWidth in
  let finalScale := Qmin (Qmax desiredScale 0.5) 2.0 in
  finalScale.

(** The updaters [s => Math.min(s + 0.25, 3.0)] and
    [s => Math.max(s - 0.25, 0.5)]. *)
Definition handleZoomIn (s : Q) : Q := Qmin (s + 0.25) 3.0.
Definition handleZoomOut (s : Q) : Q := Qmax (s - 0.25) 0.5.

(** The two zoom buttons, and a series of clicks on them. *)
Inductive Button : Type := ZoomIn | ZoomOut.

Definition click (s : Q) (b : Button) : Q :=
  match b with
  | ZoomIn => handleZoomIn s
  | ZoomOut => handleZoomOut s
  end.

Definition clicks (l : list Button) (s : Q) : Q := fold_left click l s.

End Zoom.

(** *** Page navigation: the two arrows and the thumbnails *)

Module Pager.
Local Open Scope Z_scope.

(** What the page bar reads: [pageNum], [totalPages] and the thumbnails
    that are shown. *)
Record t : Type := mk { pageNum : Z; totalPages : Z; thumbnails : list string }.

(** The updaters [p => Math.max(1, p - 1)] and
    [p => Math.min(totalPages, p + 1)], with the [disabled] attributes of
    their buttons. *)
Definition prevPage (p : Z) : Z := Z.max 1 (p - 1).
Definition nextPage (totalPages p : Z) : Z := Z.min totalPages (p + 1).
Definition prevDisabled (st : t) : bool := pageNum st <=? 1.
Definition nextDisabled (st : t) : bool := totalPages st <=? pageNum st.

Inductive Click : Type :=
  | Prev
  | Next
  | Thumbnail (index : nat).

(** A click reaches its handler unless the button is disabled; a
    thumbnail is there to be clicked only if [thumbnails] has that index. *)
Definition click (st : t) (c : Click) : t :=
  match c with
  | Prev =>
      if prevDisabled st then st
      else mk (prevPage (pageNum st)) (totalPages st) (thumbnails st)
  | Next =>
      if nextDisabled st then st
      else mk (nextPage (totalPages st) (pageNum st)) (totalPages st) (thumbnails st)
  | Thumbnail index =>
      match thumbnails st !! index with
      | Some _ => mk (Z.of_nat index + 1) (totalPages st) (thumbnails st)
      | None => st
      end
  end.

Definition clicks (l : list Click) (st : t) : t := fold_left click l st.

End Pager.

(** *** Snap targets: the form fields of the rendered page

    [renderPage] turns the annotations of the page into snap targets.
    [rect] is the value of [viewport.convertToViewportRectangle(annot.rect)],
    the corners [x1, y1, x2, y2] in pixels of the viewport. *)

Module Annotation.
Local Open Scope Q_scope.

Record t : Type := mk { subtype : string; rect : Q * Q * Q * Q }.

Record Viewport : Type := mkViewport { width : Q; height : Q }.

(** The callback of [.map]. *)
Definition toTarget (viewport : Viewport) (annot : t) : SnapTarget.t :=
  let '(x1, y1, x2, y2) := rect annot in
  let x := Qmin x1 x2 in
  let y := Qmin y1 y2 in
  let w := Qabs (x1 - x2) in
  let h := Qabs (y1 - y2) in
  {| SnapTarget.x := (x / width viewport) * 100;
     SnapTarget.y := (y / height viewport) * 100;
     SnapTarget.width := (w / width viewport) * 100;
     SnapTarget.height := (h / height viewport) * 100 |}.

(** [annotations.filter(a => a.subtype === 'Widget').map(...)] *)
Definition newTargets (viewport : Viewport) (annotations : list t)
    : list SnapTarget.t :=
  map (toTarget viewport)
      (List.filter (fun a => String.eqb (subtype a) "Widget") annotations).

(** The rectangle lies within the viewport. *)
Definition inside (viewport : Viewport) (annot : t) : Prop :=
  let '(x1, y1, x2, y2) := rect annot in
  (0 <= x1 <= width viewport /\ 0 <= x2 <= width viewport)
  /\ (0 <= y1 <= height viewport /\ 0 <= y2 <= height viewport).

End Annotation.

(** *** The dialogs and the document around the editor state

    The states of the component that the geometry model leaves out:
    the chosen file, the loaded document, the thumbnails, the busy flag,
    the two signature dialogs and the delete confirmation. *)

Module File.
(** [file.name] and [file.type]. *)
Record t : Type := mk { name : string; type : string }.
End File.

Module DeleteConfirm.
Record t : Type := mk { isOpen : bool; sigId : option string }.
Definition closed : t := {| isOpen := false; sigId := None |}.
End DeleteConfirm.

Module View.
Local Open Scope Z_scope.

Record t : Type := mk {
  app : App.t;
  file : option File.t;
  pdfDoc : option Z;               (* the loaded document, by [numPages] *)
  totalPages : Z;
  thumbnails : list string;
  isProcessing : bool;
  showSigPad : bool;
  showStylingModal : bool;
  deleteConfirm : DeleteConfirm.t
}.

Definition with_app (f : App.t -> App.t) (v : t) : t :=
  mk (f (app v)) (file v) (pdfDoc v) (totalPages v) (thumbnails v) (isProcessing v)
     (showSigPad v) (showStylingModal v) (deleteConfirm v).

Definition setShowSigPad (b : bool) (v : t) : t :=
  mk (app v) (file v) (pdfDoc v) (totalPages v) (thumbnails v) (isProcessing v)
     b (showStylingModal v) (deleteConfirm v).

Definition setShowStylingModal (b : bool) (v : t) : t :=
  mk (app v) (file v) (pdfDoc v) (totalPages v) (thumbnails v) (isProcessing v)
     (showSigPad v) b (deleteConfirm v).

Definition setDeleteConfirm (d : DeleteConfirm.t) (v : t) : t :=
  mk (app v) (file v) (pdfDoc v) (totalPages v) (thumbnails v) (isProcessing v)
     (showSigPad v) (showStylingModal v) d.

Definition setIsFreeDrawMode (b : bool) (st : App.t) : App.t :=
  App.mk (App.ed st) (App.signaturesRef st) (App.historyStartRef st)
    (App.selectedSigId st) (App.editingSigId st) b (App.aspectRatioLocked st)
    (App.resizeMode st) (App.rotateMode st) (App.snapTargets st) (App.snapLines st)
    (App.pageNum st) (App.canvasRect st).

Definition setPageNum (p : Z) (st : App.t) : App.t :=
  App.mk (App.ed st) (App.signaturesRef st) (App.historyStartRef st)
    (App.selectedSigId st) (App.editingSigId st) (App.isFreeDrawMode st)
    (App.aspectRatioLocked st) (App.resizeMode st) (App.rotateMode st)
    (App.snapTargets st) (App.snapLines st) p (App.canvasRect st).

(** [handleToggleFreeDraw]: entering the draw mode deselects. *)
Definition handleToggleFreeDraw (st : App.t) : App.t :=
  let st1 := setIsFreeDrawMode (negb (App.isFreeDrawMode st)) st in
  if negb (App.isFreeDrawMode st) then App.setSelectedSigId None st1 else st1.

(** [handleDoubleClick(e, id)] *)
Definition handleDoubleClick (i : string) (v : t) : t :=
  if App.isFreeDrawMode (app v) then v
  else setShowStylingModal true (with_app (App.setEditingSigId (Some i)) v).

Definition handleRedrawRequest (v : t) : t :=
  setShowSigPad true (setShowStylingModal false v).

Definition handleCancelSignature (v : t) : t :=
  with_app (App.setEditingSigId None)
    (setShowStylingModal false (setShowSigPad false v)).

(** [handleSaveSignature] and [handleSaveStyle] with the dialog flags
    they set besides the editor state. *)
Definition handleSaveSignature (dataUrl uuid : string) (aspectRatio : Q) (v : t) : t :=
  setShowSigPad false (with_app (Edit.handleSaveSignature dataUrl uuid aspectRatio) v).

Definition handleSaveStyle (dataUrl : string) (opacity : Q) (v : t) : t :=
  if negb (Edit.truthy (App.editingSigId (app v))) then v
  else setShowStylingModal false (with_app (Edit.handleSaveStyle dataUrl opacity) v).

(** [handleConfirmDelete] *)
Definition handleConfirmDelete (v : t) : t :=
  let v1 := if Edit.truthy (DeleteConfirm.sigId (deleteConfirm v))
            then match DeleteConfirm.sigId (deleteConfirm v) with
                 | Some i => with_app (Edit.deleteSignature i) v
                 | None => v
                 end
            else v in
  setDeleteConfirm DeleteConfirm.closed v1.

(** The editor states that [handleReset] and a successful load put back
    to their initial values: [setSignatures([])], [setDrawings({})],
    [setPageNum(1)] and [setHistory({ past: [], future: [] })]. *)
Definition cleared (st : App.t) : App.t :=
  setPageNum 1
    (App.with_ed {| History.signatures := []; History.drawings := ∅;
                    History.history := History.empty |} st).

Definition handleReset (v : t) : t :=
  mk (cleared (app v)) None None (totalPages v) [] (isProcessing v)
     (showSigPad v) (showStylingModal v) (deleteConfirm v).

(** [handleFileChange(e)]: [fileList] is [e.target.files] and [load]
    tells how [pdfjsLib.getDocument] ends for a file, with [numPages] of
    the document or with an exception. *)
Definition handleFileChange (fileList : option (list File.t))
    (load : File.t -> option Z) (v : t) : t :=
  match fileList with
  | None | Some [] => v
  | Some (selectedFile :: _) =>
      if negb (String.eqb (File.type selectedFile) "application/pdf") then v
      else
        match load selectedFile with
        | Some numPages =>
            mk (cleared (app v)) (Some selectedFile) (Some numPages) numPages []
               false (showSigPad v) (showStylingModal v) (deleteConfirm v)
        | None =>
            mk (app v) (Some selectedFile) (pdfDoc v) (totalPages v) []
               false (showSigPad v) (showStylingModal v) (deleteConfirm v)
        end
  end.

End View.

(** *** The keyboard shortcuts of undo and redo *)

Module Keyboard.

Record KeyboardEvent : Type := mkEvent { ctrlKey : bool; metaKey : bool; key : string }.

Definition handleKeyDown (e : KeyboardEvent) (st : App.t) : App.t :=
  if (ctrlKey e || metaKey e) && String.eqb (key e) "z" then App.undo st
  else if (ctrlKey e || metaKey e) && String.eqb (key e) "y" then App.redo st
  else st.

End Keyboard.

(** ** The free-draw overlay: [src/components/FreeDrawLayer.tsx] *)

Module FreeDrawLayer.
Local Open Scope Q_scope.

Record Props : Type := mkProps {
  width : Q;
  height : Q;
  scale : Q;
  strokes : list Stroke.t;
  isDrawingMode : bool;
  brushColor : string;
  brushWidth : Q
}.

(** [canvas.getBoundingClientRect()] *)
Record ClientRect : Type := mkRect { left : Q; top : Q; rectWidth : Q; rectHeight : Q }.

(** The two states of the component. *)
Record t : Type := mk { currentPoints : list StrokePoint.t; isDrawing : bool }.

Definition initial : t := {| currentPoints := []; isDrawing := false |}.

(** [getNormalizedPos(e)]; [canvas] is [canvasRef.current] by its
    rectangle, [None] while the canvas is not mounted. *)
Definition getNormalizedPos (canvas : option ClientRect) (clientX clientY : Q)
    : StrokePoint.t :=
  match canvas with
  | None => {| StrokePoint.x := 0; StrokePoint.y := 0 |}
  | Some rect =>
      {| StrokePoint.x := (clientX - left rect) / rectWidth rect;
         StrokePoint.y := (clientY - top rect) / rectHeight rect |}
  end.

Definition handleStart (p : Props) (canvas : option ClientRect) (clientX clientY : Q)
    (st : t) : t :=
  if negb (isDrawingMode p) then st
  else {| currentPoints := [getNormalizedPos canvas clientX clientY];
          isDrawing := true |}.

Definition handleMove (p : Props) (canvas : option ClientRect) (clientX clientY : Q)
    (st : t) : t :=
  if negb (isDrawingMode p) || negb (isDrawing st) then st
  else {| currentPoints := currentPoints st ++ [getNormalizedPos canvas clientX clientY];
          isDrawing := isDrawing st |}.

(** [handleEnd()]: the new state and the stroke given to [onAddStroke],
    if it is called. *)
Definition handleEnd (p : Props) (st : t) : t * option Stroke.t :=
  if negb (isDrawingMode p) || negb (isDrawing st) then (st, None)
  else
    ({| currentPoints := []; isDrawing := false |},
     if (1 <? length (currentPoints st))%nat
     then Some {| Stroke.points := currentPoints st;
                  Stroke.color := brushColor p;
                  Stroke.width := brushWidth p |}
     else None).

(** The pointer events that the canvas listens to. *)
Inductive Event : Type :=
  | Down (clientX clientY : Q)      (* mousedown, touchstart *)
  | Move (clientX clientY : Q)      (* mousemove, touchmove *)
  | Up.                             (* mouseup, mouseleave, touchend *)

(** One event: the new state and the call of [onAddStroke], if any. *)
Definition handle (p : Props) (canvas : option ClientRect) (st : t) (e : Event)
    : t * option Stroke.t :=
  match e with
  | Down clientX clientY => (handleStart p canvas clientX clientY st, None)
  | Move clientX clientY => (handleMove p canvas clientX clientY st, None)
  | Up => handleEnd p st
  end.

(** A series of events, with the strokes handed to [onAddStroke] in the
    order of the calls. *)
Fixpoint run (p : Props) (canvas : option ClientRect) (events : list Event) (st : t)
    : t * list Stroke.t :=
  match events with
  | [] => (st, [])
  | e :: rest =>
      let '(st1, added) := handle p canvas st e in
      let '(st2, more) := run p canvas rest st1 in
      (st2, match added with Some s => s :: more | None => more end)
  end.

(** One path of the render effect: [strokeStyle], [lineWidth], the point
    of [moveTo] and the points of the [lineTo] calls. *)
Record Path : Type := mkPath {
  strokeStyle : string;
  lineWidth : Q;
  moveTo : Q * Q;
  lineTo : list (Q * Q)
}.

Definition toCanvas (p : Props) (pt : StrokePoint.t) : Q * Q :=
  (StrokePoint.x pt * width p, StrokePoint.y pt * height p).

(** The body of [strokes.forEach]. *)
Definition drawStroke (p : Props) (stroke : Stroke.t) : option Path :=
  if (length (Stroke.points stroke) <? 2)%nat then None
  else match Stroke.points stroke with
       | first :: rest =>
           Some {| strokeStyle := Stroke.color stroke;
                   lineWidth := Stroke.width stroke * scale p;
                   moveTo := toCanvas p first;
                   lineTo := map (toCanvas p) rest |}
       | [] => None
       end.

(** Part 2 of the effect, the stroke in progress. *)
Definition drawCurrent (p : Props) (st : t) : option Path :=
  if (1 <? length (currentPoints st))%nat
  then match currentPoints st with
       | first :: rest =>
           Some {| strokeStyle := brushColor p;
                   lineWidth := brushWidth p * scale p;
                   moveTo := toCanvas p first;
                   lineTo := map (toCanvas p) rest |}
       | [] => None
       end
  else None.

(** The paths that the render effect strokes after clearing the canvas. *)
Definition render (p : Props) (st : t) : list Path :=
  omap (drawStroke p) (strokes p) ++ option_list (drawCurrent p st).

(** The props that [App] passes for the page it shows:
    [strokes={drawings[pageNum - 1] || []}] and
    [isDrawingMode={isFreeDrawMode}]. *)
Definition propsOf (w h s : Q) (color : string) (brush : Q) (st : App.t) : Props :=
  {| width := w; height := h; scale := s;
     strokes := default [] (App.drawings st !! (App.pageNum st - 1)%Z);
     isDrawingMode := App.isFreeDrawMode st;
     brushColor := color; brushWidth := brush |}.

(** [onAddStroke={handleAddStroke}] for the calls of a series of events. *)
Definition addStrokes (added : list Stroke.t) (st : App.t) : App.t :=
  fold_left (fun a s => Edit.handleAddStroke s a) added st.

End FreeDrawLayer.

(** ** The signature dialog: [src/components/SignaturePad.tsx] *)

Module SignaturePad.
Local Open Scope Q_scope.

(** The placement of the image that the pad loads for editing: the
    arguments [offsetX, offsetY, drawWidth, drawHeight] of [ctx.drawImage]
    for an image of [imgWidth] by [imgHeight] on a pad of [rectWidth] by
    [rectHeight]. *)
Record Placement : Type := mkPlacement {
  offsetX : Q;
  offsetY : Q;
  drawWidth : Q;
  drawHeight : Q
}.

Definition fitImage (rectWidth rectHeight imgWidth imgHeight : Q) : Placement :=
  let aspect := imgWidth / imgHeight in
  let canvasAspect := rectWidth / rectHeight in
  if Qltb canvasAspect aspect then
    {| drawWidth := rectWidth;
       drawHeight := rectWidth / aspect;
       offsetX := 0;
       offsetY := (rectHeight - rectWidth / aspect) / 2 |}
  else
    {| drawHeight := rectHeight;
       drawWidth := rectHeight * aspect;
       offsetX := (rectWidth - rectHeight * aspect) / 2;
       offsetY := 0 |}.

(** The font size of the typed signature.  [measureText fontSize] is
    [ctx.measureText(textInput).width] with the font set to that size. *)
Section TypeMode.
Variable measureText : Z -> Q.

(** The test of the [while] loop. *)
Definition tooWide (width : Q) (fontSize : Z) : bool :=
  Qltb (width - 40) (measureText fontSize) && (20 <? fontSize)%Z.

Fixpoint shrink (fuel : nat) (width : Q) (fontSize : Z) : Z :=
  match fuel with
  | O => fontSize
  | S fuel' =>
      if tooWide width fontSize then shrink fuel' width (fontSize - 5)%Z
      else fontSize
  end.

(** From 80 down to 20 in steps of 5 the loop runs at most 12 times. *)
Definition fontSizeFor (width : Q) : Z := shrink 12 width 80.

End TypeMode.

(** [removeBackground]: the loop over [imageData.data], the bytes
    [r, g, b, a] of the pixels one after the other.  A read past the end
    of the array gives [undefined], which is not greater than 240, and a
    write past the end is ignored. *)
Definition above240 (v : option Z) : bool :=
  match v with
  | Some n => (240 <? n)%Z
  | None => false
  end.

Definition nearWhite (data : list Z) (i : nat) : bool :=
  above240 (data !! i) && above240 (data !! (i + 1)%nat)
  && above240 (data !! (i + 2)%nat).

(** The body of the loop for the pixel that starts at index [i]. *)
Definition clearPixel (data : list Z) (i : nat) : list Z :=
  if nearWhite data i then <[ (i + 3)%nat := 0%Z ]> data else data.

(** [for (let i = 0; i < data.length; i += 4)], from index [i] on. *)
Fixpoint scan (fuel : nat) (i : nat) (data : list Z) : list Z :=
  match fuel with
  | O => data
  | S fuel' =>
      if (i <? length data)%nat then scan fuel' (i + 4) (clearPixel data i)
      else data
  end.

(** The array has [length data] bytes, so the loop runs less often than
    that (and not at all on an empty array). *)
Definition removeWhite (data : list Z) : list Z := scan (length data) 0 data.

End SignaturePad.

(** ** The one-step edits as commands

    The handlers of [Edit] under one type, to state what they have in
    common. *)

Module Edits.

Inductive Action : Type :=
  | SaveSignature (dataUrl uuid : string) (aspectRatio : Q)
  | SaveStyle (dataUrl : string) (opacity : Q)
  | AddStroke (stroke : Stroke.t)
  | ClearPage
  | Delete (i : string)
  | Duplicate (sigId uuid : string).

Definition apply (a : Action) (st : App.t) : App.t :=
  match a with
  | SaveSignature dataUrl uuid aspectRatio =>
      Edit.handleSaveSignature dataUrl uuid aspectRatio st
  | SaveStyle dataUrl opacity => Edit.handleSaveStyle dataUrl opacity st
  | AddStroke stroke => Edit.handleAddStroke stroke st
  | ClearPage => Edit.handleClearPage st
  | Delete i => Edit.deleteSignature i st
  | Duplicate sigId uuid => Edit.handleDuplicateSignature sigId uuid st
  end.

(** Whether the handler gets past its early [return]: [handleSaveStyle]
    needs an element that is being edited and
    [handleDuplicateSignature] an element with the given id. *)
Definition proceeds (a : Action) (st : App.t) : bool :=
  match a with
  | SaveStyle _ _ => Edit.truthy (App.editingSigId st)
  | Duplicate sigId _ =>
      match find (fun s => String.eqb (SignatureElement.id s) sigId) (App.signatures st) with
      | Some _ => true
      | None => false
      end
  | _ => true
  end.

End Edits.

(** ** What a gesture may change

    The vocabulary of the statements about drag, resize and rotate
    sessions: an element that differs from another at most in the fields
    that the gesture sets, and a list of elements in which only the
    elements with one id were touched. *)

Module Frame.

(** [s'] is [s] with some position. *)
Definition moved (s s' : SignatureElement.t) : Prop :=
  s' = {| SignatureElement.id := SignatureElement.id s;
          SignatureElement.dataUrl := SignatureElement.dataUrl s;
          SignatureElement.pageIndex := SignatureElement.pageIndex s;
          SignatureElement.x := SignatureElement.x s';
          SignatureElement.y := SignatureElement.y s';
          SignatureElement.width := SignatureElement.width s;
          SignatureElement.aspectRatio := SignatureElement.aspectRatio s;
          SignatureElement.rotation := SignatureElement.rotation s;
          SignatureElement.opacity := SignatureElement.opacity s |}.

(** [s'] is [s] with some position, width and aspect ratio. *)
Definition resized (s s' : SignatureElement.t) : Prop :=
  s' = {| SignatureElement.id := SignatureElement.id s;
          SignatureElement.dataUrl := SignatureElement.dataUrl s;
          SignatureElement.pageIndex := SignatureElement.pageIndex s;
          SignatureElement.x := SignatureElement.x s';
          SignatureElement.y := SignatureElement.y s';
          SignatureElement.width := SignatureElement.width s';
          SignatureElement.aspectRatio := SignatureElement.aspectRatio s';
          SignatureElement.rotation := SignatureElement.rotation s;
          SignatureElement.opacity := SignatureElement.opacity s |}.

(** [s'] is [s] with some rotation. *)
Definition turned (s s' : SignatureElement.t) : Prop :=
  s' = {| SignatureElement.id := SignatureElement.id s;
          SignatureElement.dataUrl := SignatureElement.dataUrl s;
          SignatureElement.pageIndex := SignatureElement.pageIndex s;
          SignatureElement.x := SignatureElement.x s;
          SignatureElement.y := SignatureElement.y s;
          SignatureElement.width := SignatureElement.width s;
          SignatureElement.aspectRatio := SignatureElement.aspectRatio s;
          SignatureElement.rotation := SignatureElement.rotation s';
          SignatureElement.opacity := SignatureElement.opacity s |}.

(** [after] has the elements of [before] one for one and in the same
    order; each is related by [change] to what it was, and the elements
    with another id than [i] are what they were. *)
Definition only (i : string)
    (change : SignatureElement.t -> SignatureElement.t -> Prop)
    (before after : Signatures) : Prop :=
  Forall2 (fun s s' => change s s' /\ (SignatureElement.id s <> i -> s' = s))
    before after.


End Frame.

(** ** Reading the requests of a download *)

Module Requests.

(** The lines requested on the page with index [i], in order. *)
Definition linesOn (i : nat) (reqs : list PdfExport.Request)
    : list PdfExport.LineOptions :=
  omap (fun r => match r with
                 | PdfExport.drawLine p o => if Nat.eqb p i then Some o else None
                 | PdfExport.drawImage _ _ _ => None
                 end) reqs.

Definition isLine (r : PdfExport.Request) : bool :=
  match r with
  | PdfExport.drawLine _ _ => true
  | PdfExport.drawImage _ _ _ => false
  end.

(** The request that draws the element [e]: on the page of its
    [pageIndex], which has the size [s], with its image and the options
    computed for that page. *)
Definition draws (pages : list PdfExport.PageSize) (e : SignatureElement.t)
    (r : PdfExport.Request) : Prop :=
  exists s,
    pages !! Z.to_nat (SignatureElement.pageIndex e) = Some s
    /\ r = PdfExport.drawImage (Z.to_nat (SignatureElement.pageIndex e))
             (SignatureElement.dataUrl e) (PdfExport.imageOptions s e).

(** The element names a page that the document does not have. *)
Definition offDocument (pages : list PdfExport.PageSize) (e : SignatureElement.t)
    : Prop :=
  (SignatureElement.pageIndex e < 0)%Z
  \/ (Z.of_nat (length pages) <= SignatureElement.pageIndex e)%Z.

End Requests.

(** ** Concrete inputs for the view controls and the components *)

Module Samples.
Local Open Scope Q_scope.

(** A viewport of 600 by 800 pixels with a link and a form widget whose
    rectangle names its lower right corner first. *)
Definition viewport : Annotation.Viewport :=
  {| Annotation.width := 600; Annotation.height := 800 |}.

Definition widget : Annotation.t :=
  {| Annotation.subtype := "Widget"; Annotation.rect := (300, 90, 120, 50) |}.

Definition annotations : list Annotation.t :=
  [ {| Annotation.subtype := "Link"; Annotation.rect := (0, 0, 10, 10) |}; widget ].

(** The page with the fresh signature selected and the delete dialog
    open for it. *)
Definition confirming : View.t :=
  {| View.app := App.setSelectedSigId (Some "a"%string) (Examples.page [Examples.fresh]);
     View.file := Some {| File.name := "form.pdf"; File.type := "application/pdf" |};
     View.pdfDoc := Some 1%Z;
     View.totalPages := 1;
     View.thumbnails := [];
     View.isProcessing := false;
     View.showSigPad := false;
     View.showStylingModal := false;
     View.deleteConfirm := {| DeleteConfirm.isOpen := true;
                              DeleteConfirm.sigId := Some "a"%string |} |}.

(** A document of one A4 page, and an element left on its fourth page. *)
Definition a4 : PdfExport.PageSize :=
  {| PdfExport.width := 595; PdfExport.height := 842 |}.

Definition stray : SignatureElement.t :=
  {| SignatureElement.id := "s"; SignatureElement.dataUrl := "data:image/png;base64,";
     SignatureElement.pageIndex := 3;
     SignatureElement.x := 40; SignatureElement.y := 40;
     SignatureElement.width := 20; SignatureElement.aspectRatio := 2;
     SignatureElement.rotation := 0; SignatureElement.opacity := 1 |}.

(** The overlay of a canvas of 600 by 800 pixels at the origin of the
    window, in drawing mode with the black brush of width 3. *)
Definition overlay : FreeDrawLayer.ClientRect :=
  {| FreeDrawLayer.left := 0; FreeDrawLayer.top := 0;
     FreeDrawLayer.rectWidth := 600; FreeDrawLayer.rectHeight := 800 |}.

Definition brush : FreeDrawLayer.Props :=
  {| FreeDrawLayer.width := 600; FreeDrawLayer.height := 800; FreeDrawLayer.scale := 1;
     FreeDrawLayer.strokes := []; FreeDrawLayer.isDrawingMode := true;
     FreeDrawLayer.brushColor := "#000000"; FreeDrawLayer.brushWidth := 3 |}.

End Samples.

(** * Properties *)

(** ** The history log *)

Module HistoryFacts.
Import History.
Section Log.
Context {S D : Type}.
Implicit Types (st : editor S D) (e : entry S D) (h : t S D).

Lemma entry_eta e : {| sigs := sigs e; draws := draws e |} = e.
Proof. by destruct e. Qed.

Lemma undo_empty st : past (history st) = [] -> undo st = st.
Proof. intros H. unfold undo. by rewrite H. Qed.

Lemma redo_empty st : future (history st) = [] -> redo st = st.
Proof. intros H. unfold redo. by rewrite H. Qed.

Lemma undo_snoc st p e :
  past (history st) = p ++ [e] ->
  undo st = {| signatures := sigs e; drawings := draws e;
               history := {| past := p; future := live st :: future (history st) |} |}.
Proof.
  intros H. unfold undo. rewrite H, last_snoc, removelast_last. reflexivity.
Qed.

Lemma redo_undo st : past (history st) <> [] -> redo (undo st) = st.
Proof.
  intros Hne.
  destruct (exists_last Hne) as (p & e & Hp).
  rewrite (undo_snoc st p e Hp). destruct st as [s d [ps fs]]; simpl in *.
  subst ps. unfold redo, live; simpl. by rewrite entry_eta.
Qed.

Lemma undo_redo st : future (history st) <> [] -> undo (redo st) = st.
Proof.
  intros Hne. destruct st as [s d [ps fs]]; simpl in *.
  destruct fs as [|next fs]; [done|].
  unfold redo; simpl. erewrite undo_snoc by reflexivity. simpl.
  unfold live; simpl. by rewrite entry_eta.
Qed.

Lemma past_cases st :
  past (history st) = [] \/ exists p e, past (history st) = p ++ [e].
Proof.
  destruct (past (history st)) as [|e0 p0] using rev_ind; [by left|].
  right. eauto.
Qed.

Lemma timeline_undo st : timeline (undo st) = timeline st.
Proof.
  destruct (past_cases st) as [Hp | (p & e & Hpe)].
  - by rewrite undo_empty.
  - rewrite (undo_snoc st p e Hpe). unfold timeline at 1; simpl.
    unfold live at 1; simpl. rewrite entry_eta.
    unfold timeline. rewrite Hpe, <- app_assoc. reflexivity.
Qed.

Lemma timeline_redo st : timeline (redo st) = timeline st.
Proof.
  unfold redo. destruct (future (history st)) as [|next fs] eqn:Hf; [done|].
  unfold timeline; simpl. unfold live at 2; simpl. rewrite entry_eta, Hf.
  rewrite <- app_assoc. reflexivity.
Qed.

Lemma past_undo_length st :
  length (past (history (undo st))) = pred (length (past (history st))).
Proof.
  destruct (past_cases st) as [Hp | (p & e & Hpe)].
  - rewrite undo_empty by done. by rewrite Hp.
  - rewrite (undo_snoc st p e Hpe), Hpe, length_app; simpl. lia.
Qed.

Lemma times_succ_r (f : editor S D -> editor S D) n st :
  times (Datatypes.S n) f st = times n f (f st).
Proof. unfold times. apply Nat.iter_succ_r. Qed.

Lemma past_times_undo_length k st :
  length (past (history (times k undo st))) = length (past (history st)) - k.
Proof.
  induction k as [|k IH]; simpl; [lia|].
  rewrite past_undo_length, IH. lia.
Qed.

Lemma timeline_times_undo k st : timeline (times k undo st) = timeline st.
Proof. induction k as [|k IH]; simpl; [done|]. by rewrite timeline_undo. Qed.

(** The live state is the entry of the line at the length of the past. *)
Lemma live_on_timeline st :
  timeline st !! length (past (history st)) = Some (live st).
Proof. unfold timeline. by rewrite list_lookup_middle. Qed.

Lemma live_times_undo k st :
  k <= length (past (history st)) ->
  (past (history st) ++ [live st]) !! (length (past (history st)) - k)
  = Some (live (times k undo st)).
Proof.
  intros Hk.
  pose proof (live_on_timeline (times k undo st)) as H.
  rewrite timeline_times_undo, past_times_undo_length in H.
  unfold timeline in H.
  rewrite <- H.
  change (live st :: future (history st)) with ([live st] ++ future (history st)).
  rewrite app_assoc. symmetry. apply lookup_app_l.
  rewrite length_app; simpl. lia.
Qed.

Lemma redo_times_undo j k st :
  j <= k -> k <= length (past (history st)) ->
  times j redo (times k undo st) = times (k - j) undo st.
Proof.
  revert k. induction j as [|j IH]; intros k Hj Hk.
  - by rewrite Nat.sub_0_r.
  - destruct k as [|k]; [lia|].
    rewrite times_succ_r. simpl times at 2.
    rewrite redo_undo.
    + rewrite IH by lia. reflexivity.
    + intros Hnil. apply (f_equal length) in Hnil.
      rewrite past_times_undo_length in Hnil. simpl in Hnil. lia.
Qed.

(** A recorded mutation puts the state before it on top of the past. *)
Lemma mutate_past after st :
  past (history (mutate after st)) = past (history st) ++ [live st].
Proof. reflexivity. Qed.

Lemma mutate_live after st : live (mutate after st) = after.
Proof. unfold mutate, live; simpl. apply entry_eta. Qed.

Lemma mutations_line afters st :
  past (history (mutations afters st)) ++ [live (mutations afters st)]
  = past (history st) ++ live st :: afters.
Proof.
  revert st. induction afters as [|a l IH]; intros st; [done|].
  change (mutations (a :: l) st) with (mutations l (mutate a st)).
  rewrite IH, mutate_past, mutate_live, <- app_assoc. reflexivity.
Qed.

Lemma mutations_past_length afters st :
  length (past (history (mutations afters st)))
  = length (past (history st)) + length afters.
Proof.
  pose proof (f_equal length (mutations_line afters st)) as H.
  rewrite !length_app in H. simpl in H. lia.
Qed.

Lemma record_clears e h : past (record e h) = past h ++ [e] /\ future (record e h) = [].
Proof. by split. Qed.

(** With an empty future, redo has nothing to bring back. *)
Lemma redo_after_record st e :
  history st = record e (history st) -> redo st = st.
Proof. intros H. apply redo_empty. by rewrite H. Qed.

(** C2.  Undo and redo walk back and forth over the recorded states.
    Undo does nothing on an empty past and redo nothing on an empty
    future.  With [k] undos, [k] at most the length of the past, the live
    state becomes the [k]-th last recorded entry, [j <= k] redos then lead
    to the state that [k - j] undos lead to, and [k] redos restore the
    state from which the undos started, history included.  In particular,
    after [N] recorded mutations, undoing [k <= N] of them shows the state
    before the [k]-th last mutation, and redoing as many restores the
    state after the last. *)
Theorem undo_redo_round_trip st :
  (past (history st) = [] -> undo st = st) /\
  (future (history st) = [] -> redo st = st) /\
  (forall k, k <= length (past (history st)) ->
     (past (history st) ++ [live st]) !! (length (past (history st)) - k)
       = Some (live (times k undo st))
     /\ (forall j, j <= k -> times j redo (times k undo st) = times (k - j) undo st)
     /\ times k redo (times k undo st) = st) /\
  (forall afters k, k <= length afters ->
     (live st :: afters) !! (length afters - k)
       = Some (live (times k undo (mutations afters st)))
     /\ times k redo (times k undo (mutations afters st)) = mutations afters st).
Proof.
  split; [apply undo_empty|]. split; [apply redo_empty|]. split.
  - intros k Hk. split; [by apply live_times_undo|]. split.
    + intros j Hj. by apply redo_times_undo.
    + rewrite redo_times_undo by lia. by rewrite Nat.sub_diag.
  - intros afters k Hk.
    pose proof (mutations_past_length afters st) as Hlen.
    split.
    + rewrite <- live_times_undo by lia.
      rewrite mutations_line, Hlen.
      rewrite lookup_app_r by lia. f_equal. lia.
    + rewrite redo_times_undo by lia. by rewrite Nat.sub_diag.
Qed.

End Log.

(** Three recorded states 1, 2, 3 with live state 4: two undos show state
    2, and two redos bring the log back. *)
Lemma undo_redo_round_trip_witness :
  let st := {| signatures := 4; drawings := 40;
               history := {| past := [mkEntry 1 10; mkEntry 2 20; mkEntry 3 30];
                             future := [] |} |} in
  2 <= length (past (history st))
  /\ live (times 2 undo st) = mkEntry 2 20
  /\ times 2 redo (times 2 undo st) = st
  /\ redo st = st.
Proof.
  intros st.
  destruct (undo_redo_round_trip st) as (_ & Hredo & Hk & _).
  assert (Hle : 2 <= length (past (history st))) by (simpl; lia).
  destruct (Hk 2 Hle) as (Hlive & _ & Hround).
  split; [exact Hle|]. split; [|split].
  - simpl in Hlive. by inversion Hlive.
  - exact Hround.
  - apply Hredo. reflexivity.
Defined.

End HistoryFacts.

(** ** Rational arithmetic helpers *)

Module QFacts.
Local Open Scope Q_scope.

(** Linear goals with absolute values: split on the sign of each. *)
Ltac qabs :=
  repeat match goal with
         | |- context [Qabs ?e] => pattern (Qabs e); apply Qabs_case; intro
         end;
  lra.

Lemma Qltb_lt a b : Qltb a b = true <-> a < b.
Proof.
  unfold Qltb. rewrite negb_true_iff.
  destruct (Qle_bool b a) eqn:E.
  - apply Qle_bool_iff in E. split; [discriminate | intros H; lra].
  - split; [intros _ | reflexivity].
    apply Qnot_le_lt. intros H. apply Qle_bool_iff in H. congruence.
Qed.

Lemma Qltb_ge a b : Qltb a b = false <-> b <= a.
Proof.
  destruct (Qltb a b) eqn:E.
  - apply Qltb_lt in E. split; [discriminate | intros H; lra].
  - split; [intros _ | reflexivity].
    apply Qnot_lt_le. intros H. apply Qltb_lt in H. congruence.
Qed.

(** [Math.min(Math.max(v, 0), hi)] stays in [[0, hi]] when [hi] is not
    negative. *)
Lemma clamp_bounds v hi : 0 <= hi -> 0 <= Qmin (Qmax v 0) hi <= hi.
Proof.
  intros H.
  destruct (Q.min_spec (Qmax v 0) hi) as [[? E] | [? E]];
  destruct (Q.max_spec v 0) as [[? E'] | [? E']];
  rewrite E; rewrite ?E'; rewrite ?E' in *; lra.
Qed.

(** With a negative upper bound the clamp returns that bound. *)
Lemma clamp_negative v hi : hi < 0 -> Qmin (Qmax v 0) hi == hi.
Proof.
  intros H.
  destruct (Q.min_spec (Qmax v 0) hi) as [[? E] | [? E]];
  destruct (Q.max_spec v 0) as [[? E'] | [? E']];
  rewrite E; rewrite ?E'; rewrite ?E' in *; lra.
Qed.

End QFacts.

(** ** Drag sessions *)

Module DragFacts.
Import QFacts.
Local Open Scope Q_scope.

Lemma place_id d r s : SignatureElement.id (Drag.place d r s) = SignatureElement.id s.
Proof. unfold Drag.place. by destruct (String.eqb _ _). Qed.

Lemma place_width d r s :
  SignatureElement.width (Drag.place d r s) = SignatureElement.width s.
Proof. unfold Drag.place. by destruct (String.eqb _ _). Qed.

Lemma place_aspectRatio d r s :
  SignatureElement.aspectRatio (Drag.place d r s) = SignatureElement.aspectRatio s.
Proof. unfold Drag.place. by destruct (String.eqb _ _). Qed.

(** The dragged element is put back on the page when it fits on it. *)
Lemma place_onPage d r s :
  SignatureElement.id s = Drag.id d ->
  1 <= SignatureElement.width s <= 100 ->
  Drag.hPct d <= 100 ->
  Geometry.onPage (Drag.hPct d) (Drag.place d r s).
Proof.
  intros Hid [Hw1 Hw2] Hh. unfold Drag.place.
  rewrite Hid, String.eqb_refl. unfold Geometry.onPage; simpl.
  pose proof (clamp_bounds (Drag.nextX r) (100 - SignatureElement.width s)).
  pose proof (clamp_bounds (Drag.nextY r) (100 - Drag.hPct d)).
  lra.
Qed.

Lemma moveHandler_signatures d cx cy st :
  App.signatures (Drag.moveHandler d cx cy st)
  = map (Drag.place d (Drag.snap d (App.signaturesRef st) cx cy)) (App.signatures st).
Proof. reflexivity. Qed.

Lemma commit_signatures st : App.signatures (Commit.commit st) = App.signatures st.
Proof.
  unfold Commit.commit. destruct (App.historyStartRef st); [|done].
  by destruct (Commit.hasChanged _ _).
Qed.

Lemma upHandler_signatures st : App.signatures (Drag.upHandler st) = App.signatures st.
Proof. unfold Drag.upHandler. by rewrite commit_signatures. Qed.

(** What a drag that starts has captured. *)
Lemma handleDragStart_Some cx cy i st st' d :
  Drag.handleDragStart cx cy i st = (st', Some d) ->
  App.signatures st' = App.signatures st
  /\ Drag.id d = i
  /\ find (fun s => String.eqb (SignatureElement.id s) i) (App.signatures st)
     = Some (Drag.sig d).
Proof.
  unfold Drag.handleDragStart.
  destruct (App.isFreeDrawMode st); [congruence|].
  destruct (_ || _); [congruence|].
  destruct (App.canvasRect st); [|congruence].
  destruct (find _ _) as [s|] eqn:Hf; [|congruence].
  intros [= <- <-]. by simpl.
Qed.

(** Among elements with distinct ids, the id determines the element. *)
Lemma unique_by_id (l : Signatures) s1 s2 :
  NoDup (map SignatureElement.id l) -> In s1 l -> In s2 l ->
  SignatureElement.id s1 = SignatureElement.id s2 -> s1 = s2.
Proof.
  induction l as [|a l IH]; simpl; [tauto|].
  intros Hnd [-> | H1] [-> | H2] Hid; trivial.
  - apply NoDup_cons in Hnd as [Hnotin _]. exfalso. apply Hnotin.
    rewrite Hid. apply list_elem_of_In. by apply in_map.
  - apply NoDup_cons in Hnd as [Hnotin _]. exfalso. apply Hnotin.
    rewrite <- Hid. apply list_elem_of_In. by apply in_map.
  - apply NoDup_cons in Hnd as [_ Hnd]. by apply IH.
Qed.

Lemma moveHandler_sameShape d cx cy st :
  Drag.sameShape d st -> Drag.sameShape d (Drag.moveHandler d cx cy st).
Proof.
  intros H s Hin Hid. rewrite moveHandler_signatures in Hin.
  apply in_map_iff in Hin as (s0 & <- & Hin0).
  rewrite place_id in Hid. rewrite place_width, place_aspectRatio. by apply H.
Qed.

Lemma moved_sameShape d moves st :
  Drag.sameShape d st -> Drag.sameShape d (Drag.moved d moves st).
Proof.
  unfold Drag.moved.
  revert st. induction moves as [|m l IH]; intros st H; simpl; [done|].
  apply IH. by apply moveHandler_sameShape.
Qed.

Lemma moved_onPage d moves st s :
  moves <> [] ->
  Drag.sameShape d st ->
  1 <= SignatureElement.width (Drag.sig d) <= 100 ->
  Drag.hPct d <= 100 ->
  In s (App.signatures (Drag.moved d moves st)) ->
  SignatureElement.id s = Drag.id d ->
  Geometry.onPage (Drag.hPct d) s.
Proof.
  intros Hne Hshape Hw Hh Hin Hid.
  destruct (exists_last Hne) as (l & m & ->).
  unfold Drag.moved in Hin. rewrite fold_left_app in Hin. simpl in Hin.
  rewrite moveHandler_signatures in Hin.
  apply in_map_iff in Hin as (s0 & <- & Hin0).
  rewrite place_id in Hid.
  apply place_onPage; trivial.
  destruct (moved_sameShape d l st Hshape s0 Hin0 Hid) as [-> _]. exact Hw.
Qed.

(** With distinct ids, the element found at pointer-down is the only one
    that the session moves. *)
Lemma start_sameShape cx cy i st st' d :
  Drag.handleDragStart cx cy i st = (st', Some d) ->
  NoDup (map SignatureElement.id (App.signatures st)) ->
  Drag.sameShape d st'.
Proof.
  intros Hstart Hnd. destruct (handleDragStart_Some _ _ _ _ _ _ Hstart) as (Hs & Hi & Hf).
  intros s Hin Hid. rewrite Hs in Hin.
  apply find_some in Hf as [Hin0 Heq]. apply String.eqb_eq in Heq.
  assert (s = Drag.sig d) as ->; [|done].
  apply (unique_by_id (App.signatures st)); trivial. congruence.
Qed.

Lemma session_onPage cx cy i moves st st' d s :
  Drag.handleDragStart cx cy i st = (st', Some d) ->
  moves <> [] ->
  NoDup (map SignatureElement.id (App.signatures st)) ->
  1 <= SignatureElement.width (Drag.sig d) <= 100 ->
  Drag.hPct d <= 100 ->
  In s (App.signatures (Drag.session cx cy i moves st)) ->
  SignatureElement.id s = i ->
  Geometry.onPage (Drag.hPct d) s
  /\ Geometry.heightPercent (Drag.canvasRect d) s = Drag.hPct d.
Proof.
  intros Hstart Hne Hnd Hw Hh Hin Hid.
  unfold Drag.session in Hin. rewrite Hstart, upHandler_signatures in Hin.
  pose proof (start_sameShape _ _ _ _ _ _ Hstart Hnd) as Hshape.
  destruct (handleDragStart_Some _ _ _ _ _ _ Hstart) as (_ & Hi & _).
  rewrite <- Hi in Hid. split.
  - by apply (moved_onPage d moves st').
  - destruct (moved_sameShape d moves st' Hshape s Hin Hid) as [Ew Ea].
    unfold Geometry.heightPercent, Drag.hPct. by rewrite Ew, Ea.
Qed.

End DragFacts.

(** ** Resize sessions *)

Module ResizeFacts.
Import QFacts.
Local Open Scope Q_scope.

(** The two guards at the end of [handleMove] hold whatever the branches
    computed. *)
Lemma guard_bounds b :
  0 <= Resize.newX (Resize.guard b) /\ 1 <= Resize.newWidth (Resize.guard b).
Proof.
  unfold Resize.guard; simpl. split.
  - destruct (Qltb (Resize.newX b) 0) eqn:E; [lra|]. by apply Qltb_ge in E.
  - destruct (Qltb (Resize.newWidth b) 1) eqn:E; [lra|]. by apply Qltb_ge in E.
Qed.

Lemma resized_bounds rect m locked s cx cy :
  0 <= Resize.newX (Resize.resized rect m locked s cx cy)
  /\ 1 <= Resize.newWidth (Resize.resized rect m locked s cx cy).
Proof. apply guard_bounds. Qed.

Lemma resize_place_id s b e :
  SignatureElement.id (Resize.place s b e) = SignatureElement.id e.
Proof. unfold Resize.place. by destruct (String.eqb _ _). Qed.

(** A session in progress on a mounted canvas. *)
Lemma handleMove_active cx cy st s rect :
  ResizeMode.isResizing (App.resizeMode st) = true ->
  ResizeMode.startSig (App.resizeMode st) = Some s ->
  App.canvasRect st = Some rect ->
  Resize.handleMove cx cy st
  = App.setSignatures
      (map (Resize.place s
              (Resize.resized rect (App.resizeMode st) (App.aspectRatioLocked st)
                 s cx cy))) st.
Proof. intros H1 H2 H3. unfold Resize.handleMove. by rewrite H1, H2, H3. Qed.

Lemma moved_active moves st s rect :
  ResizeMode.isResizing (App.resizeMode st) = true ->
  ResizeMode.startSig (App.resizeMode st) = Some s ->
  App.canvasRect st = Some rect ->
  ResizeMode.isResizing (App.resizeMode (Resize.moved moves st)) = true
  /\ ResizeMode.startSig (App.resizeMode (Resize.moved moves st)) = Some s
  /\ App.canvasRect (Resize.moved moves st) = Some rect.
Proof.
  unfold Resize.moved.
  revert st. induction moves as [|m l IH]; intros st H1 H2 H3; simpl; [done|].
  apply IH; rewrite (handleMove_active _ _ st s rect) by done; done.
Qed.

Lemma handleUp_signatures st :
  App.signatures (Resize.handleUp st) = App.signatures st.
Proof.
  unfold Resize.handleUp. destruct (negb _); [done|].
  destruct (ResizeMode.startSig _); [|done].
  destruct (App.canvasRect st); [|done].
  by rewrite DragFacts.commit_signatures.
Qed.

Lemma session_bounds cx cy e handle moves st rect s :
  App.canvasRect st = Some rect ->
  moves <> [] ->
  In s (App.signatures (Resize.session cx cy e handle moves st)) ->
  SignatureElement.id s = SignatureElement.id e ->
  0 <= SignatureElement.x s /\ 1 <= SignatureElement.width s.
Proof.
  intros Hrect Hne Hin Hid.
  unfold Resize.session in Hin. rewrite handleUp_signatures in Hin.
  destruct (exists_last Hne) as (l & m & ->).
  unfold Resize.moved in Hin. rewrite fold_left_app in Hin. simpl in Hin.
  fold (Resize.moved l (Resize.handleResizeStart cx cy e handle st)) in Hin.
  destruct (moved_active l (Resize.handleResizeStart cx cy e handle st) e rect)
    as (H1 & H2 & H3); trivial.
  rewrite (handleMove_active _ _ _ e rect H1 H2 H3) in Hin.
  apply in_map_iff in Hin as (s0 & <- & Hin0).
  rewrite resize_place_id in Hid. unfold Resize.place. apply String.eqb_eq in Hid.
  rewrite Hid. simpl. apply resized_bounds.
Qed.

End ResizeFacts.

(** ** The page invariant after a session *)

Module PageInvariant.
Local Open Scope Q_scope.

(** C1, the claim at three inputs.  A signature of an image ten times as
    high as wide is 150 percent of the page high: a drag that puts it down
    where it was clamps [y] to 100 - 150.  A resize by the east handle has
    no upper bound: 480 pixels to the right on a canvas of 600 make a
    signature at [x = 40], [y = 90] as wide as the page, so that it reaches
    beyond the right and the bottom edge.  A resize by the north handle
    with the aspect lock off follows the pointer above the top edge. *)
Lemma sessions_leave_the_page :
  (exists s, In s (App.signatures Examples.draggedTall)
             /\ SignatureElement.y s < 0)
  /\ (exists s, In s (App.signatures Examples.resizedLow)
                /\ 100 < SignatureElement.x s + SignatureElement.width s
                /\ 100 - Geometry.heightPercent Examples.canvas s
                   < SignatureElement.y s)
  /\ (exists s, In s (App.signatures Examples.resizedNorth)
                /\ SignatureElement.y s < 0).
Proof.
  split; [|split].
  - set (l := App.signatures Examples.draggedTall). vm_compute in l. subst l.
    eexists. split; [left; reflexivity|]. reflexivity.
  - set (l := App.signatures Examples.resizedLow). vm_compute in l. subst l.
    eexists. split; [left; reflexivity|]. split; reflexivity.
  - set (l := App.signatures Examples.resizedNorth). vm_compute in l. subst l.
    eexists. split; [left; reflexivity|]. reflexivity.
Qed.

(** C1, amended.  A drag session with at least one move event leaves the
    dragged element on the page, [x >= 0], [y >= 0], [x + width <= 100],
    [width >= 1] and [y <= 100 - heightPercent], when the element fits on
    it: its width is between 1 and 100 and its height at most 100 percent
    (ids being distinct).  A resize session with at least one move event on
    a mounted canvas leaves the resized element with [x >= 0] and
    [width >= 1]. *)
Theorem sessions_keep_the_element_in_bounds :
  (forall cx cy i moves st st' d s,
     Drag.handleDragStart cx cy i st = (st', Some d) ->
     moves <> [] ->
     NoDup (map SignatureElement.id (App.signatures st)) ->
     1 <= SignatureElement.width (Drag.sig d) <= 100 ->
     Drag.hPct d <= 100 ->
     In s (App.signatures (Drag.session cx cy i moves st)) ->
     SignatureElement.id s = i ->
     Geometry.onPage (Geometry.heightPercent (Drag.canvasRect d) s) s)
  /\
  (forall cx cy e handle moves st rect s,
     App.canvasRect st = Some rect ->
     moves <> [] ->
     In s (App.signatures (Resize.session cx cy e handle moves st)) ->
     SignatureElement.id s = SignatureElement.id e ->
     0 <= SignatureElement.x s /\ 1 <= SignatureElement.width s).
Proof.
  split.
  - intros cx cy i moves st st' d s Hstart Hne Hnd Hw Hh Hin Hid.
    destruct (DragFacts.session_onPage cx cy i moves st st' d s) as [Hon ->]; trivial.
  - intros cx cy e handle moves st rect s. apply ResizeFacts.session_bounds.
Qed.

(** The fresh signature, dragged and resized as in [Examples]. *)
Lemma sessions_keep_the_element_in_bounds_witness :
  Geometry.allOnPage Examples.canvas (App.signatures Examples.dragged)
  /\ Forall (fun s => 0 <= SignatureElement.x s /\ 1 <= SignatureElement.width s)
       (App.signatures Examples.resized).
Proof.
  destruct sessions_keep_the_element_in_bounds as [Hdrag Hresize].
  assert (Hone : forall l : Signatures,
            map SignatureElement.id l = ["a"%string] ->
            forall s, In s l -> SignatureElement.id s = "a"%string).
  { intros [|a [|? ?]] E s Hin; try discriminate E.
    injection E as E. destruct Hin as [<- | []]. exact E. }
  split; apply Forall_forall; intros s Hin; apply list_elem_of_In in Hin.
  - apply (Hdrag 300 400 "a"%string [(360, 480)] (Examples.page [Examples.fresh])
             (fst (Drag.handleDragStart 300 400 "a" (Examples.page [Examples.fresh])))
             (Examples.dragOf Examples.fresh) s).
    + reflexivity.
    + discriminate.
    + simpl. apply NoDup_singleton.
    + split; apply Qle_bool_imp_le; reflexivity.
    + apply Qle_bool_imp_le; reflexivity.
    + exact Hin.
    + apply (Hone (App.signatures Examples.dragged)); [reflexivity | exact Hin].
  - apply (Hresize 300 400 Examples.fresh "e"%string [(780, 400)]
             (Examples.page [Examples.fresh]) Examples.canvas s).
    + reflexivity.
    + discriminate.
    + exact Hin.
    + apply (Hone (App.signatures Examples.resized)); [reflexivity | exact Hin].
Defined.

End PageInvariant.

(** ** The snap engine *)

Module SnapFacts.
Import QFacts.
Local Open Scope Q_scope.

Lemma tryTarget_hit o pos offset acc target :
  Qabs (pos - target) < Drag.minDiff acc ->
  Drag.tryTarget o pos offset acc target
  = {| Drag.minDiff := Qabs (pos - target);
       Drag.next := target - offset;
       Drag.activeLines :=
         Drag.activeLines acc ++ [ {| SnapLine.orientation := o;
                                      SnapLine.position := target |} ];
       Drag.snapped := true |}.
Proof. intros H. unfold Drag.tryTarget. apply Qltb_lt in H. by rewrite H. Qed.

Lemma tryTarget_miss o pos offset acc target :
  Drag.minDiff acc <= Qabs (pos - target) ->
  Drag.tryTarget o pos offset acc target = acc.
Proof. intros H. unfold Drag.tryTarget. apply Qltb_ge in H. by rewrite H. Qed.

Lemma scan_cons o pos offset t l acc :
  fold_left (Drag.tryTarget o pos offset) (t :: l) acc
  = fold_left (Drag.tryTarget o pos offset) l (Drag.tryTarget o pos offset acc t).
Proof. reflexivity. Qed.

(** Scanning the candidates of one edge never raises the best distance,
    and ends with a distance that no candidate beats. *)
Lemma scan_minDiff o pos offset targets acc :
  let acc' := fold_left (Drag.tryTarget o pos offset) targets acc in
  Drag.minDiff acc' <= Drag.minDiff acc
  /\ forall t, In t targets -> Drag.minDiff acc' <= Qabs (pos - t).
Proof.
  revert acc. induction targets as [|t0 l IH]; intros acc; simpl.
  - split; [apply Qle_refl | tauto].
  - destruct (IH (Drag.tryTarget o pos offset acc t0)) as [Hle Hall].
    assert (Hstep : Drag.minDiff (Drag.tryTarget o pos offset acc t0) <= Drag.minDiff acc
                    /\ Drag.minDiff (Drag.tryTarget o pos offset acc t0) <= Qabs (pos - t0)).
    { unfold Drag.tryTarget. cbv zeta.
      destruct (Qltb _ _) eqn:E; cbn [Drag.minDiff].
      - apply Qltb_lt in E. split; [by apply Qlt_le_weak | apply Qle_refl].
      - apply Qltb_ge in E. split; [apply Qle_refl | exact E]. }
    destruct Hstep as [Hs1 Hs2].
    split; [by eapply Qle_trans|].
    intros t [<- | Hin]; [by eapply Qle_trans | by apply Hall].
Qed.

(** When a scan has snapped, the position is aligned with a candidate at
    exactly the best distance, and the last guide line is at it. *)
Lemma scan_aligned o pos offset targets acc :
  let acc' := fold_left (Drag.tryTarget o pos offset) targets acc in
  (forall t, In t targets -> Drag.minDiff acc <= Qabs (pos - t)) /\ acc' = acc
  \/ exists t, In t targets
       /\ Drag.minDiff acc' = Qabs (pos - t)
       /\ Drag.minDiff acc' < Drag.minDiff acc
       /\ Drag.next acc' = t - offset
       /\ Drag.snapped acc' = true
       /\ last (Drag.activeLines acc')
          = Some {| SnapLine.orientation := o; SnapLine.position := t |}.
Proof.
  revert acc. induction targets as [|t0 l IH]; intros acc; simpl.
  - left. split; [tauto | reflexivity].
  - destruct (Qltb (Qabs (pos - t0)) (Drag.minDiff acc)) eqn:E.
    + apply Qltb_lt in E. rewrite (tryTarget_hit o pos offset acc t0 E).
      right.
      match goal with |- context [fold_left _ l ?a] => destruct (IH a) as [[Hall ->] | H] end.
      * exists t0; simpl. rewrite last_snoc. tauto.
      * destruct H as (t & Hin & H1 & H2 & H3 & H4 & H5). simpl in H2.
        exists t. repeat split; trivial; [tauto | by eapply Qlt_trans].
    + apply Qltb_ge in E. rewrite (tryTarget_miss o pos offset acc t0 E).
      destruct (IH acc) as [[Hall ->] | H].
      * left. split; [|reflexivity]. intros t [<- | Hin]; [exact E | by apply Hall].
      * right. destruct H as (t & Hin & H). exists t. tauto.
Qed.

(** The position part of C8: an edge that is scanned from the threshold
    snaps exactly when a candidate lies strictly within it, and then it is
    aligned with a candidate at the smallest distance of all. *)
Lemma tryEdge_nearest o targets offset acc :
  let acc' := Drag.tryEdge o targets acc offset in
  let pos := Drag.next acc + offset in
  (forall t, In t targets -> Drag.minDiff acc <= Qabs (pos - t)) /\ acc' = acc
  \/ exists t, In t targets
       /\ Qabs (pos - t) < Drag.minDiff acc
       /\ (forall t', In t' targets -> Qabs (pos - t) <= Qabs (pos - t'))
       /\ Drag.next acc' + offset == t
       /\ Drag.snapped acc' = true
       /\ last (Drag.activeLines acc')
          = Some {| SnapLine.orientation := o; SnapLine.position := t |}.
Proof.
  intros acc' pos. subst acc'. unfold Drag.tryEdge. fold pos.
  destruct (scan_aligned o pos offset targets acc) as [H | (t & Hin & H1 & H2 & H3 & H4 & H5)];
    [by left | right].
  destruct (scan_minDiff o pos offset targets acc) as [_ Hall].
  exists t. repeat split; trivial.
  - rewrite <- H1. exact H2.
  - intros t' Hin'. rewrite <- H1. by apply Hall.
  - rewrite H3. ring.
Qed.

(** One snap per axis: the edges are tried in order, the edges before the
    first hit leave the locals alone, and the loop stops at the hit. *)
Lemma snapAxis_first_hit o targets edges acc :
  Drag.snapped acc = false ->
  (Drag.snapAxis o targets edges acc = acc
   /\ forall e t, In e edges -> In t targets ->
        Drag.minDiff acc <= Qabs (Drag.next acc + e - t))
  \/ exists pre e post,
       edges = pre ++ e :: post
       /\ (forall e0 t, In e0 pre -> In t targets ->
             Drag.minDiff acc <= Qabs (Drag.next acc + e0 - t))
       /\ Drag.snapAxis o targets edges acc = Drag.tryEdge o targets acc e
       /\ Drag.snapped (Drag.tryEdge o targets acc e) = true.
Proof.
  intros Hs. induction edges as [|e l IH]; simpl.
  - left. split; [reflexivity | intros ? ? []].
  - destruct (tryEdge_nearest o targets e acc)
      as [[Hall Heq] | (t & Hin & Hlt & Hmin & Hal & Hsn & Hlast)].
    + rewrite Heq, Hs.
      destruct IH as [[IH1 IH2] | (pre & e1 & post & -> & Hpre & IH1 & IH2)].
      * left. split; [exact IH1|]. intros e0 t [<- | Hin] Ht; [by apply Hall | by apply IH2].
      * right. exists (e :: pre), e1, post. split; [reflexivity|]. split; [|by split].
        intros e0 t [<- | Hin] Ht; [by apply Hall | by apply Hpre].
    + rewrite Hsn. right. exists [], e, l. split; [reflexivity|].
      split; [intros ? ? []|]. by split.
Qed.

(** The position part of C8 for a whole axis: either no edge has a
    candidate strictly within the threshold and nothing changes, or the
    first edge that has one is aligned with its nearest candidate, the
    edges before it having none, and the last guide line is at that
    candidate. *)
Lemma snapAxis_nearest o targets edges acc :
  Drag.snapped acc = false ->
  (Drag.snapAxis o targets edges acc = acc
   /\ forall e t, In e edges -> In t targets ->
        Drag.minDiff acc <= Qabs (Drag.next acc + e - t))
  \/ exists pre e post t,
       edges = pre ++ e :: post
       /\ (forall e0 t0, In e0 pre -> In t0 targets ->
             Drag.minDiff acc <= Qabs (Drag.next acc + e0 - t0))
       /\ In t targets
       /\ Qabs (Drag.next acc + e - t) < Drag.minDiff acc
       /\ (forall t', In t' targets ->
             Qabs (Drag.next acc + e - t) <= Qabs (Drag.next acc + e - t'))
       /\ Drag.next (Drag.snapAxis o targets edges acc) + e == t
       /\ last (Drag.activeLines (Drag.snapAxis o targets edges acc))
          = Some {| SnapLine.orientation := o; SnapLine.position := t |}.
Proof.
  intros Hs.
  destruct (snapAxis_first_hit o targets edges acc Hs)
    as [H | (pre & e & post & He & Hpre & Heq & Hsn)]; [by left | right].
  destruct (tryEdge_nearest o targets e acc)
    as [[_ Hsame] | (t & Hin & Hlt & Hmin & Hal & _ & Hlast)].
  - rewrite Hsame in Hsn. congruence.
  - exists pre, e, post, t. rewrite Heq. by repeat split.
Qed.

(** A scan over candidates that do not beat the best distance changes
    nothing. *)
Lemma scan_keeps o pos offset targets acc :
  Forall (fun t => Drag.minDiff acc <= Qabs (pos - t)) targets ->
  fold_left (Drag.tryTarget o pos offset) targets acc = acc.
Proof.
  induction 1 as [|t l Ht _ IH]; [reflexivity|].
  by rewrite scan_cons, tryTarget_miss.
Qed.

Lemma vSnapPoints_page d current :
  exists rest, Drag.vSnapPoints d current = 0 :: 50 :: 100 :: rest.
Proof. unfold Drag.vSnapPoints. eexists. reflexivity. Qed.

Lemma vSnapPoints_sibling d current s :
  In s (List.filter (Drag.isSibling d) current) ->
  In (SignatureElement.x s) (Drag.vSnapPoints d current)
  /\ In (SignatureElement.x s + SignatureElement.width s / 2) (Drag.vSnapPoints d current)
  /\ In (SignatureElement.x s + SignatureElement.width s) (Drag.vSnapPoints d current).
Proof.
  intros H. unfold Drag.vSnapPoints.
  repeat split; apply in_or_app; right; apply in_or_app; left;
    apply in_flat_map; exists s; (split; [exact H | simpl; tauto]).
Qed.

(** C3.  The vertical candidates are 0, 50, 100 and then the left edge,
    centre and right edge of every sibling on the page and of every snap
    target.  A moving element of width 20 is proposed with its right edge
    at 70.3, next to a sibling at [x = 50] of width 20, whose edges 50, 60
    and 70 are among the candidates.  Provided that no candidate lies
    nearer to the proposed left edge 50.3 than 50 does, the snapped
    position, and with it the final [x] of the element, is 50. *)
Theorem snap_beside_sibling d (sibling s : SignatureElement.t) current currentX currentY :
  SignatureElement.width (Drag.sig d) = 20 ->
  In sibling (List.filter (Drag.isSibling d) current) ->
  SignatureElement.x sibling = 50 ->
  SignatureElement.width sibling = 20 ->
  Drag.proposedX d currentX + 20 == 70.3 ->
  Forall (fun t => 0.3 <= Qabs (50.3 - t)) (Drag.vSnapPoints d current) ->
  SignatureElement.id s = Drag.id d ->
  SignatureElement.width s = 20 ->
  (In 50 (Drag.vSnapPoints d current)
   /\ In (50 + 20 / 2) (Drag.vSnapPoints d current)
   /\ In (50 + 20) (Drag.vSnapPoints d current))
  /\ Drag.nextX (Drag.snap d current currentX currentY) == 50
  /\ SignatureElement.x (Drag.place d (Drag.snap d current currentX currentY) s) == 50.
Proof.
  intros Hw Hsib Hx Hsw Hp Hfar Hid Hs.
  assert (Hp' : Drag.proposedX d currentX == 50.3) by lra.
  assert (Hnext : Drag.nextX (Drag.snap d current currentX currentY) == 50).
  { unfold Drag.snap. cbn [Drag.nextX]. rewrite Hw.
    destruct (vSnapPoints_page d current) as [rest Hv]. rewrite Hv in *.
    set (p := Drag.proposedX d currentX) in *.
    assert (Hedge :
      Drag.tryEdge vertical (0 :: 50 :: 100 :: rest)
        {| Drag.minDiff := Drag.SNAP_THRESHOLD; Drag.next := p;
           Drag.activeLines := []; Drag.snapped := false |} 0
      = {| Drag.minDiff := Qabs (p + 0 - 50); Drag.next := 50 - 0;
           Drag.activeLines := [ {| SnapLine.orientation := vertical;
                                    SnapLine.position := 50 |} ];
           Drag.snapped := true |}).
    { unfold Drag.tryEdge. cbn [Drag.next]. unfold Drag.SNAP_THRESHOLD.
      rewrite scan_cons, tryTarget_miss by (cbn [Drag.minDiff]; qabs).
      rewrite scan_cons, tryTarget_hit by (cbn [Drag.minDiff]; qabs).
      apply scan_keeps. cbn [Drag.minDiff].
      apply Forall_inv_tail, Forall_inv_tail in Hfar.
      eapply Forall_impl; [exact Hfar|].
      intros t. cbv beta. qabs. }
    cbn [Drag.snapAxis]. rewrite !Hedge. cbn [Drag.snapped Drag.next]. lra. }
  split.
  { destruct (vSnapPoints_sibling d current sibling Hsib) as (H1 & H2 & H3).
    rewrite Hx in H1. rewrite Hx, Hsw in H2, H3. by repeat split. }
  split; [exact Hnext|].
  unfold Drag.place. rewrite Hid, String.eqb_refl. cbn [SignatureElement.x].
  rewrite Hs.
  set (n := Drag.nextX _) in *.
  destruct (Q.min_spec (Qmax n 0) (100 - 20)) as [[? E] | [? E]];
  destruct (Q.max_spec n 0) as [[? E'] | [? E']]; lra.
Qed.

(** The fresh signature beside a sibling at [x = 50], moved 103 pixels to
    the right on a canvas 1000 pixels wide: its right edge is proposed at
    70.3. *)
Lemma snap_beside_sibling_witness :
  Drag.proposedX (Examples.dragOnForm []) 403 + 20 == 70.3
  /\ SignatureElement.x
       (Drag.place (Examples.dragOnForm [])
          (Drag.snap (Examples.dragOnForm [])
             [Examples.fresh; Examples.sibling 50] 403 400)
          Examples.fresh) == 50.
Proof.
  split; [reflexivity|].
  apply (snap_beside_sibling (Examples.dragOnForm []) (Examples.sibling 50)
           Examples.fresh [Examples.fresh; Examples.sibling 50] 403 400);
    try reflexivity.
  - by left.
  - repeat constructor; apply Qle_bool_imp_le; reflexivity.
Defined.

(** C8, at an input where the code and the claim part.  The page has a
    form field whose left edge is at 50.2, and the fresh signature is
    dragged 103 pixels to the right on a canvas 1000 pixels wide, which
    proposes its left edge at 50.3.  The scan of that edge meets the page
    centre 50 first, at distance 0.3, and then the field, at distance 0.1:
    the element is aligned with the field, at 50.2, and the scan has
    emitted two vertical guide lines, the first of them at the centre that
    the element is not aligned with. *)
Theorem two_guide_lines_for_one_edge :
  Drag.handleDragStart 300 400 "a" (Examples.form [Examples.fresh] [Examples.field])
  = (Examples.nearField, Some (Examples.dragOnForm [Examples.field]))
  /\ Drag.proposedX (Examples.dragOnForm [Examples.field]) 403 == 50.3
  /\ App.snapLines
       (Drag.moveHandler (Examples.dragOnForm [Examples.field]) 403 400
          Examples.nearField)
     = [ {| SnapLine.orientation := vertical; SnapLine.position := 50 |};
         {| SnapLine.orientation := vertical; SnapLine.position := 50.2 |} ]
  /\ map (fun s => (SignatureElement.id s, Qred (SignatureElement.x s)))
       (App.signatures
          (Drag.moveHandler (Examples.dragOnForm [Examples.field]) 403 400
             Examples.nearField))
     = [("a"%string, Qred 50.2)].
Proof. repeat split; vm_compute; reflexivity. Qed.

End SnapFacts.

(** ** Recording in the history *)

Module CommitFacts.

Lemma record_recorded {S D : Type} (e : History.entry S D) (h : History.t S D) :
  History.recorded e h (History.record e h).
Proof. by split. Qed.

Lemma commit_unchanged st startState :
  App.historyStartRef st = Some startState ->
  JSON.stringify (History.sigs startState) = JSON.stringify (App.signaturesRef st) ->
  Commit.commit st = st.
Proof.
  intros Hs He. unfold Commit.commit, Commit.hasChanged.
  by rewrite Hs, He, String.eqb_refl.
Qed.

Lemma commit_changed st startState :
  App.historyStartRef st = Some startState ->
  JSON.stringify (History.sigs startState) <> JSON.stringify (App.signaturesRef st) ->
  App.history (Commit.commit st) = History.record startState (App.history st).
Proof.
  intros Hs He. unfold Commit.commit, Commit.hasChanged. rewrite Hs.
  apply String.eqb_neq in He. rewrite He. simpl. by destruct startState.
Qed.

Lemma commit_no_start st : App.historyStartRef st = None -> Commit.commit st = st.
Proof. intros H. unfold Commit.commit. by rewrite H. Qed.

(** The history after each of the three pointer-up handlers is the history
    after the commit block. *)
Lemma upHandler_history st :
  App.history (Drag.upHandler st) = App.history (Commit.commit st).
Proof.
  unfold Drag.upHandler, Commit.commit, Commit.hasChanged; simpl.
  destruct (App.historyStartRef st); [|done]. by destruct (negb _).
Qed.

Lemma handleUp_history st :
  App.history (Resize.handleUp st) = App.history (Commit.commit st)
  \/ Resize.handleUp st = st.
Proof.
  unfold Resize.handleUp. destruct (negb _); [by right|].
  destruct (ResizeMode.startSig _); [|by right].
  destruct (App.canvasRect st); [|by right]. left.
  unfold Commit.commit, Commit.hasChanged; simpl.
  destruct (App.historyStartRef st); [|done]. by destruct (negb _).
Qed.

Lemma handleUp_history_active st s rect :
  ResizeMode.isResizing (App.resizeMode st) = true ->
  ResizeMode.startSig (App.resizeMode st) = Some s ->
  App.canvasRect st = Some rect ->
  App.history (Resize.handleUp st) = App.history (Commit.commit st).
Proof.
  intros H1 H2 H3. unfold Resize.handleUp. rewrite H1, H2, H3; simpl.
  unfold Commit.commit, Commit.hasChanged; simpl.
  destruct (App.historyStartRef st); [|done]. by destruct (negb _).
Qed.

Lemma handleRotateUp_history st :
  App.history (Rotate.handleRotateUp st) = App.history (Commit.commit st)
  \/ Rotate.handleRotateUp st = st.
Proof.
  unfold Rotate.handleRotateUp. destruct (negb _); [by right|].
  destruct (RotateMode.center _); [|by right]. left.
  unfold Commit.commit, Commit.hasChanged; simpl.
  destruct (App.historyStartRef st); [|done]. by destruct (negb _).
Qed.

Lemma handleRotateUp_history_active st c :
  RotateMode.isRotating (App.rotateMode st) = true ->
  RotateMode.center (App.rotateMode st) = Some c ->
  App.history (Rotate.handleRotateUp st) = App.history (Commit.commit st).
Proof.
  intros H1 H2. unfold Rotate.handleRotateUp. rewrite H1, H2; simpl.
  unfold Commit.commit, Commit.hasChanged; simpl.
  destruct (App.historyStartRef st); [|done]. by destruct (negb _).
Qed.

(** C6.  At pointer-up the three sessions compare the serialized
    signatures of the snapshot taken at pointer-down with the serialized
    current signatures, and that comparison alone decides whether the
    start snapshot is recorded.  When the two texts are equal, the history
    is left as it is: no entry is pushed, whether the gesture was a drag, a
    resize or a rotation. *)
Theorem unchanged_session_records_nothing st startState :
  App.historyStartRef st = Some startState ->
  (JSON.stringify (History.sigs startState) = JSON.stringify (App.signaturesRef st) ->
   App.history (Drag.upHandler st) = App.history st
   /\ App.history (Resize.handleUp st) = App.history st
   /\ App.history (Rotate.handleRotateUp st) = App.history st)
  /\ App.history (Commit.commit st)
     = (if String.eqb (JSON.stringify (History.sigs startState))
                      (JSON.stringify (App.signaturesRef st))
        then App.history st
        else History.record startState (App.history st)).
Proof.
  intros Hs. split.
  - intros He. pose proof (commit_unchanged st startState Hs He) as Hc.
    split; [|split].
    + by rewrite upHandler_history, Hc.
    + destruct (handleUp_history st) as [-> | ->]; by rewrite ?Hc.
    + destruct (handleRotateUp_history st) as [-> | ->]; by rewrite ?Hc.
  - destruct (String.eqb _ _) eqn:E.
    + apply String.eqb_eq in E. by rewrite (commit_unchanged st startState Hs E).
    + apply String.eqb_neq in E. by apply commit_changed.
Qed.

(** The drag of [Examples.heldBack] has come back to where it started. *)
Lemma unchanged_session_records_nothing_witness :
  App.history (Drag.upHandler Examples.heldBack) = App.history Examples.heldBack.
Proof.
  destruct (unchanged_session_records_nothing Examples.heldBack
              {| History.sigs := [Examples.fresh]; History.draws := ∅ |})
    as [Hsame _].
  - vm_compute; reflexivity.
  - apply Hsame. vm_compute; reflexivity.
Defined.

Lemma saveToHistory_recorded st :
  App.history (App.saveToHistory st)
  = History.record (History.live (App.ed st)) (App.history st).
Proof. reflexivity. Qed.

(** C7.  Every place that records a snapshot does it with the same
    update: the snapshot goes on top of the past and the future becomes
    empty.  This holds for [saveToHistory] and so for each one-step
    mutation that calls it (add or redraw a signature, restyle, add a
    stroke, clear the page, delete, duplicate), and for the pointer-up of a
    drag, resize or rotate session whose serialized signatures differ from
    the snapshot of its start.  After any of them redo leaves signatures,
    drawings and history as they are, whatever an earlier undo had left in
    the future. *)
Theorem every_recording_appends_and_clears_future st :
  let before := History.live (App.ed st) in
  let rec := fun e st' => History.recorded e (App.history st) (App.history st') in
  rec before (App.saveToHistory st)
  /\ (forall dataUrl uuid ar, rec before (Edit.handleSaveSignature dataUrl uuid ar st))
  /\ (forall dataUrl opacity,
        Edit.truthy (App.editingSigId st) = true ->
        rec before (Edit.handleSaveStyle dataUrl opacity st))
  /\ (forall stroke, rec before (Edit.handleAddStroke stroke st))
  /\ rec before (Edit.handleClearPage st)
  /\ (forall i, rec before (Edit.deleteSignature i st))
  /\ (forall sigId uuid,
        is_Some (find (fun s => String.eqb (SignatureElement.id s) sigId)
                   (App.signatures st)) ->
        rec before (Edit.handleDuplicateSignature sigId uuid st))
  /\ (forall startState,
        App.historyStartRef st = Some startState ->
        JSON.stringify (History.sigs startState)
          <> JSON.stringify (App.signaturesRef st) ->
        rec startState (Drag.upHandler st)
        /\ (forall s rect,
              ResizeMode.isResizing (App.resizeMode st) = true ->
              ResizeMode.startSig (App.resizeMode st) = Some s ->
              App.canvasRect st = Some rect ->
              rec startState (Resize.handleUp st))
        /\ (forall c,
              RotateMode.isRotating (App.rotateMode st) = true ->
              RotateMode.center (App.rotateMode st) = Some c ->
              rec startState (Rotate.handleRotateUp st)))
  /\ (forall e st', rec e st' -> App.ed (App.redo st') = App.ed st').
Proof.
  intros before rec. subst rec. cbv beta.
  split; [apply record_recorded|].
  split.
  { intros dataUrl uuid ar. unfold Edit.handleSaveSignature.
    destruct (Edit.truthy _); apply record_recorded. }
  split.
  { intros dataUrl opacity Ht. unfold Edit.handleSaveStyle. rewrite Ht.
    apply record_recorded. }
  split; [intros stroke; apply record_recorded|].
  split; [apply record_recorded|].
  split.
  { intros i. unfold Edit.deleteSignature.
    destruct (App.selectedSigId st) as [j|]; [|apply record_recorded].
    destruct (String.eqb j i); apply record_recorded. }
  split.
  { intros sigId uuid [s Hs]. unfold Edit.handleDuplicateSignature. rewrite Hs.
    apply record_recorded. }
  split.
  { intros startState Hs Hne.
    pose proof (commit_changed st startState Hs Hne) as Hc.
    split; [|split].
    - rewrite upHandler_history, Hc. apply record_recorded.
    - intros s rect H1 H2 H3.
      rewrite (handleUp_history_active st s rect H1 H2 H3), Hc. apply record_recorded.
    - intros c H1 H2.
      rewrite (handleRotateUp_history_active st c H1 H2), Hc. apply record_recorded. }
  intros e st' [_ Hf]. unfold App.redo.
  by rewrite (HistoryFacts.redo_empty (App.ed st')) by exact Hf.
Qed.

(** A drag that ends away from its start, in an editor where an undo has
    left one state to redo: the pointer-up records the start and empties
    the future. *)
Lemma every_recording_appends_and_clears_future_witness :
  History.future (App.history Examples.heldAway) <> []
  /\ History.recorded
       {| History.sigs := [Examples.fresh]; History.draws := ∅ |}
       (App.history Examples.heldAway)
       (App.history (Drag.upHandler Examples.heldAway))
  /\ App.ed (App.redo (Drag.upHandler Examples.heldAway))
     = App.ed (Drag.upHandler Examples.heldAway).
Proof.
  destruct (every_recording_appends_and_clears_future Examples.heldAway)
    as (_ & _ & _ & _ & _ & _ & _ & Hup & Hredo).
  destruct (Hup {| History.sigs := [Examples.fresh]; History.draws := ∅ |})
    as (Hrec & _).
  - vm_compute; reflexivity.
  - vm_compute. discriminate.
  - split; [vm_compute; discriminate|]. split; [exact Hrec|].
    exact (Hredo _ _ Hrec).
Defined.

End CommitFacts.

(** ** The colour helper *)

Module ColorFacts.
Import Color.




















End ColorFacts.

(** ** The two export paths *)

Module ExportFacts.
Local Open Scope R_scope.

Lemma Q2R_half : Q2R 0.5 = 0.5.
Proof. unfold Q2R; simpl. lra. Qed.

Lemma Q2R_zero : Q2R 0 = 0.
Proof. unfold Q2R; simpl. lra. Qed.

(** The lines of a stroke join consecutive points. *)
Lemma segments_lookup size stroke pts j o :
  PdfExport.segments size stroke pts !! j = Some o ->
  exists p1 p2,
    pts !! j = Some p1 /\ pts !! S j = Some p2
    /\ o = {| PdfExport.lineStart := PdfExport.toPage size p1;
              PdfExport.lineEnd := PdfExport.toPage size p2;
              PdfExport.thickness := Q2R (Stroke.width stroke);
              PdfExport.color := Color.hexToRgb (Stroke.color stroke);
              PdfExport.lineOpacity := 1 |}.
Proof.
  revert j. induction pts as [|p1 rest IH]; intros j; [done|].
  destruct rest as [|p2 rest]; [done|].
  destruct j as [|j].
  - intros [= <-]. by exists p1, p2.
  - intros H. apply IH in H. exact H.
Qed.

Lemma segments_length size stroke pts :
  length (PdfExport.segments size stroke pts) = pred (length pts).
Proof.
  induction pts as [|p1 [|p2 rest] IH]; [done | done |].
  change (PdfExport.segments size stroke (p1 :: p2 :: rest))
    with (PdfExport.mkLine (PdfExport.toPage size p1) (PdfExport.toPage size p2)
            (Q2R (Stroke.width stroke)) (Color.hexToRgb (Stroke.color stroke)) 1
          :: PdfExport.segments size stroke (p2 :: rest)).
  simpl length in *. by rewrite IH.
Qed.


(** Every line that part 1 requests belongs to a stroke of the page it is
    drawn on. *)
Lemma burnDrawings_lines drawings k pages i o :
  In (PdfExport.drawLine i o) (PdfExport.burnDrawings drawings k pages) ->
  exists size strokes stroke,
    (k <= i)%nat /\ pages !! (i - k)%nat = Some size
    /\ drawings !! Z.of_nat i = Some strokes
    /\ In stroke strokes /\ In o (PdfExport.burnStroke size stroke).
Proof.
  revert k. induction pages as [|s rest IH]; intros k; simpl; [tauto|].
  intros H. apply in_app_or in H as [H | H].
  - destruct (drawings !! Z.of_nat k) as [strokes|] eqn:E; [|destruct H].
    apply in_map_iff in H as (o' & [= <- <-] & Hin).
    apply in_flat_map in Hin as (stroke & Hs & Ho).
    exists s, strokes, stroke. rewrite Nat.sub_diag. by repeat split.
  - destruct (IH _ H) as (size & strokes & stroke & Hk & Hp & Hd & Hs & Ho).
    exists size, strokes, stroke. repeat split; trivial; [lia|].
    replace (i - k)%nat with (S (i - S k)) by lia. exact Hp.
Qed.




Lemma imageOptions_rotated size e :
  ~ (SignatureElement.rotation e == 0)%Q ->
  PdfExport.imageOptions size e
  = let drawOptions := PdfExport.baseOptions size e in
    let rads := (Q2R (SignatureElement.rotation e) * -1) * (PI / 180) in
    let centerX := PdfExport.x drawOptions + PdfExport.imgWidth drawOptions / 2 in
    let centerY := PdfExport.y drawOptions + PdfExport.imgHeight drawOptions / 2 in
    let rotX := (PdfExport.imgWidth drawOptions / 2) * cos rads
                - (PdfExport.imgHeight drawOptions / 2) * sin rads in
    let rotY := (PdfExport.imgWidth drawOptions / 2) * sin rads
                + (PdfExport.imgHeight drawOptions / 2) * cos rads in
    {| PdfExport.x := centerX - rotX; PdfExport.y := centerY - rotY;
       PdfExport.imgWidth := PdfExport.imgWidth drawOptions;
       PdfExport.imgHeight := PdfExport.imgHeight drawOptions;
       PdfExport.opacity := PdfExport.opacity drawOptions;
       PdfExport.rotate :=
         Some (PdfExport.degrees (Q2R (SignatureElement.rotation e) * -1)) |}.
Proof.
  intros Hr. unfold PdfExport.imageOptions.
  destruct (Qeq_bool (SignatureElement.rotation e) 0) eqn:E; [|reflexivity].
  apply Qeq_bool_iff in E. contradiction.
Qed.

(** The angle that reaches pdf-lib, in radians, is the opposite of the
    angle that reaches the canvas. *)
Lemma opposite_angles r :
  PdfExport.toRadians (r * -1) = - ((r * PI) / 180)
  /\ (r * -1) * (PI / 180) = - ((r * PI) / 180).
Proof. unfold PdfExport.toRadians. split; lra. Qed.

(** C4.  For an element with rotation [r] other than 0, raster export
    rotates the canvas by [r] degrees, in radians, between a translation to
    the centre of the element and the translation back, so the centre
    stays where it is.  Document export hands pdf-lib the rotation [-r]
    degrees and a corner recomputed so that the centre of the rotated image
    is the centre of the unrotated box.  On a canvas [k] times the size of
    the page, every point of the image then lands in the document where the
    canvas shows it: the two exports agree on the orientation. *)
Theorem rotation_sign_in_both_exports (e : SignatureElement.t)
  (size : PdfExport.PageSize) (v : RasterExport.Viewport) :
  ~ (SignatureElement.rotation e == 0)%Q ->
  let r := Q2R (SignatureElement.rotation e) in
  let o := PdfExport.imageOptions size e in
  let b := PdfExport.baseOptions size e in
  let c := RasterExport.imageCalls v e in
  let centre := (RasterExport.x c + RasterExport.imgWidth c / 2,
                 RasterExport.y c + RasterExport.imgHeight c / 2) in
  RasterExport.rotate c = PdfExport.toRadians r
  /\ RasterExport.translateTo c = centre
  /\ RasterExport.translateBack c = (- fst centre, - snd centre)
  /\ RasterExport.imagePoint c (1 / 2) (1 / 2) = centre
  /\ PdfExport.rotate o = Some (PdfExport.degrees (- r))
  /\ PdfExport.imagePoint o (1 / 2) (1 / 2)
     = {| PdfExport.px := PdfExport.x b + PdfExport.imgWidth b / 2;
          PdfExport.py := PdfExport.y b + PdfExport.imgHeight b / 2 |}
  /\ (forall k u t,
        k <> 0 ->
        RasterExport.width v = k * PdfExport.width size ->
        RasterExport.height v = k * PdfExport.height size ->
        PdfExport.imagePoint o u (1 - t)
        = PdfExport.ofCanvas k (PdfExport.height size) (RasterExport.imagePoint c u t)).
Proof.
  intros Hr r o b c centre.
  assert (Ho := imageOptions_rotated size e Hr). cbv zeta in Ho.
  subst r o b c centre.
  set (r := Q2R (SignatureElement.rotation e)) in *.
  destruct (opposite_angles r) as [Ha1 Ha2].
  split; [reflexivity|]. split; [reflexivity|]. split; [reflexivity|].
  split.
  { unfold RasterExport.imagePoint; simpl. f_equal; unfold Rdiv; ring. }
  split.
  { rewrite Ho; simpl. do 2 f_equal. lra. }
  split.
  { rewrite Ho. unfold PdfExport.imagePoint.
    cbn [PdfExport.rotate PdfExport.angleOf PdfExport.x PdfExport.y
         PdfExport.imgWidth PdfExport.imgHeight].
    rewrite Ha1, Ha2. f_equal; unfold Rdiv; ring. }
  intros k u t Hk Hw Hh.
  rewrite Ho. unfold PdfExport.imagePoint, PdfExport.ofCanvas, RasterExport.imagePoint.
  cbn [PdfExport.rotate PdfExport.angleOf PdfExport.x PdfExport.y
       PdfExport.imgWidth PdfExport.imgHeight].
  rewrite Ha1, Ha2, !cos_neg, !sin_neg.
  unfold RasterExport.imageCalls, PdfExport.baseOptions.
  cbn [PdfExport.x PdfExport.y PdfExport.imgWidth PdfExport.imgHeight
       RasterExport.x RasterExport.y RasterExport.imgWidth RasterExport.imgHeight
       RasterExport.rotate RasterExport.translateTo RasterExport.translateBack
       fst snd].
  fold r. rewrite Hw, Hh.
  set (a := (r * PI) / 180).
  set (ar := Q2R (SignatureElement.aspectRatio e)).
  unfold Rdiv. set (iar := / ar). clearbody iar.
  f_equal; field; exact Hk.
Qed.

(** The signature of [Examples] turned by 30 degrees, on a page of 600 by
    800 points and on the canvas of twice that size: the canvas is rotated
    by +30 degrees and pdf-lib is given -30 degrees. *)
Lemma rotation_sign_in_both_exports_witness :
  let size := {| PdfExport.width := 600; PdfExport.height := 800 |} in
  let v := {| RasterExport.width := 1200; RasterExport.height := 1600 |} in
  RasterExport.rotate (RasterExport.imageCalls v Examples.turned)
  = PdfExport.toRadians 30
  /\ PdfExport.rotate (PdfExport.imageOptions size Examples.turned)
     = Some (PdfExport.degrees (- 30))
  /\ PdfExport.imagePoint (PdfExport.imageOptions size Examples.turned) 0 1
     = PdfExport.ofCanvas 2 800
         (RasterExport.imagePoint (RasterExport.imageCalls v Examples.turned) 0 0).
Proof.
  intros size v.
  assert (Hr : ~ (SignatureElement.rotation Examples.turned == 0)%Q)
    by (intros H; discriminate H).
  assert (H30 : Q2R (SignatureElement.rotation Examples.turned) = 30)
    by (unfold Q2R; simpl; lra).
  destruct (rotation_sign_in_both_exports Examples.turned size v Hr)
    as (H1 & _ & _ & _ & H2 & _ & H3).
  rewrite H30 in H1, H2.
  split; [exact H1|]. split; [exact H2|].
  replace 1 with (1 - 0) at 1 by lra.
  apply (H3 2 0 0); simpl; lra.
Defined.

End ExportFacts.

(** ** Snapshots and the store *)

Module StoreFacts.
Import Store.

Lemma alloc_prefix o (h : Heap) : h `prefix_of` snd (alloc o h).
Proof. by apply prefix_app_r. Qed.

Lemma mapElems_prefix changed f (h : Heap) ls :
  h `prefix_of` snd (mapElems changed f h ls).
Proof.
  revert h. induction ls as [|l rest IH]; intros h; simpl; [done|].
  destruct (h !! l) as [[ | s | | ]|];
    try (destruct (mapElems changed f h rest) as [rest' h2] eqn:E; simpl;
         specialize (IH h); rewrite E in IH; exact IH).
  destruct (changed s).
  - simpl. destruct (mapElems changed f (h ++ [SigObject (f s)]) rest) as [rest' h2] eqn:E.
    simpl. specialize (IH (h ++ [SigObject (f s)])). rewrite E in IH.
    etrans; [|exact IH]. by apply prefix_app_r.
  - destruct (mapElems changed f h rest) as [rest' h2] eqn:E; simpl.
    specialize (IH h). rewrite E in IH. exact IH.
Qed.

(** No state change writes into an object that exists already: the store
    after it is the store before it with new objects at the end. *)
Lemma run_prefix op st : heap st `prefix_of` heap (run op st).
Proof.
  destruct op; simpl; try done.
  - destruct (mapElems changed f (heap st) _) as [ls h] eqn:E.
    unfold setSignatures; simpl.
    pose proof (mapElems_prefix changed f (heap st)
                  (elemsOf (heap st) (signatures st))) as H.
    rewrite E in H. simpl in H. by apply prefix_app_r.
  - unfold setSignatures; simpl. by do 2 apply prefix_app_r.
  - unfold setSignatures; simpl. by apply prefix_app_r.
  - unfold setDrawings; simpl. by do 2 apply prefix_app_r.
  - unfold setDrawings; simpl. by do 2 apply prefix_app_r.
  - destruct (historyStartRef st); [|done]. by destruct (hasChanged _ _).
  - by do 2 apply prefix_app_r.
Qed.

Lemma runs_prefix ops st : heap st `prefix_of` heap (runs ops st).
Proof.
  unfold runs. revert st. induction ops as [|op ops IH]; intros st; simpl; [done|].
  etrans; [apply (run_prefix op)|apply IH].
Qed.

(** What can be read from a store can be read, with the same result, from
    every extension of it. *)
Section Extension.
Context (h h' : Heap) (Hext : h `prefix_of` h').

Lemma lookup_ext l o : h !! l = Some o -> h' !! l = Some o.
Proof. intros H. by eapply prefix_lookup_Some. Qed.

Lemma readElem_ext l s : readElem h l = Some s -> readElem h' l = Some s.
Proof.
  unfold readElem. destruct (h !! l) as [o|] eqn:E; [|done].
  by rewrite (lookup_ext l o E).
Qed.

Lemma readSigs_ext l v : readSigs h l = Some v -> readSigs h' l = Some v.
Proof.
  unfold readSigs. destruct (h !! l) as [o|] eqn:E; [|done].
  rewrite (lookup_ext l o E). destruct o; try done.
  rewrite !mapM_Some. intros H. eapply Forall2_impl; [exact H|].
  intros ? ?. apply readElem_ext.
Qed.

Lemma readStrokes_ext l ss : readStrokes h l = Some ss -> readStrokes h' l = Some ss.
Proof.
  unfold readStrokes. destruct (h !! l) as [o|] eqn:E; [|done].
  by rewrite (lookup_ext l o E).
Qed.

Lemma readDraws_ext l v : readDraws h l = Some v -> readDraws h' l = Some v.
Proof.
  unfold readDraws. destruct (h !! l) as [o|] eqn:E; [|done].
  rewrite (lookup_ext l o E). destruct o; try done.
  destruct (decide _) as [Hall|]; [|done]. intros [= <-].
  assert (Hall' : map_Forall (fun _ a => is_Some (readStrokes h' a)) pages).
  { intros k a Hk. destruct (Hall k a Hk) as [ss Hss].
    exists ss. by apply readStrokes_ext. }
  rewrite decide_True by exact Hall'. f_equal.
  apply map_eq. intros k. rewrite !lookup_omap.
  destruct (pages !! k) as [a|] eqn:Hk; [|done]. simpl.
  destruct (Hall k a Hk) as [ss Hss]. by rewrite Hss, (readStrokes_ext a ss Hss).
Qed.

Lemma readEntry_ext e v : readEntry h e = Some v -> readEntry h' e = Some v.
Proof.
  unfold readEntry.
  destruct (readSigs h _) as [s|] eqn:Es; [|done].
  destruct (readDraws h _) as [d|] eqn:Ed; [|done].
  by rewrite (readSigs_ext _ _ Es), (readDraws_ext _ _ Ed).
Qed.

End Extension.

Lemma saveToHistory_records_the_live_references st :
  history (run SaveToHistory st)
  = History.record {| History.sigs := signatures st; History.draws := drawings st |}
      (history st)
  /\ signatures (run SaveToHistory st) = signatures st
  /\ drawings (run SaveToHistory st) = drawings st
  /\ heap (run SaveToHistory st) = heap st.
Proof. by repeat split. Qed.

End StoreFacts.

(** ** The values behind the store

    The store model and the geometry model describe the same component:
    reading a state of the store through its references, before and after
    a state change, gives the values before and after the same change on
    values. *)

Module Refinement.
Import Store StoreFacts.

Lemma lookup_alloc (h : Heap) o : (h ++ [o]) !! length h = Some o.
Proof. by apply list_lookup_middle. Qed.

Lemma readElem_inv h l s : readElem h l = Some s -> h !! l = Some (SigObject s).
Proof.
  unfold readElem. destruct (h !! l) as [[]|]; try done. by intros [= ->].
Qed.

Lemma readSigs_inv h l vs :
  readSigs h l = Some vs ->
  exists ls, h !! l = Some (SigArray ls) /\ mapM (readElem h) ls = Some vs.
Proof.
  unfold readSigs. destruct (h !! l) as [[]|]; try done. eauto.
Qed.

Lemma readDraws_inv h l dv :
  readDraws h l = Some dv ->
  exists pages, h !! l = Some (DrawingsObject pages)
    /\ map_Forall (fun _ a => is_Some (readStrokes h a)) pages
    /\ dv = omap (readStrokes h) pages.
Proof.
  unfold readDraws. destruct (h !! l) as [[]|]; try done.
  destruct (decide _); [|done]. intros [= <-]. eauto.
Qed.

Lemma readSigs_alloc h ls vs :
  mapM (readElem h) ls = Some vs ->
  readSigs (h ++ [SigArray ls]) (length h) = Some vs.
Proof.
  intros H. unfold readSigs. rewrite lookup_alloc.
  apply mapM_Some. apply mapM_Some in H.
  eapply Forall2_impl; [exact H|]. intros l s.
  apply readElem_ext. by apply prefix_app_r.
Qed.

(** [map] over the references reads as [map] over the values. *)
Lemma mapElems_read changed f (h : Heap) ls vs :
  mapM (readElem h) ls = Some vs ->
  mapM (readElem (mapElems changed f h ls).2) (mapElems changed f h ls).1
  = Some (map (fun s => if changed s then f s else s) vs).
Proof.
  revert h vs. induction ls as [|l rest IH]; intros h vs H.
  - apply mapM_Some in H. inversion H; subst. reflexivity.
  - apply mapM_Some in H. inversion H as [|? v ? vs' Hl Hrest]; subst.
    apply mapM_Some in Hrest.
    pose proof (readElem_inv _ _ _ Hl) as Hobj.
    cbn [mapElems map]. rewrite Hobj.
    destruct (changed v) eqn:Ec.
    + unfold alloc.
      assert (Hrest' : mapM (readElem (h ++ [SigObject (f v)])) rest = Some vs').
      { apply mapM_Some. apply mapM_Some in Hrest.
        eapply Forall2_impl; [exact Hrest|]. intros ? ?.
        apply readElem_ext. by apply prefix_app_r. }
      specialize (IH _ _ Hrest').
      pose proof (mapElems_prefix changed f (h ++ [SigObject (f v)]) rest) as Hpre.
      destruct (mapElems changed f (h ++ [SigObject (f v)]) rest) as [rest' h2].
      cbn [fst snd] in *.
      assert (Hnew : readElem h2 (length h) = Some (f v)).
      { eapply readElem_ext; [exact Hpre|]. unfold readElem. by rewrite lookup_alloc. }
      apply mapM_Some. constructor; [exact Hnew | by apply mapM_Some].
    + specialize (IH _ _ Hrest).
      pose proof (mapElems_prefix changed f h rest) as Hpre.
      destruct (mapElems changed f h rest) as [rest' h2].
      cbn [fst snd] in *.
      apply mapM_Some. constructor; [by eapply readElem_ext | by apply mapM_Some].
Qed.

Lemma filterElems_read keep (h : Heap) ls vs :
  mapM (readElem h) ls = Some vs ->
  mapM (readElem h) (filterElems keep h ls) = Some (List.filter keep vs).
Proof.
  revert vs. induction ls as [|l rest IH]; intros vs H.
  - apply mapM_Some in H. inversion H; subst. reflexivity.
  - apply mapM_Some in H. inversion H as [|? v ? vs' Hl Hrest]; subst.
    apply mapM_Some in Hrest. specialize (IH _ Hrest).
    unfold filterElems in *. cbn [List.filter].
    rewrite (readElem_inv _ _ _ Hl). destruct (keep v); [|exact IH].
    apply mapM_Some. constructor; [exact Hl | by apply mapM_Some].
Qed.

Section Extension.
Context (h h' : Heap) (Hext : h `prefix_of` h').

Lemma readEntries_ext l vs :
  mapM (readEntry h) l = Some vs -> mapM (readEntry h') l = Some vs.
Proof.
  rewrite !mapM_Some. intros H. eapply Forall2_impl; [exact H|].
  intros ? ?. by apply readEntry_ext.
Qed.

Lemma readHistory_ext hist v :
  readHistory h hist = Some v -> readHistory h' hist = Some v.
Proof.
  unfold readHistory.
  destruct (mapM (readEntry h) (History.past hist)) as [p|] eqn:Ep; [|done].
  destruct (mapM (readEntry h) (History.future hist)) as [f|] eqn:Ef; [|done].
  by rewrite (readEntries_ext _ _ Ep), (readEntries_ext _ _ Ef).
Qed.

Lemma readStart_ext o v : readStart h o = Some v -> readStart h' o = Some v.
Proof.
  unfold readStart. destruct o as [e|]; [|done].
  destruct (readEntry h e) as [ev|] eqn:E; [|done].
  by rewrite (readEntry_ext h h' Hext e ev E).
Qed.

End Extension.

(** What a readable state consists of. *)
Lemma view_inv st v :
  view st = Some v ->
  readSigs (heap st) (signatures st) = Some (History.signatures (vEd v))
  /\ readDraws (heap st) (drawings st) = Some (History.drawings (vEd v))
  /\ mapM (readEntry (heap st)) (History.past (history st))
     = Some (History.past (History.history (vEd v)))
  /\ mapM (readEntry (heap st)) (History.future (history st))
     = Some (History.future (History.history (vEd v)))
  /\ readSigs (heap st) (signaturesRef st) = Some (vRef v)
  /\ readStart (heap st) (historyStartRef st) = Some (vStart v).
Proof.
  unfold view, readHistory.
  destruct (readSigs _ (signatures st)) as [s|]; [|done].
  destruct (readDraws _ _) as [d|]; [|done].
  destruct (mapM _ (History.past _)) as [p|]; [|done].
  destruct (mapM _ (History.future _)) as [f|]; [|done].
  destruct (readSigs _ (signaturesRef st)) as [r|]; [|done].
  destruct (readStart _ _) as [o|]; [|done].
  intros [= <-]. by repeat split.
Qed.

Lemma view_intro st v :
  readSigs (heap st) (signatures st) = Some (History.signatures (vEd v)) ->
  readDraws (heap st) (drawings st) = Some (History.drawings (vEd v)) ->
  mapM (readEntry (heap st)) (History.past (history st))
    = Some (History.past (History.history (vEd v))) ->
  mapM (readEntry (heap st)) (History.future (history st))
    = Some (History.future (History.history (vEd v))) ->
  readSigs (heap st) (signaturesRef st) = Some (vRef v) ->
  readStart (heap st) (historyStartRef st) = Some (vStart v) ->
  view st = Some v.
Proof.
  intros Hs Hd Hp Hf Hr Ho. unfold view, readHistory.
  rewrite Hs, Hd, Hp, Hf, Hr, Ho. by destruct v as [[s d [p f]] r o].
Qed.

Lemma mapM_snoc {A B} (f : A -> option B) l x k0 y :
  mapM f l = Some k0 -> f x = Some y -> mapM f (l ++ [x]) = Some (k0 ++ [y]).
Proof.
  intros Hl Hx. apply mapM_Some. apply Forall2_app; [by apply mapM_Some|].
  by constructor.
Qed.

Lemma mapM_snoc_inv {A B} (f : A -> option B) l x k :
  mapM f (l ++ [x]) = Some k ->
  exists k0 y, k = k0 ++ [y] /\ mapM f l = Some k0 /\ f x = Some y.
Proof.
  intros H. apply mapM_Some in H.
  apply Forall2_app_inv_l in H as (k0 & k1 & H0 & H1 & ->).
  inversion H1 as [|? y ? ? Hx Hnil]; subst. inversion Hnil; subst.
  exists k0, y. repeat split; trivial. by apply mapM_Some.
Qed.

Lemma mapM_cons_inv {A B} (f : A -> option B) x l k :
  mapM f (x :: l) = Some k ->
  exists y k0, k = y :: k0 /\ f x = Some y /\ mapM f l = Some k0.
Proof.
  intros H. apply mapM_Some in H. inversion H as [|? y ? k0 Hx Hl]; subst.
  exists y, k0. repeat split; trivial. by apply mapM_Some.
Qed.

Lemma mapM_nil_inv {A B} (f : A -> option B) k : mapM f [] = Some k -> k = [].
Proof. by intros [= <-]. Qed.

Lemma readEntry_live h s d sv dv :
  readSigs h s = Some sv -> readDraws h d = Some dv ->
  readEntry h {| History.sigs := s; History.draws := d |}
  = Some {| History.sigs := sv; History.draws := dv |}.
Proof. intros Hs Hd. unfold readEntry; simpl. by rewrite Hs, Hd. Qed.

Lemma readEntry_inv h e ev :
  readEntry h e = Some ev ->
  readSigs h (History.sigs e) = Some (History.sigs ev)
  /\ readDraws h (History.draws e) = Some (History.draws ev).
Proof.
  unfold readEntry. destruct (readSigs _ _); [|done].
  destruct (readDraws _ _); [|done]. by intros [= <-].
Qed.

Section Steps.
Context (st : Store.t) (v : Values) (Hv : view st = Some v).

Ltac opened :=
  destruct (view_inv st v Hv) as (Hs & Hd & Hp & Hf & Hr & Ho);
  unfold history, signatures, drawings in *.

Ltac closing :=
  apply view_intro; unfold history, signatures, drawings, with_ed; cbn; trivial.

Lemma saveToHistory_refines : view (run SaveToHistory st) = Some (denote SaveToHistory v).
Proof.
  opened. closing.
  apply mapM_snoc; [exact Hp|]. by apply readEntry_live.
Qed.

Lemma undo_refines : view (run Undo st) = Some (denote Undo v).
Proof.
  opened.
  destruct (HistoryFacts.past_cases (ed st)) as [Hnil | (p0 & e & Hpe)].
  - rewrite Hnil in Hp. apply mapM_nil_inv in Hp.
    cbn [run denote]. rewrite (HistoryFacts.undo_empty (ed st) Hnil).
    rewrite (HistoryFacts.undo_empty (vEd v)) by done.
    closing. by rewrite Hnil, Hp.
  - rewrite Hpe in Hp.
    apply mapM_snoc_inv in Hp as (k0 & ev & Hk & Hp0 & He).
    destruct (readEntry_inv _ _ _ He) as [Hes Hed].
    cbn [run denote]. rewrite (HistoryFacts.undo_snoc (ed st) p0 e Hpe).
    rewrite (HistoryFacts.undo_snoc (vEd v) k0 ev Hk).
    closing.
    unfold History.live. by rewrite (readEntry_live _ _ _ _ _ Hs Hd), Hf.
Qed.

Lemma redo_refines : view (run Redo st) = Some (denote Redo v).
Proof.
  opened. cbn [run denote]. unfold History.redo.
  destruct (History.future (History.history (ed st))) as [|next fs] eqn:Ef.
  - apply mapM_nil_inv in Hf. rewrite Hf.
    closing. by rewrite Ef, Hf.
  - apply mapM_cons_inv in Hf as (nv & fv & Hfv & Hn & Hfs). rewrite Hfv.
    destruct (readEntry_inv _ _ _ Hn) as [Hns Hnd].
    closing.
    apply mapM_snoc; [exact Hp|]. by apply readEntry_live.
Qed.

(** The reads of the old state, in an extension of its store. *)
Lemma view_ext h' :
  heap st `prefix_of` h' ->
  readSigs h' (signatures st) = Some (History.signatures (vEd v))
  /\ readDraws h' (drawings st) = Some (History.drawings (vEd v))
  /\ mapM (readEntry h') (History.past (history st))
     = Some (History.past (History.history (vEd v)))
  /\ mapM (readEntry h') (History.future (history st))
     = Some (History.future (History.history (vEd v)))
  /\ readSigs h' (signaturesRef st) = Some (vRef v)
  /\ readStart h' (historyStartRef st) = Some (vStart v).
Proof.
  intros Hext. destruct (view_inv st v Hv) as (Hs & Hd & Hp & Hf & Hr & Ho).
  repeat split.
  - by eapply readSigs_ext.
  - by eapply readDraws_ext.
  - by eapply readEntries_ext.
  - by eapply readEntries_ext.
  - by eapply readSigs_ext.
  - by eapply readStart_ext.
Qed.

Lemma elems_read :
  mapM (readElem (heap st)) (elemsOf (heap st) (signatures st))
  = Some (History.signatures (vEd v)).
Proof.
  destruct (view_inv st v Hv) as (Hs & _).
  apply readSigs_inv in Hs as (ls & Hl & Hm). unfold elemsOf. by rewrite Hl.
Qed.

(** A new signature array with readable elements. *)
Lemma setSignatures_refines ls h vs :
  heap st `prefix_of` h ->
  mapM (readElem h) ls = Some vs ->
  view (setSignatures ls h st) = Some (withSignatures vs v).
Proof.
  intros Hext Hls.
  assert (Hext' : heap st `prefix_of` h ++ [SigArray ls]) by by apply prefix_app_r.
  destruct (view_ext _ Hext') as (Hs & Hd & Hp & Hf & Hr & Ho).
  pose proof (readSigs_alloc h ls vs Hls) as Hnew.
  apply view_intro; unfold setSignatures, history, signatures, drawings in *; cbn; trivial.
Qed.

Lemma mapSignatures_refines changed f :
  view (run (MapSignatures changed f) st) = Some (denote (MapSignatures changed f) v).
Proof.
  cbn [run denote].
  pose proof (mapElems_read changed f _ _ _ elems_read) as Hread.
  pose proof (mapElems_prefix changed f (heap st) (elemsOf (heap st) (signatures st)))
    as Hpre.
  destruct (mapElems changed f (heap st) _) as [ls h]. cbn [fst snd] in *.
  by apply setSignatures_refines.
Qed.

Lemma appendSignature_refines newSig :
  view (run (AppendSignature newSig) st) = Some (denote (AppendSignature newSig) v).
Proof.
  cbn [run denote]. unfold alloc.
  apply setSignatures_refines; [by apply prefix_app_r|].
  apply mapM_snoc.
  - pose proof elems_read as H. apply mapM_Some in H. apply mapM_Some.
    eapply Forall2_impl; [exact H|]. intros ? ?.
    apply readElem_ext. by apply prefix_app_r.
  - unfold readElem. by rewrite lookup_alloc.
Qed.

Lemma filterSignatures_refines keep :
  view (run (FilterSignatures keep) st) = Some (denote (FilterSignatures keep) v).
Proof.
  cbn [run denote]. apply setSignatures_refines; [done|].
  apply filterElems_read, elems_read.
Qed.

(** A new drawings object in which one page has a new stroke array. *)
Lemma setDrawings_refines page ss :
  let h := heap st ++ [StrokeArray ss] in
  view (setDrawings (<[page := length (heap st)]> (pagesOf (heap st) (drawings st))) h st)
  = Some (withDrawings (<[page := ss]> (History.drawings (vEd v))) v).
Proof.
  intros h.
  set (pages' := <[page := length (heap st)]> (pagesOf (heap st) (drawings st))).
  assert (Hext : heap st `prefix_of` h ++ [DrawingsObject pages'])
    by by do 2 apply prefix_app_r.
  destruct (view_ext _ Hext) as (Hs & Hd & Hp & Hf & Hr & Ho).
  apply view_intro; unfold setDrawings, history, signatures, drawings in *; cbn; trivial.
  fold h. apply readDraws_inv in Hd as (pages & Hl & Hall & Hdv).
  destruct (view_inv st v Hv) as (_ & Hd0 & _).
  apply readDraws_inv in Hd0 as (pages0 & Hl0 & _ & _).
  assert (pages0 = pages) as ->.
  { pose proof (lookup_ext _ _ Hext _ _ Hl0) as Hl1.
    unfold drawings in Hl1. rewrite Hl in Hl1. by injection Hl1. }
  assert (Hpages : pagesOf (heap st) (History.drawings (ed st)) = pages).
  { unfold pagesOf. unfold drawings in Hl0. by rewrite Hl0. }
  unfold pages' in *. unfold drawings in *. rewrite Hpages in *.
  assert (Hnew : readStrokes (h ++ [DrawingsObject (<[page:=length (heap st)]> pages)])
                   (length (heap st)) = Some ss).
  { unfold readStrokes.
    assert (Hlk : (h ++ [DrawingsObject (<[page:=length (heap st)]> pages)])
                  !! length (heap st) = Some (StrokeArray ss)).
    { eapply lookup_ext; [by apply prefix_app_r | apply lookup_alloc]. }
    by rewrite Hlk. }
  unfold readDraws. rewrite lookup_alloc.
  rewrite decide_True.
  - rewrite Hdv. f_equal. by apply omap_insert_Some.
  - apply map_Forall_insert_2; [by eexists | exact Hall].
Qed.

Lemma page_read page :
  match pagesOf (heap st) (drawings st) !! page with
  | Some a => strokesOf (heap st) a
  | None => []
  end = default [] (History.drawings (vEd v) !! page).
Proof.
  destruct (view_inv st v Hv) as (_ & Hd & _).
  apply readDraws_inv in Hd as (pages & Hl & Hall & ->).
  unfold pagesOf. rewrite Hl, lookup_omap.
  destruct (pages !! page) as [a|] eqn:Ha; [|done]. simpl.
  destruct (Hall page a Ha) as [ss Hss]. rewrite Hss. simpl.
  unfold readStrokes in Hss. unfold strokesOf.
  destruct (heap st !! a) as [[]|]; try done. by injection Hss.
Qed.

Lemma addStroke_refines page stroke :
  view (run (AddStroke page stroke) st) = Some (denote (AddStroke page stroke) v).
Proof.
  cbn [run denote]. unfold alloc. rewrite page_read. apply setDrawings_refines.
Qed.

Lemma clearPage_refines page :
  view (run (ClearPage page) st) = Some (denote (ClearPage page) v).
Proof. cbn [run denote]. unfold alloc. apply setDrawings_refines. Qed.

Lemma sessionStart_refines : view (run SessionStart st) = Some (denote SessionStart v).
Proof.
  opened. closing. unfold drawings. by rewrite (readEntry_live _ _ _ _ _ Hr Hd).
Qed.

Lemma sessionCommit_refines : view (run SessionCommit st) = Some (denote SessionCommit v).
Proof.
  opened. cbn [run denote].
  destruct (historyStartRef st) as [e|] eqn:Ee.
  - unfold readStart in Ho. destruct (readEntry (heap st) e) as [ev|] eqn:Eev; [|done].
    injection Ho as <-. destruct (readEntry_inv _ _ _ Eev) as [Hes Hed].
    unfold hasChanged. rewrite Hes, Hr.
    destruct (negb _); [|exact Hv].
    closing.
    + apply mapM_snoc; [exact Hp|]. by destruct e, ev.
    + unfold readStart. by rewrite ?Ee, Eev.
  - injection Ho as <-. exact Hv.
Qed.

Lemma reset_refines : view (run Reset st) = Some (denote Reset v).
Proof.
  cbn [run denote]. unfold alloc.
  assert (Hext : heap st `prefix_of` (heap st ++ [SigArray []]) ++ [DrawingsObject ∅])
    by by do 2 apply prefix_app_r.
  destruct (view_ext _ Hext) as (_ & _ & _ & _ & _ & Ho).
  apply view_intro; unfold history, signatures, drawings in *; cbn; trivial.
  - unfold readSigs.
    assert (Hlk : ((heap st ++ [SigArray []]) ++ [DrawingsObject ∅])
                  !! length (heap st) = Some (SigArray [])).
    { eapply lookup_ext; [by apply prefix_app_r | apply lookup_alloc]. }
    by rewrite Hlk.
  - unfold readDraws. rewrite length_app. simpl.
    replace (length (heap st) + 1) with (length (heap st ++ [SigArray []]))
      by (rewrite length_app; reflexivity).
    rewrite lookup_alloc. rewrite decide_True by apply map_Forall_empty.
    by rewrite omap_empty.
  - unfold readSigs.
    assert (Hlk : ((heap st ++ [SigArray []]) ++ [DrawingsObject ∅])
                  !! length (heap st) = Some (SigArray [])).
    { eapply lookup_ext; [by apply prefix_app_r | apply lookup_alloc]. }
    by rewrite Hlk.
Qed.

(** Every state change of the store is the same change on the values it
    stands for. *)
Lemma run_refines op : view (run op st) = Some (denote op v).
Proof.
  destruct op.
  - apply saveToHistory_refines.
  - apply undo_refines.
  - apply redo_refines.
  - apply mapSignatures_refines.
  - apply appendSignature_refines.
  - apply filterSignatures_refines.
  - apply addStroke_refines.
  - apply clearPage_refines.
  - apply sessionStart_refines.
  - apply sessionCommit_refines.
  - apply reset_refines.
Qed.

End Steps.

Lemma runs_refines ops st v :
  view st = Some v -> view (runs ops st) = Some (denotes ops v).
Proof.
  unfold runs, denotes. revert st v.
  induction ops as [|op ops IH]; intros st v Hv; [done|].
  simpl. apply IH. by apply run_refines.
Qed.

(** The handlers of the geometry model are these state changes. *)
Section Handlers.
Context (a : App.t) (Hsync : App.signaturesRef a = App.signatures a).

Lemma map_changed {A} (changed : A -> bool) (f : A -> A) l :
  (forall s, changed s = false -> f s = s) ->
  map (fun s => if changed s then f s else s) l = map f l.
Proof.
  intros H. apply map_ext. intros s. destruct (changed s) eqn:E; [done|].
  symmetry. by apply H.
Qed.

Lemma saveToHistory_is : values (App.saveToHistory a) = denote SaveToHistory (values a).
Proof. reflexivity. Qed.

Lemma undo_is : values (App.undo a) = denote Undo (values a).
Proof. reflexivity. Qed.

Lemma redo_is : values (App.redo a) = denote Redo (values a).
Proof. reflexivity. Qed.

Lemma handleAddStroke_is stroke :
  values (Edit.handleAddStroke stroke a)
  = denotes [SaveToHistory; AddStroke (App.pageNum a - 1) stroke] (values a).
Proof. reflexivity. Qed.

Lemma handleClearPage_is :
  values (Edit.handleClearPage a)
  = denotes [SaveToHistory; ClearPage (App.pageNum a - 1)] (values a).
Proof. reflexivity. Qed.

Lemma deleteSignature_is i :
  values (Edit.deleteSignature i a)
  = denotes [SaveToHistory;
             FilterSignatures (fun s => negb (String.eqb (SignatureElement.id s) i))]
      (values a).
Proof.
  unfold Edit.deleteSignature. destruct (App.selectedSigId a) as [j|]; [|done].
  by destruct (String.eqb j i).
Qed.

Lemma moveHandler_is d cx cy :
  values (Drag.moveHandler d cx cy a)
  = denote (MapSignatures (fun s => String.eqb (SignatureElement.id s) (Drag.id d))
              (Drag.place d (Drag.snap d (App.signaturesRef a) cx cy)))
      (values a).
Proof.
  unfold Drag.moveHandler. set (r := Drag.snap d (App.signaturesRef a) cx cy).
  unfold values, denote, withSignatures, App.setSignatures, App.setSnapLines, App.with_ed.
  cbn [App.ed App.signaturesRef App.historyStartRef App.signatures App.drawings
       App.history History.signatures History.drawings History.history
       vEd vRef vStart].
  rewrite map_changed; [reflexivity|].
  intros s E. unfold Drag.place. by rewrite E.
Qed.

Lemma handleDragStart_is cx cy i d a' :
  Drag.handleDragStart cx cy i a = (a', Some d) ->
  values a' = denote SessionStart (values a).
Proof.
  unfold Drag.handleDragStart.
  destruct (App.isFreeDrawMode a); [congruence|].
  destruct (_ || _); [congruence|].
  destruct (App.canvasRect a); [|congruence].
  destruct (find _ _); [|congruence].
  by intros [= <- _].
Qed.

Lemma commit_is : values (Commit.commit a) = denote SessionCommit (values a).
Proof.
  unfold Commit.commit, Commit.hasChanged. cbn [denote values vStart vRef].
  destruct (App.historyStartRef a) as [s|] eqn:E; [|reflexivity].
  destruct (negb _); [|reflexivity].
  unfold values, App.setHistory, App.with_ed.
  cbn [App.ed App.signaturesRef App.historyStartRef App.signatures App.drawings
       App.history History.signatures History.drawings History.history
       vEd vRef vStart].
  rewrite E, Hsync. by destruct s.
Qed.

End Handlers.

End Refinement.

(** ** Recorded snapshots *)

Module Snapshots.
Import Store StoreFacts Refinement.

Lemma view_initial :
  view initial
  = Some {| vEd := {| History.signatures := []; History.drawings := ∅;
                      History.history := History.empty |};
            vRef := []; vStart := None |}.
Proof. vm_compute. reflexivity. Qed.

Lemma mapM_In {A B} (f : A -> option B) l k x :
  mapM f l = Some k -> In x l -> exists y, f x = Some y.
Proof.
  intros H. apply mapM_Some in H.
  induction H as [|a b l k Hab _ IH]; intros [].
  - subst. eauto.
  - by apply IH.
Qed.

(** In a state reached from the mount every recorded snapshot can be
    read. *)
Lemma reachable_readable ops e :
  In e (recorded (runs ops initial)) ->
  exists v, readEntry (heap (runs ops initial)) e = Some v.
Proof.
  intros Hin.
  pose proof (runs_refines ops initial _ view_initial) as Hv.
  destruct (view_inv _ _ Hv) as (_ & _ & Hp & Hf & _).
  unfold recorded in Hin. apply in_app_or in Hin as [Hin | Hin].
  - exact (mapM_In _ _ _ _ Hp Hin).
  - exact (mapM_In _ _ _ _ Hf Hin).
Qed.

(** C9, the claim at an input.  Two signatures are placed, the state is
    recorded and the first signature is moved.  The recorded snapshot is no
    deep copy: it holds the drawings object that is still live, and the
    live signature array holds the very object of the second signature
    that the snapshot holds. *)
Lemma recorded_snapshot_is_aliased :
  ~ (forall e, In e (recorded (runs firstMoved placed)) ->
               deepCopy (runs firstMoved placed) e).
Proof.
  intros H.
  apply (H {| History.sigs := 5; History.draws := 1 |}) with (l := 4).
  - vm_compute. by left.
  - vm_compute. tauto.
  - vm_compute. tauto.
Qed.

(** C9, amended.  A snapshot is recorded by reference: [saveToHistory]
    puts the live signature array and the live drawings object themselves
    into the entry and copies nothing.  The contents of an entry still
    never change, because no state change writes into an existing array or
    object: after any sequence of state changes the store is the old store
    followed by new objects, and every recorded entry reads as it read
    before.  In every state that the component can reach from its mount,
    each recorded entry can be read, and reads the same after any further
    state changes. *)
Theorem snapshots_are_shared_but_never_written st :
  (history (run SaveToHistory st)
   = History.record {| History.sigs := signatures st; History.draws := drawings st |}
       (history st)
   /\ heap (run SaveToHistory st) = heap st)
  /\ (forall ops, heap st `prefix_of` heap (runs ops st))
  /\ (forall ops e v,
        In e (recorded st) ->
        readEntry (heap st) e = Some v ->
        readEntry (heap (runs ops st)) e = Some v)
  /\ (forall before later e,
        In e (recorded (runs before initial)) ->
        exists v,
          readEntry (heap (runs before initial)) e = Some v
          /\ readEntry (heap (runs later (runs before initial))) e = Some v).
Proof.
  split; [by split|]. split; [intros ops; apply runs_prefix|].
  split; [intros ops e v _; apply readEntry_ext, runs_prefix|].
  intros before later e Hin.
  destruct (reachable_readable before e Hin) as [v Hread].
  exists v. split; [exact Hread|].
  revert Hread. apply readEntry_ext, runs_prefix.
Qed.

(** The snapshot recorded before the first signature is moved still shows
    it at [x = 40] after the move, a stroke, an undo and a redo. *)
Lemma snapshots_are_shared_but_never_written_witness :
  let before := {| History.sigs := [Examples.fresh; Examples.sibling 50];
                   History.draws := (∅ : PageDrawings) |} in
  let later := [AddStroke 0 Examples.stroke; Undo; Redo; ClearPage 0] in
  readEntry (heap (runs firstMoved placed)) {| History.sigs := 5; History.draws := 1 |}
  = Some before
  /\ readEntry (heap (runs later (runs firstMoved placed)))
       {| History.sigs := 5; History.draws := 1 |}
     = Some before.
Proof.
  intros before later.
  assert (Hread : readEntry (heap (runs firstMoved placed))
                    {| History.sigs := 5; History.draws := 1 |} = Some before)
    by (vm_compute; reflexivity).
  split; [exact Hread|].
  destruct (snapshots_are_shared_but_never_written (runs firstMoved placed))
    as (_ & _ & Hkeep & _).
  apply (Hkeep later {| History.sigs := 5; History.draws := 1 |} before).
  - vm_compute. by left.
  - exact Hread.
Defined.

End Snapshots.

(** ** More rational arithmetic *)

Module QMore.
Local Open Scope Q_scope.

Lemma Qabs_cases a : (0 <= a /\ Qabs a == a) \/ (a <= 0 /\ Qabs a == - a).
Proof.
  pattern (Qabs a). apply Qabs_case; intros H; [left | right]; split; trivial; reflexivity.
Qed.

(** Linear goals over [Qmin], [Qmax] and [Qabs]: every such term is
    named and replaced by what its case gives. *)
Ltac qcase_of spec t :=
  let m := fresh "m" in
  let E := fresh "E" in
  pose proof spec as E; set (m := t) in *; clearbody m;
  destruct E as [[? E] | [? E]].

Ltac qcases :=
  repeat match goal with
         | |- context [Qmin ?a ?b] => qcase_of (Q.min_spec a b) (Qmin a b)
         | |- context [Qmax ?a ?b] => qcase_of (Q.max_spec a b) (Qmax a b)
         | |- context [Qabs ?a] => qcase_of (Qabs_cases a) (Qabs a)
         | _ : context [Qmin ?a ?b] |- _ => qcase_of (Q.min_spec a b) (Qmin a b)
         | _ : context [Qmax ?a ?b] |- _ => qcase_of (Q.max_spec a b) (Qmax a b)
         | _ : context [Qabs ?a] |- _ => qcase_of (Qabs_cases a) (Qabs a)
         end.

Ltac qclamp := qcases; lra.

(** Split conjunctions only: [split] would also open an inequality. *)
Ltac conjuncts :=
  repeat match goal with
         | |- _ /\ _ => split
         | |- _ -> _ => intros ?
         end.

End QMore.

(** ** View controls: zoom, page navigation and snap targets *)

Module ZoomFacts.
Import QMore.
Local Open Scope Q_scope.

Lemma handleZoomIn_range s : 0.5 <= s <= 3 -> 0.5 <= Zoom.handleZoomIn s <= 3.
Proof.
  intros [H1 H2]. unfold Zoom.handleZoomIn.
  destruct (Q.min_spec (s + 0.25) 3.0) as [[? E] | [? E]]; rewrite E; lra.
Qed.

Lemma handleZoomOut_range s : 0.5 <= s <= 3 -> 0.5 <= Zoom.handleZoomOut s <= 3.
Proof.
  intros [H1 H2]. unfold Zoom.handleZoomOut.
  destruct (Q.max_spec (s - 0.25) 0.5) as [[? E] | [? E]]; rewrite E; lra.
Qed.

Lemma clicks_range l s : 0.5 <= s <= 3 -> 0.5 <= Zoom.clicks l s <= 3.
Proof.
  revert s. induction l as [|b l IH]; intros s H; [exact H|].
  apply IH. destruct b; [by apply handleZoomIn_range | by apply handleZoomOut_range].
Qed.

Lemma fitToWidth_range containerWidth unscaledWidth :
  0.5 <= Zoom.fitToWidth containerWidth unscaledWidth <= 2.
Proof.
  unfold Zoom.fitToWidth. cbv zeta.
  set (d := (containerWidth - 48) / unscaledWidth).
  destruct (Q.min_spec (Qmax d 0.5) 2.0) as [[? E] | [? E]];
  destruct (Q.max_spec d 0.5) as [[? E'] | [? E']];
  rewrite E; rewrite ?E'; rewrite ?E' in *; lra.
Qed.

(** X1.  For a page of non-zero width, the scale that [fitToWidth] sets
    lies between 0.5 and 2, and no series of clicks on the two zoom
    buttons leads from it, or from any scale between 0.5 and 3, outside
    of 0.5 to 3: the zoom of a loaded document stays between 50% and
    300% whatever is clicked. *)
Theorem zoom_stays_between_the_limits containerWidth unscaledWidth l :
  ~ unscaledWidth == 0 ->
  0.5 <= Zoom.fitToWidth containerWidth unscaledWidth <= 2
  /\ 0.5 <= Zoom.clicks l (Zoom.fitToWidth containerWidth unscaledWidth) <= 3
  /\ (forall s, 0.5 <= s <= 3 -> 0.5 <= Zoom.clicks l s <= 3).
Proof.
  intros _. pose proof (fitToWidth_range containerWidth unscaledWidth) as H.
  split; [exact H|]. split; [apply clicks_range; lra|].
  intros s. apply clicks_range.
Qed.

Lemma zoom_stays_between_the_limits_witness :
  0.5 <= Zoom.clicks [Zoom.ZoomIn; Zoom.ZoomIn; Zoom.ZoomIn; Zoom.ZoomOut]
           (Zoom.fitToWidth 1248 600) <= 3.
Proof.
  destruct (zoom_stays_between_the_limits 1248 600
              [Zoom.ZoomIn; Zoom.ZoomIn; Zoom.ZoomIn; Zoom.ZoomOut]) as (_ & H & _).
  - intros E. discriminate E.
  - exact H.
Defined.



End ZoomFacts.

Module PagerFacts.
Local Open Scope Z_scope.

Lemma click_totalPages st c :
  Pager.totalPages (Pager.click st c) = Pager.totalPages st
  /\ Pager.thumbnails (Pager.click st c) = Pager.thumbnails st.
Proof.
  destruct c; simpl.
  - by destruct (Pager.prevDisabled st).
  - by destruct (Pager.nextDisabled st).
  - by destruct (Pager.thumbnails st !! index).
Qed.

Lemma click_range st c :
  Z.of_nat (length (Pager.thumbnails st)) <= Pager.totalPages st ->
  1 <= Pager.pageNum st <= Pager.totalPages st ->
  1 <= Pager.pageNum (Pager.click st c) <= Pager.totalPages st.
Proof.
  intros Ht H. destruct c; simpl.
  - unfold Pager.prevDisabled, Pager.prevPage.
    destruct (Z.leb_spec (Pager.pageNum st) 1); simpl; lia.
  - unfold Pager.nextDisabled, Pager.nextPage.
    destruct (Z.leb_spec (Pager.totalPages st) (Pager.pageNum st)); simpl; lia.
  - destruct (Pager.thumbnails st !! index) eqn:E; simpl; [|lia].
    apply lookup_lt_Some in E. lia.
Qed.

(** X3.  On a document whose thumbnails are not more than its pages, no
    series of clicks on the two arrows and on thumbnails leads away from
    the pages 1 to [totalPages]; the left arrow on page 1 and the right
    arrow on the last page change nothing. *)
Theorem navigation_stays_on_the_document st l :
  Z.of_nat (length (Pager.thumbnails st)) <= Pager.totalPages st ->
  1 <= Pager.pageNum st <= Pager.totalPages st ->
  1 <= Pager.pageNum (Pager.clicks l st) <= Pager.totalPages st
  /\ Pager.totalPages (Pager.clicks l st) = Pager.totalPages st
  /\ (Pager.pageNum st = 1 -> Pager.click st Pager.Prev = st)
  /\ (Pager.pageNum st = Pager.totalPages st -> Pager.click st Pager.Next = st).
Proof.
  intros Ht H. split; [|split; [|split]].
  - revert st Ht H. induction l as [|c l IH]; intros st Ht H; [exact H|].
    simpl. destruct (click_totalPages st c) as [E1 E2].
    rewrite <- E1. apply IH; rewrite ?E1, ?E2; trivial. by apply click_range.
  - clear. revert st. induction l as [|c l IH]; intros st; [reflexivity|].
    simpl. rewrite IH. apply click_totalPages.
  - intros E. simpl. unfold Pager.prevDisabled. rewrite E. reflexivity.
  - intros E. simpl. unfold Pager.nextDisabled. rewrite E, Z.leb_refl. reflexivity.
Qed.

Lemma navigation_stays_on_the_document_witness :
  1 <= Pager.pageNum
         (Pager.clicks [Pager.Next; Pager.Next; Pager.Next; Pager.Thumbnail 0; Pager.Prev]
            (Pager.mk 1 3 ["a"; "b"; "c"])) <= 3.
Proof.
  apply (navigation_stays_on_the_document (Pager.mk 1 3 ["a"; "b"; "c"])
           [Pager.Next; Pager.Next; Pager.Next; Pager.Thumbnail 0; Pager.Prev]);
    simpl; lia.
Defined.

End PagerFacts.

Module AnnotationFacts.
Import QMore.
Local Open Scope Q_scope.

Lemma percent_nonneg a w : 0 < w -> 0 <= a -> 0 <= (a / w) * 100.
Proof.
  intros Hw Ha.
  assert (0 <= a / w) by (apply Qle_shift_div_l; [exact Hw | lra]).
  lra.
Qed.

Lemma percent_le a w : 0 < w -> a <= w -> (a / w) * 100 <= 100.
Proof.
  intros Hw Ha.
  assert (a / w <= 1) by (apply Qle_shift_div_r; [exact Hw | lra]).
  lra.
Qed.

Lemma percent_plus a b w : ~ w == 0 -> (a / w) * 100 + (b / w) * 100 == ((a + b) / w) * 100.
Proof. intros. field. trivial. Qed.

Lemma newTargets_In viewport annotations t :
  In t (Annotation.newTargets viewport annotations)
  <-> exists a, In a annotations /\ Annotation.subtype a = "Widget"%string
                /\ t = Annotation.toTarget viewport a.
Proof.
  unfold Annotation.newTargets. rewrite in_map_iff. split.
  - intros (a & <- & Hin). apply filter_In in Hin as [Hin Hw].
    apply String.eqb_eq in Hw. by exists a.
  - intros (a & Hin & Hw & ->). exists a. split; [reflexivity|].
    apply filter_In. split; [exact Hin|]. by apply String.eqb_eq.
Qed.

(** X4.  The snap targets of a page are exactly the converted rectangles
    of its form widgets.  Whichever two opposite corners the rectangle of
    a widget names, and in whichever order, the target has a width and a
    height that are not negative, and when the rectangle lies within the
    viewport the target lies within the page: its edges are between 0
    and 100 percent. *)
Theorem widgets_become_targets_on_the_page viewport annotations :
  0 < Annotation.width viewport -> 0 < Annotation.height viewport ->
  (forall t, In t (Annotation.newTargets viewport annotations)
             <-> exists a, In a annotations
                           /\ Annotation.subtype a = "Widget"%string
                           /\ t = Annotation.toTarget viewport a)
  /\ forall a,
       let t := Annotation.toTarget viewport a in
       0 <= SnapTarget.width t /\ 0 <= SnapTarget.height t
       /\ (Annotation.inside viewport a ->
             0 <= SnapTarget.x t /\ SnapTarget.x t + SnapTarget.width t <= 100
             /\ 0 <= SnapTarget.y t /\ SnapTarget.y t + SnapTarget.height t <= 100).
Proof.
  intros Hw Hh. split; [intros t; apply newTargets_In|].
  intros a t. subst t.
  unfold Annotation.toTarget, Annotation.inside.
  destruct a as [sub [[[x1 y1] x2] y2]]; cbn [Annotation.rect SnapTarget.x SnapTarget.y
    SnapTarget.width SnapTarget.height].
  split; [apply percent_nonneg; [exact Hw | apply Qabs_nonneg]|].
  split; [apply percent_nonneg; [exact Hh | apply Qabs_nonneg]|].
  intros [[Hx1 Hx2] [Hy1 Hy2]].
  rewrite !percent_plus by lra.
  repeat split.
  - apply percent_nonneg; [exact Hw | qclamp].
  - apply percent_le; [exact Hw | qclamp].
  - apply percent_nonneg; [exact Hh | qclamp].
  - apply percent_le; [exact Hh | qclamp].
Qed.

Lemma widgets_become_targets_on_the_page_witness :
  let t := Annotation.toTarget Samples.viewport Samples.widget in
  In t (Annotation.newTargets Samples.viewport Samples.annotations)
  /\ SnapTarget.x t + SnapTarget.width t <= 100
  /\ SnapTarget.y t + SnapTarget.height t <= 100.
Proof.
  intros t.
  destruct (widgets_become_targets_on_the_page Samples.viewport Samples.annotations)
    as [Hin Hall]; [reflexivity | reflexivity |].
  split.
  - apply Hin. exists Samples.widget. split; [right; left; reflexivity|]. by split.
  - destruct (Hall Samples.widget) as (_ & _ & H).
    assert (Hi : Annotation.inside Samples.viewport Samples.widget).
    { unfold Annotation.inside, Samples.widget, Samples.viewport; simpl.
      repeat split; apply Qle_bool_imp_le; reflexivity. }
    destruct (H Hi) as (_ & H1 & _ & H2). by split.
Defined.

End AnnotationFacts.

(** ** One-step edits and the history *)

Module EditFacts.
Import QMore.
Local Open Scope Q_scope.

Lemma ed_with_ed e st : App.ed (App.with_ed e st) = e.
Proof. reflexivity. Qed.

Lemma ed_undo st : App.ed (App.undo st) = History.undo (App.ed st).
Proof. reflexivity. Qed.

Lemma ed_redo st : App.ed (App.redo st) = History.redo (App.ed st).
Proof. reflexivity. Qed.

(** One undo after a state [st'] whose history is that of [st] with the
    live state of [st] recorded. *)
Lemma undo_after_record st st' :
  App.history st' = History.record (History.live (App.ed st)) (App.history st) ->
  App.ed (App.undo st')
  = {| History.signatures := App.signatures st;
       History.drawings := App.drawings st;
       History.history := {| History.past := History.past (App.history st);
                             History.future := [History.live (App.ed st')] |} |}.
Proof.
  intros H. rewrite ed_undo.
  rewrite (HistoryFacts.undo_snoc (App.ed st') (History.past (App.history st))
             (History.live (App.ed st))).
  - unfold App.history in H. rewrite H. reflexivity.
  - unfold App.history in H. rewrite H. reflexivity.
Qed.

Lemma redo_after_undo st' e h :
  App.history st' = History.record e h ->
  App.ed (App.redo (App.undo st')) = App.ed st'.
Proof.
  intros H. rewrite ed_redo, ed_undo. apply HistoryFacts.redo_undo.
  unfold App.history in H. rewrite H. simpl. by destruct (History.past h).
Qed.

Lemma apply_history a st :
  Edits.proceeds a st = true ->
  App.history (Edits.apply a st)
  = History.record (History.live (App.ed st)) (App.history st).
Proof.
  destruct a; simpl; intros H.
  - unfold Edit.handleSaveSignature. by destruct (Edit.truthy _).
  - unfold Edit.handleSaveStyle. by rewrite H.
  - reflexivity.
  - reflexivity.
  - unfold Edit.deleteSignature. destruct (App.selectedSigId st) as [j|]; [|done].
    by destruct (String.eqb j i).
  - unfold Edit.handleDuplicateSignature. by destruct (find _ _).
Qed.

Lemma apply_stops a st : Edits.proceeds a st = false -> Edits.apply a st = st.
Proof.
  destruct a; simpl; try discriminate; intros H.
  - unfold Edit.handleSaveStyle. by rewrite H.
  - unfold Edit.handleDuplicateSignature. by destruct (find _ _).
Qed.

(** X5.  Every one-step edit (saving a signature or a style, adding a
    stroke, clearing the page, deleting and duplicating an element)
    either returns early and leaves the whole state as it is, or records
    the state before it: one undo then shows the signatures and the
    drawings of before the edit, with the edited state as the only thing
    to redo, and one redo after that brings the edited state back. *)
Theorem undo_takes_back_an_edit a st :
  (Edits.proceeds a st = false -> Edits.apply a st = st)
  /\ (Edits.proceeds a st = true ->
        let st' := Edits.apply a st in
        App.signatures (App.undo st') = App.signatures st
        /\ App.drawings (App.undo st') = App.drawings st
        /\ History.past (App.history (App.undo st')) = History.past (App.history st)
        /\ History.future (App.history (App.undo st')) = [History.live (App.ed st')]
        /\ App.ed (App.redo (App.undo st')) = App.ed st').
Proof.
  split; [apply apply_stops|].
  intros H st'. pose proof (apply_history a st H) as Hh. fold st' in Hh.
  pose proof (undo_after_record st st' Hh) as Hu.
  unfold App.signatures, App.drawings, App.history. rewrite Hu. simpl.
  repeat split. by eapply redo_after_undo.
Qed.

Lemma undo_takes_back_an_edit_witness :
  App.signatures (App.undo (Edit.deleteSignature "a" (Examples.page [Examples.fresh])))
  = [Examples.fresh].
Proof.
  destruct (undo_takes_back_an_edit (Edits.Delete "a") (Examples.page [Examples.fresh]))
    as [_ H].
  destruct H as (H & _); [reflexivity | exact H].
Defined.

Lemma find_id_Some (l : Signatures) i s :
  find (fun s => String.eqb (SignatureElement.id s) i) l = Some s ->
  In s l /\ SignatureElement.id s = i.
Proof.
  intros H. apply find_some in H as [Hin He]. split; [exact Hin|].
  by apply String.eqb_eq.
Qed.

(** X6.  Duplicating an element that exists appends one copy as the
    last element and selects it.  The copy has the new id and the image,
    page, width, aspect ratio, rotation and opacity of the original; it
    is offset by 2 to the right and down, except that neither coordinate
    is put beyond 90: the copy of an element at 88 or more lands at 90.
    The elements that were there and the drawings are left as they are. *)
Theorem duplicate_appends_an_offset_copy sigId uuid st original :
  find (fun s => String.eqb (SignatureElement.id s) sigId) (App.signatures st)
  = Some original ->
  let st' := Edit.handleDuplicateSignature sigId uuid st in
  exists copy,
    App.signatures st' = App.signatures st ++ [copy]
    /\ App.drawings st' = App.drawings st
    /\ App.selectedSigId st' = Some uuid
    /\ SignatureElement.id copy = uuid
    /\ SignatureElement.dataUrl copy = SignatureElement.dataUrl original
    /\ SignatureElement.pageIndex copy = SignatureElement.pageIndex original
    /\ SignatureElement.width copy = SignatureElement.width original
    /\ SignatureElement.aspectRatio copy = SignatureElement.aspectRatio original
    /\ SignatureElement.rotation copy = SignatureElement.rotation original
    /\ SignatureElement.opacity copy = SignatureElement.opacity original
    /\ SignatureElement.x copy <= 90 /\ SignatureElement.y copy <= 90
    /\ (SignatureElement.x original <= 88 ->
          SignatureElement.x copy == SignatureElement.x original + 2)
    /\ (88 <= SignatureElement.x original -> SignatureElement.x copy == 90)
    /\ (SignatureElement.y original <= 88 ->
          SignatureElement.y copy == SignatureElement.y original + 2)
    /\ (88 <= SignatureElement.y original -> SignatureElement.y copy == 90).
Proof.
  intros Hf st'. subst st'. unfold Edit.handleDuplicateSignature. rewrite Hf.
  eexists. split; [reflexivity|]. cbn [SignatureElement.id SignatureElement.dataUrl
    SignatureElement.pageIndex SignatureElement.width SignatureElement.aspectRatio
    SignatureElement.rotation SignatureElement.opacity SignatureElement.x
    SignatureElement.y].
  conjuncts; try reflexivity; qclamp.
Qed.

Lemma duplicate_appends_an_offset_copy_witness :
  exists copy,
    App.signatures (Edit.handleDuplicateSignature "a" "b" (Examples.page [Examples.low]))
    = [Examples.low; copy]
    /\ SignatureElement.x copy == 42 /\ SignatureElement.y copy == 90.
Proof.
  destruct (duplicate_appends_an_offset_copy "a" "b" (Examples.page [Examples.low])
              Examples.low eq_refl)
    as (copy & Hs & _ & _ & _ & _ & _ & _ & _ & _ & _ & _ & _ & Hx & _ & _ & Hy).
  exists copy. split; [exact Hs|]. split.
  - rewrite Hx; [reflexivity | apply Qle_bool_imp_le; reflexivity].
  - apply Hy. apply Qle_bool_imp_le; reflexivity.
Defined.

(** X7.  While the free-draw mode is on, a pointer-down on a signature
    starts no drag, whatever moves and pointer-up follow, and a double
    click opens no dialog: the state stays as it is.  The switch flips
    the mode; switching it on clears the selection and switching it off
    keeps it. *)
Theorem free_draw_mode_locks_the_signatures st :
  (App.isFreeDrawMode st = true ->
     (forall clientX clientY i moves, Drag.session clientX clientY i moves st = st)
     /\ (forall i v, View.app v = st -> View.handleDoubleClick i v = v)
     /\ App.selectedSigId (View.handleToggleFreeDraw st) = App.selectedSigId st)
  /\ (App.isFreeDrawMode st = false ->
        App.selectedSigId (View.handleToggleFreeDraw st) = None)
  /\ App.isFreeDrawMode (View.handleToggleFreeDraw st) = negb (App.isFreeDrawMode st)
  /\ App.ed (View.handleToggleFreeDraw st) = App.ed st.
Proof.
  split; [|split; [|split]].
  - intros H. split; [|split].
    + intros. unfold Drag.session, Drag.handleDragStart. by rewrite H.
    + intros i v <-. unfold View.handleDoubleClick. by rewrite H.
    + unfold View.handleToggleFreeDraw. by rewrite H.
  - intros H. unfold View.handleToggleFreeDraw. by rewrite H.
  - unfold View.handleToggleFreeDraw. by destruct (App.isFreeDrawMode st).
  - unfold View.handleToggleFreeDraw. by destruct (App.isFreeDrawMode st).
Qed.

Lemma free_draw_mode_locks_the_signatures_witness :
  let st := View.handleToggleFreeDraw (Examples.page [Examples.fresh]) in
  Drag.session 300 400 "a" [(360, 480)] st = st.
Proof.
  intros st.
  destruct (free_draw_mode_locks_the_signatures st) as [H _].
  destruct H as (H & _); [reflexivity|]. apply H.
Defined.

Lemma filter_sublist {A} (f : A -> bool) (l : list A) : sublist (List.filter f l) l.
Proof.
  induction l as [|a l IH]; simpl; [constructor|].
  destruct (f a); by constructor.
Qed.

(** X8.  Confirming the delete dialog always closes it.  With no element
    named in it nothing else changes.  With an element named, exactly
    the elements with that id are gone, the others are kept in their
    order, the drawings are untouched, and the selection is cleared if it
    was on the deleted element and kept otherwise. *)
Theorem confirmed_delete_removes_the_element v :
  let v' := View.handleConfirmDelete v in
  View.deleteConfirm v' = DeleteConfirm.closed
  /\ (Edit.truthy (DeleteConfirm.sigId (View.deleteConfirm v)) = false ->
        View.app v' = View.app v)
  /\ (forall i,
        DeleteConfirm.sigId (View.deleteConfirm v) = Some i -> i <> EmptyString ->
        (forall s, In s (App.signatures (View.app v'))
                   <-> In s (App.signatures (View.app v)) /\ SignatureElement.id s <> i)
        /\ sublist (App.signatures (View.app v')) (App.signatures (View.app v))
        /\ App.drawings (View.app v') = App.drawings (View.app v)
        /\ (App.selectedSigId (View.app v) = Some i ->
              App.selectedSigId (View.app v') = None)
        /\ (App.selectedSigId (View.app v) <> Some i ->
              App.selectedSigId (View.app v') = App.selectedSigId (View.app v))).
Proof.
  intros v'. subst v'. unfold View.handleConfirmDelete.
  split; [reflexivity|]. split.
  - intros H. by rewrite H.
  - intros i Hi Hne. rewrite Hi.
    assert (Ht : Edit.truthy (Some i) = true).
    { simpl. apply negb_true_iff. by apply String.eqb_neq. }
    rewrite Ht. cbn [View.app View.setDeleteConfirm View.with_app].
    set (st := View.app v).
    assert (Hs : App.signatures (Edit.deleteSignature i st)
                 = List.filter (fun s => negb (String.eqb (SignatureElement.id s) i))
                     (App.signatures st)).
    { unfold Edit.deleteSignature. destruct (App.selectedSigId st) as [j|]; [|done].
      by destruct (String.eqb j i). }
    rewrite Hs. split; [|split; [|split; [|split]]].
    + intros s. rewrite filter_In, negb_true_iff, String.eqb_neq. tauto.
    + apply filter_sublist.
    + unfold Edit.deleteSignature. destruct (App.selectedSigId st) as [j|]; [|done].
      by destruct (String.eqb j i).
    + intros Hsel. unfold Edit.deleteSignature. by rewrite Hsel, String.eqb_refl.
    + intros Hsel. unfold Edit.deleteSignature.
      destruct (App.selectedSigId st) as [j|] eqn:E; [|done].
      destruct (String.eqb_spec j i) as [-> | Hji]; [congruence | done].
Qed.

Lemma confirmed_delete_removes_the_element_witness :
  App.drawings (View.app (View.handleConfirmDelete Samples.confirming))
  = App.drawings (View.app Samples.confirming)
  /\ App.selectedSigId (View.app (View.handleConfirmDelete Samples.confirming)) = None.
Proof.
  destruct (confirmed_delete_removes_the_element Samples.confirming) as (_ & _ & H).
  destruct (H "a"%string eq_refl) as (_ & _ & Hd & Hsel & _); [discriminate|].
  split; [exact Hd | by apply Hsel].
Defined.

Lemma undo_cleared st : App.undo (View.cleared st) = View.cleared st.
Proof. reflexivity. Qed.

Lemma redo_cleared st : App.redo (View.cleared st) = View.cleared st.
Proof. reflexivity. Qed.

(** X9.  Reset and a successful load of a PDF leave an editor without
    signatures, drawings and history on page 1, in which undo and redo
    do nothing: what was there before cannot be brought back.  A file
    that is not of type application/pdf, or no file at all, changes
    nothing.  A PDF that fails to load becomes the current file and
    clears the thumbnails, but the document, the page count, the
    signatures, the drawings and the history of before stay in place. *)
Theorem loading_and_resetting v load :
  (let v' := View.handleReset v in
   App.ed (View.app v')
   = {| History.signatures := []; History.drawings := ∅;
        History.history := History.empty |}
   /\ App.pageNum (View.app v') = 1%Z
   /\ View.file v' = None /\ View.pdfDoc v' = None /\ View.thumbnails v' = []
   /\ App.undo (View.app v') = View.app v' /\ App.redo (View.app v') = View.app v')
  /\ View.handleFileChange None load v = v
  /\ View.handleFileChange (Some []) load v = v
  /\ forall f rest,
       let v' := View.handleFileChange (Some (f :: rest)) load v in
       (File.type f <> "application/pdf"%string -> v' = v)
       /\ (File.type f = "application/pdf"%string ->
             forall numPages, load f = Some numPages ->
             App.ed (View.app v')
             = {| History.signatures := []; History.drawings := ∅;
                  History.history := History.empty |}
             /\ App.pageNum (View.app v') = 1%Z
             /\ View.file v' = Some f /\ View.pdfDoc v' = Some numPages
             /\ View.totalPages v' = numPages
             /\ App.undo (View.app v') = View.app v'
             /\ App.redo (View.app v') = View.app v')
       /\ (File.type f = "application/pdf"%string -> load f = None ->
             View.app v' = View.app v
             /\ View.file v' = Some f /\ View.thumbnails v' = []
             /\ View.pdfDoc v' = View.pdfDoc v
             /\ View.totalPages v' = View.totalPages v).
Proof.
  split; [by repeat split|]. split; [reflexivity|]. split; [reflexivity|].
  intros f rest v'. subst v'. unfold View.handleFileChange.
  split; [|split].
  - intros H. apply String.eqb_neq in H. by rewrite H.
  - intros H n Hl. rewrite H, Hl. by repeat split.
  - intros H Hl. rewrite H, Hl. by repeat split.
Qed.

Lemma loading_and_resetting_witness :
  View.app (View.handleFileChange (Some [File.mk "scan.pdf" "application/pdf"])
              (fun _ => None) Samples.confirming)
  = View.app Samples.confirming
  /\ View.handleFileChange (Some [File.mk "scan.png" "image/png"])
       (fun _ => None) Samples.confirming
     = Samples.confirming.
Proof.
  destruct (loading_and_resetting Samples.confirming (fun _ => None)) as (_ & _ & _ & H).
  split.
  - destruct (H (File.mk "scan.pdf" "application/pdf") []) as (_ & _ & H3).
    by destruct H3.
  - destruct (H (File.mk "scan.png" "image/png") []) as (H1 & _).
    by apply H1.
Defined.

(** X10.  Ctrl+Z or Cmd+Z undoes and Ctrl+Y or Cmd+Y redoes; any other
    key, or z and y without one of the two modifiers, leaves the state as
    it is.  When there is something to undo, Ctrl+Z followed by Ctrl+Y
    gives back the signatures, the drawings and the history of before. *)
Theorem undo_and_redo_keys e st :
  let modifier := (Keyboard.ctrlKey e || Keyboard.metaKey e) in
  (modifier = true -> Keyboard.key e = "z"%string ->
     Keyboard.handleKeyDown e st = App.undo st)
  /\ (modifier = true -> Keyboard.key e = "y"%string ->
        Keyboard.handleKeyDown e st = App.redo st)
  /\ (modifier = false -> Keyboard.handleKeyDown e st = st)
  /\ (Keyboard.key e <> "z"%string -> Keyboard.key e <> "y"%string ->
        Keyboard.handleKeyDown e st = st)
  /\ (History.past (App.history st) <> [] ->
        forall z y,
          Keyboard.key z = "z"%string -> Keyboard.ctrlKey z = true ->
          Keyboard.key y = "y"%string -> Keyboard.ctrlKey y = true ->
          App.ed (Keyboard.handleKeyDown y (Keyboard.handleKeyDown z st)) = App.ed st).
Proof.
  intros modifier. subst modifier. unfold Keyboard.handleKeyDown.
  split; [|split; [|split; [|split]]].
  - intros -> ->. reflexivity.
  - intros -> ->. reflexivity.
  - intros ->. reflexivity.
  - intros Hz Hy. apply String.eqb_neq in Hz, Hy. rewrite Hz, Hy.
    by rewrite !andb_false_r.
  - intros Hp z y Hz Hcz Hy Hcy. rewrite Hz, Hcz, Hy, Hcy.
    cbn -[App.undo App.redo App.ed].
    rewrite ed_redo, ed_undo. by apply HistoryFacts.redo_undo.
Qed.

Lemma undo_and_redo_keys_witness :
  let st := Edit.handleClearPage (Examples.page [Examples.fresh]) in
  App.ed (Keyboard.handleKeyDown (Keyboard.mkEvent true false "y")
            (Keyboard.handleKeyDown (Keyboard.mkEvent true false "z") st))
  = App.ed st.
Proof.
  intros st.
  destruct (undo_and_redo_keys (Keyboard.mkEvent true false "z") st) as (_ & _ & _ & _ & H).
  apply H; [discriminate | reflexivity ..].
Defined.

End EditFacts.

(** ** Gestures: what a session changes and what it depends on *)

Module FrameFacts.

Lemma only_refl i (change : SignatureElement.t -> SignatureElement.t -> Prop) l :
  (forall s, change s s) -> Frame.only i change l l.
Proof. intros H. induction l; constructor; [by split | done]. Qed.

Lemma only_map i (change : SignatureElement.t -> SignatureElement.t -> Prop) f l :
  (forall s, change s (f s) /\ (SignatureElement.id s <> i -> f s = s)) ->
  Frame.only i change l (map f l).
Proof. intros H. induction l; simpl; constructor; [apply H | done]. Qed.

Lemma only_trans i (change : SignatureElement.t -> SignatureElement.t -> Prop) l1 l2 l3 :
  (forall a b c, change a b -> change b c -> change a c) ->
  (forall a b, change a b -> SignatureElement.id b = SignatureElement.id a) ->
  Frame.only i change l1 l2 -> Frame.only i change l2 l3 -> Frame.only i change l1 l3.
Proof.
  intros Ht Hid H12. revert l3.
  induction H12 as [|a b l1 l2 [Hab Ha] _ IH]; intros l3 H23;
    inversion H23 as [|b' c l2' l3' [Hbc Hb] Hrest]; subst; constructor.
  - split; [by eapply Ht|]. intros Hne.
    rewrite Hb, Ha; trivial. by rewrite (Hid a b Hab).
  - by apply IH.
Qed.

Lemma moved_refl s : Frame.moved s s.
Proof. by destruct s. Qed.

Lemma resized_refl s : Frame.resized s s.
Proof. by destruct s. Qed.

Lemma turned_refl s : Frame.turned s s.
Proof. by destruct s. Qed.

Lemma moved_trans a b c : Frame.moved a b -> Frame.moved b c -> Frame.moved a c.
Proof. unfold Frame.moved. intros Hab ->. rewrite Hab at 1 2 3 4 5 6 7. reflexivity. Qed.

Lemma resized_trans a b c : Frame.resized a b -> Frame.resized b c -> Frame.resized a c.
Proof. unfold Frame.resized. intros Hab ->. rewrite Hab at 1 2 3 4 5. reflexivity. Qed.

Lemma turned_trans a b c : Frame.turned a b -> Frame.turned b c -> Frame.turned a c.
Proof. unfold Frame.turned. intros Hab ->. rewrite Hab at 1 2 3 4 5 6 7 8. reflexivity. Qed.

Lemma moved_id a b : Frame.moved a b -> SignatureElement.id b = SignatureElement.id a.
Proof. by intros ->. Qed.

Lemma resized_id a b : Frame.resized a b -> SignatureElement.id b = SignatureElement.id a.
Proof. by intros ->. Qed.

Lemma turned_id a b : Frame.turned a b -> SignatureElement.id b = SignatureElement.id a.
Proof. by intros ->. Qed.

End FrameFacts.

Module GestureFacts.
Import QMore FrameFacts.
Local Open Scope Q_scope.

(** *** Drag *)

Lemma drag_place_frame d r s :
  Frame.moved s (Drag.place d r s)
  /\ (SignatureElement.id s <> Drag.id d -> Drag.place d r s = s).
Proof.
  unfold Drag.place, Frame.moved.
  destruct (String.eqb_spec (SignatureElement.id s) (Drag.id d)) as [E | E].
  - split; [reflexivity | congruence].
  - split; [by destruct s | reflexivity].
Qed.

Lemma drag_moved_frame d moves st :
  Frame.only (Drag.id d) Frame.moved (App.signatures st)
    (App.signatures (Drag.moved d moves st))
  /\ App.drawings (Drag.moved d moves st) = App.drawings st.
Proof.
  unfold Drag.moved. revert st. induction moves as [|m l IH]; intros st; simpl.
  - split; [apply only_refl, moved_refl | reflexivity].
  - destruct (IH (Drag.moveHandler d (fst m) (snd m) st)) as [H1 H2]. split.
    + eapply only_trans; [apply moved_trans | apply moved_id | | exact H1].
      rewrite DragFacts.moveHandler_signatures. apply only_map, drag_place_frame.
    + by rewrite H2.
Qed.

Lemma commit_drawings st : App.drawings (Commit.commit st) = App.drawings st.
Proof.
  unfold Commit.commit. destruct (App.historyStartRef st); [|done].
  by destruct (Commit.hasChanged _ _).
Qed.

Lemma drag_session_frame clientX clientY i moves st :
  Frame.only i Frame.moved (App.signatures st)
    (App.signatures (Drag.session clientX clientY i moves st))
  /\ App.drawings (Drag.session clientX clientY i moves st) = App.drawings st.
Proof.
  unfold Drag.session.
  destruct (Drag.handleDragStart clientX clientY i st) as [st' [d|]] eqn:E.
  - destruct (DragFacts.handleDragStart_Some _ _ _ _ _ _ E) as (Hs & Hi & _).
    rewrite DragFacts.upHandler_signatures.
    destruct (drag_moved_frame d moves st') as [H1 H2].
    rewrite Hi, Hs in H1. split; [exact H1|].
    unfold Drag.upHandler. rewrite commit_drawings.
    change (App.drawings (App.setSnapLines [] (Drag.moved d moves st')))
      with (App.drawings (Drag.moved d moves st')). rewrite H2.
    revert E. unfold Drag.handleDragStart.
    destruct (App.isFreeDrawMode st); [congruence|].
    destruct (_ || _); [congruence|].
    destruct (App.canvasRect st); [|congruence].
    destruct (find _ _); [|congruence]. by intros [= <- _].
  - assert (Hed : App.ed st' = App.ed st).
    { revert E. unfold Drag.handleDragStart.
      destruct (App.isFreeDrawMode st); [by intros [= <-]|].
      destruct (_ || _); [by intros [= <-]|].
      destruct (App.canvasRect st); [|by intros [= <-]].
      destruct (find _ _); [congruence | by intros [= <-]]. }
    unfold App.signatures, App.drawings. rewrite Hed.
    split; [apply only_refl, moved_refl | reflexivity].
Qed.

(** *** Resize *)

Lemma resize_place_frame e b s :
  Frame.resized s (Resize.place e b s)
  /\ (SignatureElement.id s <> SignatureElement.id e -> Resize.place e b s = s).
Proof.
  unfold Resize.place, Frame.resized.
  destruct (String.eqb_spec (SignatureElement.id s) (SignatureElement.id e)) as [E | E].
  - split; [reflexivity | congruence].
  - split; [by destruct s | reflexivity].
Qed.

Lemma resize_handleMove_frame clientX clientY st e :
  ResizeMode.startSig (App.resizeMode st) = Some e ->
  Frame.only (SignatureElement.id e) Frame.resized (App.signatures st)
    (App.signatures (Resize.handleMove clientX clientY st))
  /\ App.drawings (Resize.handleMove clientX clientY st) = App.drawings st
  /\ App.resizeMode (Resize.handleMove clientX clientY st) = App.resizeMode st.
Proof.
  intros He. unfold Resize.handleMove. rewrite He.
  destruct (negb _); [|destruct (App.canvasRect st)].
  - split; [apply only_refl, resized_refl | by split].
  - split; [|by split]. apply only_map, resize_place_frame.
  - split; [apply only_refl, resized_refl | by split].
Qed.

Lemma resize_moved_frame moves st e :
  ResizeMode.startSig (App.resizeMode st) = Some e ->
  Frame.only (SignatureElement.id e) Frame.resized (App.signatures st)
    (App.signatures (Resize.moved moves st))
  /\ App.drawings (Resize.moved moves st) = App.drawings st.
Proof.
  unfold Resize.moved. revert st. induction moves as [|m l IH]; intros st He; simpl.
  - split; [apply only_refl, resized_refl | reflexivity].
  - destruct (resize_handleMove_frame (fst m) (snd m) st e He) as (H1 & H2 & H3).
    destruct (IH (Resize.handleMove (fst m) (snd m) st)) as [H4 H5]; [by rewrite H3|].
    split; [|by rewrite H5].
    eapply only_trans; [apply resized_trans | apply resized_id | exact H1 | exact H4].
Qed.

Lemma handleUp_drawings st : App.drawings (Resize.handleUp st) = App.drawings st.
Proof.
  unfold Resize.handleUp. destruct (negb _); [done|].
  destruct (ResizeMode.startSig _); [|done].
  destruct (App.canvasRect st); [|done].
  by rewrite commit_drawings.
Qed.

Lemma resize_session_frame clientX clientY e handle moves st :
  Frame.only (SignatureElement.id e) Frame.resized (App.signatures st)
    (App.signatures (Resize.session clientX clientY e handle moves st))
  /\ App.drawings (Resize.session clientX clientY e handle moves st) = App.drawings st.
Proof.
  unfold Resize.session.
  rewrite ResizeFacts.handleUp_signatures, handleUp_drawings.
  apply (resize_moved_frame moves (Resize.handleResizeStart clientX clientY e handle st) e).
  reflexivity.
Qed.

(** *** Rotate *)

Lemma turn_frame m r s i :
  RotateMode.sigId m = Some i ->
  Frame.turned s (Rotate.turn m r s)
  /\ (SignatureElement.id s <> i -> Rotate.turn m r s = s).
Proof.
  intros Hm. unfold Rotate.turn, Frame.turned. rewrite Hm.
  destruct (String.eqb_spec (SignatureElement.id s) i) as [E | E].
  - split; [reflexivity | congruence].
  - split; [by destruct s | reflexivity].
Qed.

Lemma handleRotateMove_frame g st i :
  RotateMode.sigId (App.rotateMode st) = Some i ->
  Frame.only i Frame.turned (App.signatures st)
    (App.signatures (Rotate.handleRotateMove g st))
  /\ App.drawings (Rotate.handleRotateMove g st) = App.drawings st
  /\ App.rotateMode (Rotate.handleRotateMove g st) = App.rotateMode st.
Proof.
  intros Hi. unfold Rotate.handleRotateMove.
  destruct (negb _); [|destruct (RotateMode.center _)].
  - split; [apply only_refl, turned_refl | by split].
  - split; [|by split]. apply only_map. intros s. by apply turn_frame.
  - split; [apply only_refl, turned_refl | by split].
Qed.

Lemma rotate_moved_frame angles st i :
  RotateMode.sigId (App.rotateMode st) = Some i ->
  Frame.only i Frame.turned (App.signatures st)
    (App.signatures (fold_left (fun a g => Rotate.handleRotateMove g a) angles st))
  /\ App.drawings (fold_left (fun a g => Rotate.handleRotateMove g a) angles st)
     = App.drawings st.
Proof.
  revert st. induction angles as [|g l IH]; intros st Hi; simpl.
  - split; [apply only_refl, turned_refl | reflexivity].
  - destruct (handleRotateMove_frame g st i Hi) as (H1 & H2 & H3).
    destruct (IH (Rotate.handleRotateMove g st)) as [H4 H5]; [by rewrite H3|].
    split; [|by rewrite H5].
    eapply only_trans; [apply turned_trans | apply turned_id | exact H1 | exact H4].
Qed.

Lemma handleRotateUp_ed st :
  App.signatures (Rotate.handleRotateUp st) = App.signatures st
  /\ App.drawings (Rotate.handleRotateUp st) = App.drawings st.
Proof.
  unfold Rotate.handleRotateUp. destruct (negb _); [done|].
  destruct (RotateMode.center _); [|done].
  by rewrite DragFacts.commit_signatures, commit_drawings.
Qed.

Lemma rotate_session_frame center startAngle e angles st :
  Frame.only (SignatureElement.id e) Frame.turned (App.signatures st)
    (App.signatures (Rotate.session center startAngle e angles st))
  /\ App.drawings (Rotate.session center startAngle e angles st) = App.drawings st.
Proof.
  unfold Rotate.session.
  destruct (handleRotateUp_ed
              (fold_left (fun a g => Rotate.handleRotateMove g a) angles
                 (Rotate.handleRotateStart center startAngle e st))) as [-> ->].
  apply (rotate_moved_frame angles (Rotate.handleRotateStart center startAngle e st)).
  reflexivity.
Qed.

(** X11.  A drag, a resize and a rotate session, whatever the pointer
    does in it, keep the elements one for one and in their order, leave
    every element with another id than the grabbed one exactly as it was,
    and leave the drawings alone.  Of the grabbed element the drag changes
    at most [x] and [y], the resize at most [x], [y], [width] and
    [aspectRatio], and the rotation at most [rotation]. *)
Theorem gestures_touch_only_their_element st :
  (forall clientX clientY i moves,
     Frame.only i Frame.moved (App.signatures st)
       (App.signatures (Drag.session clientX clientY i moves st))
     /\ App.drawings (Drag.session clientX clientY i moves st) = App.drawings st)
  /\ (forall clientX clientY e handle moves,
        Frame.only (SignatureElement.id e) Frame.resized (App.signatures st)
          (App.signatures (Resize.session clientX clientY e handle moves st))
        /\ App.drawings (Resize.session clientX clientY e handle moves st)
           = App.drawings st)
  /\ (forall center startAngle e angles,
        Frame.only (SignatureElement.id e) Frame.turned (App.signatures st)
          (App.signatures (Rotate.session center startAngle e angles st))
        /\ App.drawings (Rotate.session center startAngle e angles st)
           = App.drawings st).
Proof.
  split; [|split]; intros.
  - apply drag_session_frame.
  - apply resize_session_frame.
  - apply rotate_session_frame.
Qed.

(** *** The last pointer position decides *)

Lemma isSibling_place d r s : Drag.isSibling d (Drag.place d r s) = Drag.isSibling d s.
Proof. unfold Drag.place. by destruct (String.eqb _ _). Qed.

Lemma sibling_place d r s : Drag.isSibling d s = true -> Drag.place d r s = s.
Proof.
  unfold Drag.isSibling, Drag.place.
  destruct (String.eqb (SignatureElement.id s) (Drag.id d)); [discriminate | done].
Qed.

Lemma siblings_place d r l :
  List.filter (Drag.isSibling d) (map (Drag.place d r) l)
  = List.filter (Drag.isSibling d) l.
Proof.
  induction l as [|a l IH]; simpl; [reflexivity|].
  rewrite isSibling_place, IH.
  destruct (Drag.isSibling d a) eqn:E; [|reflexivity].
  by rewrite sibling_place.
Qed.

(** The snap points do not depend on where the dragged element is. *)
Lemma snap_place d r l currentX currentY :
  Drag.snap d (map (Drag.place d r) l) currentX currentY = Drag.snap d l currentX currentY.
Proof.
  unfold Drag.snap, Drag.vSnapPoints, Drag.hSnapPoints. by rewrite siblings_place.
Qed.

Lemma place_place d r1 r2 s : Drag.place d r2 (Drag.place d r1 s) = Drag.place d r2 s.
Proof.
  unfold Drag.place. destruct (String.eqb (SignatureElement.id s) (Drag.id d)) eqn:E;
    simpl; by rewrite E.
Qed.

Lemma moveHandler_sync d currentX currentY st :
  App.signaturesRef (Drag.moveHandler d currentX currentY st)
  = App.signatures (Drag.moveHandler d currentX currentY st).
Proof. reflexivity. Qed.

Lemma moveHandler_again d x1 y1 x2 y2 st :
  App.signaturesRef st = App.signatures st ->
  Drag.moveHandler d x2 y2 (Drag.moveHandler d x1 y1 st) = Drag.moveHandler d x2 y2 st.
Proof.
  intros Hsync. unfold Drag.moveHandler at 1 3.
  change (App.signaturesRef (Drag.moveHandler d x1 y1 st))
    with (map (Drag.place d (Drag.snap d (App.signaturesRef st) x1 y1)) (App.signatures st)).
  rewrite snap_place, Hsync.
  set (r2 := Drag.snap d (App.signatures st) x2 y2).
  unfold Drag.moveHandler. set (r1 := Drag.snap d (App.signaturesRef st) x1 y1).
  unfold App.setSignatures, App.setSnapLines, App.with_ed, App.signatures, App.drawings,
    App.history. cbn [App.ed App.signaturesRef App.historyStartRef App.selectedSigId
    App.editingSigId App.isFreeDrawMode App.aspectRatioLocked App.resizeMode
    App.rotateMode App.snapTargets App.snapLines App.pageNum App.canvasRect
    History.signatures History.drawings History.history].
  rewrite map_map.
  rewrite (map_ext (fun x => Drag.place d r2 (Drag.place d r1 x)) (Drag.place d r2))
    by (intros; apply place_place).
  reflexivity.
Qed.

Lemma moved_last d moves m st :
  App.signaturesRef st = App.signatures st ->
  Drag.moved d (moves ++ [m]) st = Drag.moveHandler d (fst m) (snd m) st.
Proof.
  unfold Drag.moved. revert st. induction moves as [|m0 l IH]; intros st Hsync; simpl.
  - reflexivity.
  - rewrite IH by apply moveHandler_sync. by apply moveHandler_again.
Qed.

Lemma commit_snapLines st : App.snapLines (Commit.commit st) = App.snapLines st.
Proof.
  unfold Commit.commit. destruct (App.historyStartRef st); [|done].
  by destruct (Commit.hasChanged _ _).
Qed.

(** X12.  A drag that has started ends where its last move event puts
    the element: the state after any series of moves is the state after
    the last of them alone, and at pointer-up every element with the
    grabbed id has the position computed from the last pointer position,
    the element as it was at pointer-down and the snap points of the
    other elements of the page.  The guide lines are gone at pointer-up.
    (The ref [signaturesRef] is taken to hold the rendered signatures at
    pointer-down.) *)
Theorem last_move_decides_a_drag clientX clientY i moves m st st' d :
  Drag.handleDragStart clientX clientY i st = (st', Some d) ->
  App.signaturesRef st = App.signatures st ->
  Drag.moved d (moves ++ [m]) st' = Drag.moveHandler d (fst m) (snd m) st'
  /\ App.signatures (Drag.session clientX clientY i (moves ++ [m]) st)
     = map (Drag.place d (Drag.snap d (App.signatures st) (fst m) (snd m)))
         (App.signatures st)
  /\ App.snapLines (Drag.session clientX clientY i (moves ++ [m]) st) = [].
Proof.
  intros Hstart Hsync.
  assert (Hst' : App.signatures st' = App.signatures st
                 /\ App.signaturesRef st' = App.signaturesRef st).
  { revert Hstart. unfold Drag.handleDragStart.
    destruct (App.isFreeDrawMode st); [congruence|].
    destruct (_ || _); [congruence|].
    destruct (App.canvasRect st); [|congruence].
    destruct (find _ _); [|congruence]. by intros [= <- _]. }
  destruct Hst' as [Hs Hr].
  assert (Hsync' : App.signaturesRef st' = App.signatures st') by congruence.
  split; [by apply moved_last|].
  unfold Drag.session. rewrite Hstart, DragFacts.upHandler_signatures.
  rewrite (moved_last d moves m st' Hsync'), DragFacts.moveHandler_signatures.
  rewrite Hr, Hsync, Hs. split; [reflexivity|].
  unfold Drag.upHandler. by rewrite commit_snapLines.
Qed.

Lemma last_move_decides_a_drag_witness :
  App.signatures (Drag.session 300 400 "a" ([(360, 480)] ++ [(300, 400)])
                    (Examples.page [Examples.fresh]))
  = map (Drag.place (Examples.dragOf Examples.fresh)
           (Drag.snap (Examples.dragOf Examples.fresh) [Examples.fresh] 300 400))
      [Examples.fresh].
Proof.
  destruct (last_move_decides_a_drag 300 400 "a" [(360, 480)] (300, 400)
              (Examples.page [Examples.fresh])
              (fst (Drag.handleDragStart 300 400 "a" (Examples.page [Examples.fresh])))
              (Examples.dragOf Examples.fresh))
    as (_ & H & _); [reflexivity | reflexivity | exact H].
Defined.

Lemma resize_place_place e b1 b2 s :
  Resize.place e b2 (Resize.place e b1 s) = Resize.place e b2 s.
Proof.
  unfold Resize.place.
  destruct (String.eqb (SignatureElement.id s) (SignatureElement.id e)) eqn:E;
    simpl; by rewrite E.
Qed.

Lemma handleMove_again x1 y1 x2 y2 st :
  Resize.handleMove x2 y2 (Resize.handleMove x1 y1 st) = Resize.handleMove x2 y2 st.
Proof.
  unfold Resize.handleMove at 2.
  destruct (negb (ResizeMode.isResizing (App.resizeMode st))) eqn:E1; [reflexivity|].
  destruct (ResizeMode.startSig (App.resizeMode st)) as [e|] eqn:E2; [|reflexivity].
  destruct (App.canvasRect st) as [rect|] eqn:E3; [|reflexivity].
  unfold Resize.handleMove.
  cbn [App.resizeMode App.setSignatures App.with_ed App.canvasRect App.aspectRatioLocked].
  rewrite E1, E2, E3.
  unfold App.setSignatures, App.with_ed, App.signatures, App.drawings, App.history.
  cbn [App.ed App.signaturesRef App.historyStartRef App.selectedSigId
    App.editingSigId App.isFreeDrawMode App.aspectRatioLocked App.resizeMode
    App.rotateMode App.snapTargets App.snapLines App.pageNum App.canvasRect
    History.signatures History.drawings History.history].
  rewrite map_map.
  set (b1 := Resize.resized rect _ _ e x1 y1). set (b2 := Resize.resized rect _ _ e x2 y2).
  rewrite (map_ext (fun x => Resize.place e b2 (Resize.place e b1 x)) (Resize.place e b2))
    by (intros; apply resize_place_place).
  reflexivity.
Qed.

Lemma resize_moved_last moves m st :
  Resize.moved (moves ++ [m]) st = Resize.handleMove (fst m) (snd m) st.
Proof.
  unfold Resize.moved. revert st. induction moves as [|m0 l IH]; intros st; simpl.
  - reflexivity.
  - rewrite IH. apply handleMove_again.
Qed.

(** X13.  A resize ends where its last move event puts the element: the
    state after any series of moves is the state after the last of them
    alone, and at pointer-up every element with the id of the grabbed
    element has the box computed from the last pointer position and from
    the element as it was handed to [handleResizeStart]; the earlier
    positions of the pointer leave no trace.  (A canvas is mounted.) *)
Theorem last_move_decides_a_resize clientX clientY e handle moves m st rect :
  App.canvasRect st = Some rect ->
  let st0 := Resize.handleResizeStart clientX clientY e handle st in
  let b := Resize.resized rect (App.resizeMode st0) (App.aspectRatioLocked st) e
             (fst m) (snd m) in
  Resize.moved (moves ++ [m]) st0 = Resize.handleMove (fst m) (snd m) st0
  /\ App.signatures (Resize.session clientX clientY e handle (moves ++ [m]) st)
     = map (Resize.place e b) (App.signatures st)
  /\ (forall s, In s (App.signatures (Resize.session clientX clientY e handle
                                        (moves ++ [m]) st)) ->
                SignatureElement.id s = SignatureElement.id e ->
                SignatureElement.x s = Resize.newX b
                /\ SignatureElement.y s = Resize.newY b
                /\ SignatureElement.width s = Resize.newWidth b
                /\ SignatureElement.aspectRatio s = Resize.aspectRatio b).
Proof.
  intros Hrect st0 b.
  assert (Hsig : App.signatures (Resize.session clientX clientY e handle (moves ++ [m]) st)
                 = map (Resize.place e b) (App.signatures st)).
  { unfold Resize.session. rewrite ResizeFacts.handleUp_signatures.
    fold st0. rewrite resize_moved_last.
    rewrite (ResizeFacts.handleMove_active _ _ st0 e rect); [reflexivity .. | exact Hrect]. }
  split; [apply resize_moved_last|]. split; [exact Hsig|].
  intros s Hin Hid. rewrite Hsig in Hin.
  apply in_map_iff in Hin as (s0 & <- & _).
  rewrite ResizeFacts.resize_place_id in Hid. apply String.eqb_eq in Hid.
  unfold Resize.place. by rewrite Hid.
Qed.

Lemma last_move_decides_a_resize_witness :
  App.signatures (Resize.session 300 400 Examples.fresh "e" ([(500, 400)] ++ [(780, 400)])
                    (Examples.page [Examples.fresh]))
  = App.signatures Examples.resized.
Proof.
  destruct (last_move_decides_a_resize 300 400 Examples.fresh "e" [(500, 400)] (780, 400)
              (Examples.page [Examples.fresh]) Examples.canvas eq_refl)
    as (_ & H & _).
  destruct (last_move_decides_a_resize 300 400 Examples.fresh "e" [] (780, 400)
              (Examples.page [Examples.fresh]) Examples.canvas eq_refl)
    as (_ & H' & _).
  rewrite H. symmetry. exact H'.
Defined.

Lemma turn_turn m r1 r2 s : Rotate.turn m r2 (Rotate.turn m r1 s) = Rotate.turn m r2 s.
Proof.
  unfold Rotate.turn. destruct (RotateMode.sigId m) as [i|]; [|reflexivity].
  destruct (String.eqb (SignatureElement.id s) i) eqn:E; simpl; by rewrite E.
Qed.

Lemma handleRotateMove_again g1 g2 st :
  Rotate.handleRotateMove g2 (Rotate.handleRotateMove g1 st) = Rotate.handleRotateMove g2 st.
Proof.
  unfold Rotate.handleRotateMove at 2.
  destruct (negb (RotateMode.isRotating (App.rotateMode st))) eqn:E1; [reflexivity|].
  destruct (RotateMode.center (App.rotateMode st)) as [c|] eqn:E2; [|reflexivity].
  unfold Rotate.handleRotateMove.
  cbn [App.rotateMode App.setSignatures App.with_ed].
  rewrite E1, E2.
  unfold App.setSignatures, App.with_ed, App.signatures, App.drawings, App.history.
  cbn [App.ed App.signaturesRef App.historyStartRef App.selectedSigId
    App.editingSigId App.isFreeDrawMode App.aspectRatioLocked App.resizeMode
    App.rotateMode App.snapTargets App.snapLines App.pageNum App.canvasRect
    History.signatures History.drawings History.history].
  rewrite map_map.
  erewrite map_ext by (intros; apply turn_turn).
  reflexivity.
Qed.

Lemma rotate_moved_last angles g st :
  fold_left (fun a g => Rotate.handleRotateMove g a) (angles ++ [g]) st
  = Rotate.handleRotateMove g st.
Proof.
  revert st. induction angles as [|g0 l IH]; intros st; simpl.
  - reflexivity.
  - rewrite IH. apply handleRotateMove_again.
Qed.

(** X14.  A rotation ends at the angle of its last move event: at
    pointer-up every element with the id of the grabbed element has the
    rotation of that element at pointer-down plus the difference between
    the last angle of the pointer and its angle at pointer-down, neither
    reduced to 0..360 nor otherwise rounded; everything else about the
    elements is as before, and the angles in between leave no trace. *)
Theorem last_angle_decides_a_rotation center startAngle e angles g st :
  let after := App.signatures (Rotate.session center startAngle e (angles ++ [g]) st) in
  let newRotation := (SignatureElement.rotation e + (g - startAngle))%Q in
  after
  = map (Rotate.turn (App.rotateMode (Rotate.handleRotateStart center startAngle e st))
           newRotation)
      (App.signatures st)
  /\ (forall s, In s after -> SignatureElement.id s = SignatureElement.id e ->
                SignatureElement.rotation s = newRotation)
  /\ Frame.only (SignatureElement.id e) Frame.turned (App.signatures st) after.
Proof.
  intros after newRotation.
  assert (Hsig : after
    = map (Rotate.turn (App.rotateMode (Rotate.handleRotateStart center startAngle e st))
             newRotation) (App.signatures st)).
  { subst after. unfold Rotate.session.
    destruct (handleRotateUp_ed
                (fold_left (fun a g => Rotate.handleRotateMove g a) (angles ++ [g])
                   (Rotate.handleRotateStart center startAngle e st))) as [-> _].
    rewrite rotate_moved_last. reflexivity. }
  split; [exact Hsig|]. split.
  - intros s Hin Hid. rewrite Hsig in Hin.
    apply in_map_iff in Hin as (s0 & <- & _).
    revert Hid. unfold Rotate.turn. cbn [RotateMode.sigId App.rotateMode
      Rotate.handleRotateStart App.setRotateMode].
    destruct (String.eqb_spec (SignatureElement.id s0) (SignatureElement.id e)); [done|].
    intros; congruence.
  - apply rotate_session_frame.
Qed.

Lemma last_angle_decides_a_rotation_witness :
  map SignatureElement.rotation
    (App.signatures (Rotate.session (360, 460) (-170) Examples.turned ([10] ++ [170])
                       (Examples.page [Examples.turned])))
  = [370].
Proof.
  destruct (last_angle_decides_a_rotation (360, 460) (-170) Examples.turned [10] 170
              (Examples.page [Examples.turned])) as (H & _).
  cbv zeta in H. rewrite H. reflexivity.
Defined.

(** *** Resize: what stays in place *)

Ltac handles H :=
  repeat (destruct H as [<- | H]); [.. | destruct H].

Lemma guard_id b :
  1 <= Resize.newWidth b -> 0 <= Resize.newX b -> Resize.guard b = b.
Proof.
  intros Hw Hx. unfold Resize.guard.
  apply QFacts.Qltb_ge in Hw, Hx. rewrite Hw, Hx. by destruct b.
Qed.

(** X15.  With the aspect lock on, a resize by one of the four corner
    handles keeps the aspect ratio, and the new width is at least 1.
    The corner opposite to the handle stays where it was: the east
    handles leave [x] alone and the south handles [y]; a north handle
    moves [y] so that the bottom edge stays, and a west handle moves [x]
    so that the right edge stays, unless the left edge has reached the
    border of the page: then [x] is 0 and the right edge is pushed
    outwards.  (The canvas has a positive size, and the element starts
    with [x >= 0] and a positive aspect ratio.) *)
Theorem locked_resize_pins_the_far_corner rect m e clientX clientY h :
  ResizeMode.handle m = Some h ->
  In h ["nw"; "ne"; "sw"; "se"]%string ->
  0 < DOMRect.width rect -> 0 < DOMRect.height rect ->
  0 < SignatureElement.aspectRatio e ->
  0 <= SignatureElement.x e ->
  let b := Resize.resized rect m true e clientX clientY in
  let heightOf := fun w => Resize.getHPct rect w (SignatureElement.aspectRatio e) in
  Resize.aspectRatio b = SignatureElement.aspectRatio e
  /\ 1 <= Resize.newWidth b /\ 0 <= Resize.newX b
  /\ (includes "e" h = true -> Resize.newX b == SignatureElement.x e)
  /\ (includes "s" h = true -> Resize.newY b == SignatureElement.y e)
  /\ (includes "n" h = true ->
        Resize.newY b + heightOf (Resize.newWidth b)
        == SignatureElement.y e + heightOf (SignatureElement.width e))
  /\ (includes "w" h = true ->
        Resize.newX b + Resize.newWidth b
        == SignatureElement.x e + SignatureElement.width e
        \/ (Resize.newX b == 0
            /\ SignatureElement.x e + SignatureElement.width e <= Resize.newWidth b)).
Proof.
  intros Hm Hh _ _ _ Hx b heightOf.
  pose proof (ResizeFacts.resized_bounds rect m true e clientX clientY) as [Hb1 Hb2].
  fold b in Hb1, Hb2.
  split; [|split; [exact Hb2 | split; [exact Hb1|]]].
  { subst b. unfold Resize.resized, Resize.guard, Resize.locked. rewrite Hm.
    cbn [Resize.aspectRatio].
    destruct (handle_includes "n" (Some h)), (handle_includes "w" (Some h)),
      (handle_includes "e" (Some h)); reflexivity. }
  subst b heightOf. unfold Resize.resized, Resize.locked. rewrite Hm.
  set (dx := (clientX - fst (ResizeMode.startPos m)) / DOMRect.width rect * 100).
  handles Hh; cbn [handle_includes includes list_ascii_of_string existsb Ascii.eqb
    Bool.eqb orb];
    cbv zeta; cbn [Resize.newX Resize.newY Resize.newWidth Resize.newHeightPct
      Resize.aspectRatio]; unfold Resize.guard;
    cbn [Resize.newX Resize.newY Resize.newWidth Resize.newHeightPct Resize.aspectRatio];
    repeat match goal with
           | |- context [Qltb ?a ?b] =>
               let E := fresh "E" in
               destruct (Qltb a b) eqn:E;
               [apply QFacts.Qltb_lt in E | apply QFacts.Qltb_ge in E]
           end;
    conjuncts; try discriminate;
    try (set (h1 := Resize.getHPct rect _ _) in *; clearbody h1);
    try (set (h2 := Resize.getHPct rect _ _) in *; clearbody h2);
    first [ qclamp | left; qclamp | right; split; qclamp ].
Qed.

Lemma locked_resize_pins_the_far_corner_witness :
  let m := {| ResizeMode.isResizing := true; ResizeMode.handle := Some "nw"%string;
              ResizeMode.startPos := (240, 320); ResizeMode.startSig := Some Examples.fresh |} in
  let b := Resize.resized Examples.canvas m true Examples.fresh 180 300 in
  Resize.newX b + Resize.newWidth b == 60
  /\ Resize.newY b + Resize.getHPct Examples.canvas (Resize.newWidth b) 2
     == 40 + Resize.getHPct Examples.canvas 20 2.
Proof.
  intros m b.
  destruct (locked_resize_pins_the_far_corner Examples.canvas m Examples.fresh 180 300 "nw")
    as (_ & _ & _ & _ & _ & Hn & Hw).
  - reflexivity.
  - left. reflexivity.
  - reflexivity.
  - reflexivity.
  - reflexivity.
  - apply Qle_bool_imp_le. reflexivity.
  - split; [|exact (Hn eq_refl)].
    destruct (Hw eq_refl) as [H | [H _]]; [exact H|].
    exfalso. revert H. subst b m. vm_compute. discriminate.
Defined.




(** *** Snapping: how far and where to *)

(** A scan only appends guide lines, each at one of its candidates, and
    changes nothing unless it appends one. *)
Lemma scan_lines o pos offset targets acc :
  let acc' := fold_left (Drag.tryTarget o pos offset) targets acc in
  exists added,
    Drag.activeLines acc' = Drag.activeLines acc ++ added
    /\ Forall (fun line => SnapLine.orientation line = o
                           /\ In (SnapLine.position line) targets) added
    /\ (added = [] -> acc' = acc).
Proof.
  revert acc. induction targets as [|t l IH]; intros acc; simpl.
  - exists []. by rewrite app_nil_r.
  - destruct (IH (Drag.tryTarget o pos offset acc t)) as (added & H1 & H2 & H3).
    unfold Drag.tryTarget in *. cbv zeta in *.
    destruct (Qltb (Qabs (pos - t)) (Drag.minDiff acc)).
    + cbn [Drag.activeLines] in H1.
      exists ({| SnapLine.orientation := o; SnapLine.position := t |} :: added).
      split; [by rewrite H1, <- app_assoc|]. split; [|discriminate].
      constructor; [simpl; tauto|].
      eapply Forall_impl; [exact H2|]. simpl. intros ? [? ?]. tauto.
    + exists added. split; [exact H1|]. split; [|exact H3].
      eapply Forall_impl; [exact H2|]. simpl. intros ? [? ?]. tauto.
Qed.

Lemma snapAxis_lines o targets edges acc :
  let acc' := Drag.snapAxis o targets edges acc in
  exists added,
    Drag.activeLines acc' = Drag.activeLines acc ++ added
    /\ Forall (fun line => SnapLine.orientation line = o
                           /\ In (SnapLine.position line) targets) added
    /\ (added = [] -> acc' = acc).
Proof.
  revert acc. induction edges as [|e l IH]; intros acc; simpl.
  - exists []. by rewrite app_nil_r.
  - destruct (scan_lines o (Drag.next acc + e) e targets acc) as (a1 & H1 & H2 & H3).
    fold (Drag.tryEdge o targets acc e) in H1, H3.
    destruct (Drag.snapped (Drag.tryEdge o targets acc e)); [by exists a1|].
    destruct (IH (Drag.tryEdge o targets acc e)) as (a2 & H4 & H5 & H6).
    exists (a1 ++ a2). split; [by rewrite H4, H1, app_assoc|]. split.
    + apply Forall_app. by split.
    + intros Hnil. apply app_eq_nil in Hnil as [-> ->].
      rewrite H6, H3; reflexivity.
Qed.

(** One axis moves the position by less than the best distance it
    started from. *)
Lemma snapAxis_near o targets edges acc :
  Drag.snapped acc = false ->
  Drag.snapAxis o targets edges acc = acc
  \/ Qabs (Drag.next (Drag.snapAxis o targets edges acc) - Drag.next acc)
     < Drag.minDiff acc.
Proof.
  intros Hs.
  destruct (SnapFacts.snapAxis_nearest o targets edges acc Hs)
    as [[H _] | (pre & e & post & t & _ & _ & _ & Hlt & _ & Hal & _)]; [by left | right].
  revert Hlt. set (n := Drag.next (Drag.snapAxis o targets edges acc)) in *.
  intros Hlt.
  assert (E : Qabs (n - Drag.next acc) == Qabs (Drag.next acc + e - t)).
  { rewrite <- (Qabs_opp (n - Drag.next acc)). apply Qabs_wd. lra. }
  by rewrite E.
Qed.

(** X17.  Snapping moves the proposed position by less than the
    threshold of 0.5 on each axis.  Every guide line it shows is on one
    of the candidates of its axis: 0, 50, 100, an edge or the centre of
    another element of the page or of a form field.  When it shows no
    guide line, the position is the proposed one.  (The canvas has a
    positive size and the aspect ratios are positive, so that every
    division is one by a number that is not zero.) *)
Theorem snapping_stays_within_the_threshold d current currentX currentY :
  0 < DOMRect.width (Drag.canvasRect d) -> 0 < DOMRect.height (Drag.canvasRect d) ->
  0 < SignatureElement.aspectRatio (Drag.sig d) ->
  Forall (fun s => 0 < SignatureElement.aspectRatio s) current ->
  let r := Drag.snap d current currentX currentY in
  Qabs (Drag.nextX r - Drag.proposedX d currentX) < Drag.SNAP_THRESHOLD
  /\ Qabs (Drag.nextY r - Drag.proposedY d currentY) < Drag.SNAP_THRESHOLD
  /\ Forall (fun line =>
               match SnapLine.orientation line with
               | vertical => In (SnapLine.position line) (Drag.vSnapPoints d current)
               | horizontal => In (SnapLine.position line) (Drag.hSnapPoints d current)
               end) (Drag.lines r)
  /\ (Drag.lines r = [] ->
        Drag.nextX r = Drag.proposedX d currentX
        /\ Drag.nextY r = Drag.proposedY d currentY).
Proof.
  intros _ _ _ _ r. subst r. unfold Drag.snap. cbv zeta.
  cbn [Drag.nextX Drag.nextY Drag.lines].
  set (ax := {| Drag.minDiff := Drag.SNAP_THRESHOLD; Drag.next := Drag.proposedX d currentX;
                Drag.activeLines := []; Drag.snapped := false |}).
  set (ex := [0; SignatureElement.width (Drag.sig d) / 2; SignatureElement.width (Drag.sig d)]).
  set (sx := Drag.snapAxis vertical (Drag.vSnapPoints d current) ex ax).
  set (ay := {| Drag.minDiff := Drag.SNAP_THRESHOLD; Drag.next := Drag.proposedY d currentY;
                Drag.activeLines := Drag.activeLines sx; Drag.snapped := false |}).
  set (ey := [0; Drag.hPct d / 2; Drag.hPct d]).
  set (sy := Drag.snapAxis horizontal (Drag.hSnapPoints d current) ey ay).
  assert (Hzero : forall q, Qabs (q - q) < Drag.SNAP_THRESHOLD).
  { intros q. assert (E : Qabs (q - q) == 0) by (rewrite <- Qabs_wd with (x := 0); [reflexivity | lra]).
    rewrite E. reflexivity. }
  destruct (snapAxis_lines vertical (Drag.vSnapPoints d current) ex ax)
    as (lx & Hx1 & Hx2 & Hx3). fold sx in Hx1, Hx3. cbn [Drag.activeLines ax] in Hx1.
  destruct (snapAxis_lines horizontal (Drag.hSnapPoints d current) ey ay)
    as (ly & Hy1 & Hy2 & Hy3). fold sy in Hy1, Hy3. cbn [Drag.activeLines ay] in Hy1.
  split; [|split; [|split]].
  - destruct (snapAxis_near vertical (Drag.vSnapPoints d current) ex ax eq_refl) as [E | H].
    + fold sx in E. rewrite E. apply Hzero.
    + exact H.
  - destruct (snapAxis_near horizontal (Drag.hSnapPoints d current) ey ay eq_refl) as [E | H].
    + fold sy in E. rewrite E. apply Hzero.
    + exact H.
  - rewrite Hy1, Hx1. apply Forall_app. split.
    + eapply Forall_impl; [exact Hx2|]. simpl. by intros line [-> ?].
    + eapply Forall_impl; [exact Hy2|]. simpl. by intros line [-> ?].
  - intros Hnil. rewrite Hy1, Hx1 in Hnil. simpl in Hnil.
    apply app_eq_nil in Hnil as [-> ->].
    rewrite Hy3, Hx3; [by split | reflexivity | reflexivity].
Qed.

Lemma snapping_stays_within_the_threshold_witness :
  let r := Drag.snap (Examples.dragOnForm [Examples.field]) [Examples.fresh] 403 400 in
  Qabs (Drag.nextX r - Drag.proposedX (Examples.dragOnForm [Examples.field]) 403) < 0.5
  /\ Forall (fun line =>
               match SnapLine.orientation line with
               | vertical =>
                   In (SnapLine.position line)
                     (Drag.vSnapPoints (Examples.dragOnForm [Examples.field]) [Examples.fresh])
               | horizontal =>
                   In (SnapLine.position line)
                     (Drag.hSnapPoints (Examples.dragOnForm [Examples.field]) [Examples.fresh])
               end) (Drag.lines r).
Proof.
  intros r.
  destruct (snapping_stays_within_the_threshold (Examples.dragOnForm [Examples.field])
              [Examples.fresh] 403 400) as (H1 & _ & H3 & _).
  - reflexivity.
  - reflexivity.
  - reflexivity.
  - repeat constructor.
  - split; [exact H1 | exact H3].
Defined.

(** *** Undo after a gesture *)











End GestureFacts.

(** ** The download: pages, lines and images *)

Module DownloadFacts.
Local Open Scope Z_scope.

Lemma burnSignatures_None pages l :
  PdfExport.burnSignatures pages l = None
  <-> exists e, In e l /\ Requests.offDocument pages e.
Proof.
  induction l as [|e rest IH]; simpl.
  - split; [discriminate | intros (? & [] & _)].
  - destruct (Z.ltb_spec (SignatureElement.pageIndex e) 0) as [Hneg | Hpos].
    { split; [|reflexivity]. intros _. exists e. split; [by left | by left]. }
    destruct (pages !! Z.to_nat (SignatureElement.pageIndex e)) as [s|] eqn:Hp.
    + apply lookup_lt_Some in Hp.
      destruct (PdfExport.burnSignatures pages rest) as [reqs|].
      * split; [discriminate|]. intros (e' & [<- | Hin] & Hoff).
        -- destruct Hoff as [? | ?]; lia.
        -- destruct IH as [_ IH]. discriminate IH. by exists e'.
      * split; [|reflexivity]. intros _.
        destruct IH as [IH _]. destruct (IH eq_refl) as (e' & Hin & Hoff).
        exists e'. split; [by right | exact Hoff].
    + apply lookup_ge_None in Hp.
      split; [|reflexivity]. intros _. exists e. split; [by left | right; lia].
Qed.

Lemma burnSignatures_Some pages l reqs :
  PdfExport.burnSignatures pages l = Some reqs ->
  Forall2 (Requests.draws pages) l reqs.
Proof.
  revert reqs. induction l as [|e rest IH]; intros reqs; simpl.
  - intros [= <-]. constructor.
  - destruct (_ <? _); [discriminate|].
    destruct (pages !! _) as [s|] eqn:Hp; [|discriminate].
    destruct (PdfExport.burnSignatures pages rest) as [r|]; [|discriminate].
    intros [= <-]. constructor; [by exists s | by apply IH].
Qed.

Lemma burnDrawings_isLine drawings k pages :
  Forall (fun r => Requests.isLine r = true) (PdfExport.burnDrawings drawings k pages).
Proof.
  revert k. induction pages as [|s rest IH]; intros k; simpl; [constructor|].
  apply Forall_app. split; [|apply IH].
  destruct (drawings !! Z.of_nat k); [|constructor].
  apply Forall_forall. intros r Hin. apply list_elem_of_In in Hin.
  by apply in_map_iff in Hin as (o & <- & _).
Qed.

(** X19.  The download fails, and saves nothing, exactly when some
    element names a page that the document does not have (a negative
    index or one past the last page); strokes on such pages are skipped
    without failing.  When it succeeds it first draws lines only, and
    then exactly one image for each element, in the order of the
    elements, each on the page of its index.  (The file is taken to load
    and the images to embed: the requests are what is modelled.) *)
Theorem download_needs_the_page_of_every_element pages drawings signatures :
  (PdfExport.handleDownload pages drawings signatures = None
   <-> exists e, In e signatures /\ Requests.offDocument pages e)
  /\ (forall reqs,
        PdfExport.handleDownload pages drawings signatures = Some reqs ->
        exists images,
          reqs = PdfExport.burnDrawings drawings 0 pages ++ images
          /\ Forall (fun r => Requests.isLine r = true)
               (PdfExport.burnDrawings drawings 0 pages)
          /\ Forall2 (Requests.draws pages) signatures images)
  /\ (forall i o, In (PdfExport.drawLine i o) (PdfExport.burnDrawings drawings 0 pages) ->
        (i < length pages)%nat).
Proof.
  unfold PdfExport.handleDownload. split; [|split].
  - rewrite <- burnSignatures_None.
    destruct (PdfExport.burnSignatures pages signatures); split; congruence.
  - intros reqs.
    destruct (PdfExport.burnSignatures pages signatures) as [images|] eqn:E; [|discriminate].
    intros [= <-]. exists images. split; [reflexivity|].
    split; [apply burnDrawings_isLine | by apply burnSignatures_Some].
  - intros i o Hin.
    apply ExportFacts.burnDrawings_lines in Hin as (size & _ & _ & _ & Hp & _).
    apply lookup_lt_Some in Hp. lia.
Qed.

Lemma download_needs_the_page_of_every_element_witness :
  PdfExport.handleDownload [Samples.a4] ∅ [Examples.fresh; Samples.stray] = None.
Proof.
  destruct (download_needs_the_page_of_every_element [Samples.a4] ∅
              [Examples.fresh; Samples.stray]) as ((_ & H) & _).
  apply H. exists Samples.stray. split; [right; left; reflexivity|].
  right. simpl. lia.
Defined.

Lemma linesOn_app i l1 l2 :
  Requests.linesOn i (l1 ++ l2) = Requests.linesOn i l1 ++ Requests.linesOn i l2.
Proof. unfold Requests.linesOn. apply omap_app. Qed.

Lemma linesOn_page i k (lines : list PdfExport.LineOptions) :
  Requests.linesOn i (map (PdfExport.drawLine k) lines)
  = if Nat.eqb k i then lines else [].
Proof.
  unfold Requests.linesOn. destruct (Nat.eqb k i) eqn:E.
  - induction lines as [|o l IH]; [reflexivity|].
    cbn [map omap list_omap]. rewrite E. cbn. by f_equal.
  - induction lines as [|o l IH]; [reflexivity|].
    cbn [map omap list_omap]. rewrite E. exact IH.
Qed.

(** The lines on a page are those of the strokes stored for that page. *)
Lemma linesOn_burnDrawings drawings k pages i :
  Requests.linesOn i (PdfExport.burnDrawings drawings k pages)
  = if (k <=? i)%nat
    then match pages !! (i - k)%nat with
         | Some size =>
             flat_map (PdfExport.burnStroke size) (default [] (drawings !! Z.of_nat i))
         | None => []
         end
    else [].
Proof.
  revert k. induction pages as [|s rest IH]; intros k; simpl.
  - by destruct (k <=? i)%nat.
  - rewrite linesOn_app, IH.
    assert (Hhere :
      Requests.linesOn i
        match drawings !! Z.of_nat k with
        | Some pageStrokes =>
            map (PdfExport.drawLine k) (flat_map (PdfExport.burnStroke s) pageStrokes)
        | None => []
        end
      = if Nat.eqb k i
        then flat_map (PdfExport.burnStroke s) (default [] (drawings !! Z.of_nat i))
        else []).
    { destruct (Nat.eqb_spec k i) as [-> | Hne].
      - destruct (drawings !! Z.of_nat i); simpl; [|reflexivity].
        by rewrite linesOn_page, Nat.eqb_refl.
      - destruct (drawings !! Z.of_nat k); simpl; [|reflexivity].
        rewrite linesOn_page. by destruct (Nat.eqb_spec k i). }
    rewrite Hhere. clear Hhere.
    destruct (Nat.eqb_spec k i) as [E | Hne].
    + subst i. rewrite Nat.leb_refl, Nat.sub_diag.
      replace (S k <=? k)%nat with false by (symmetry; apply Nat.leb_gt; lia).
      by rewrite app_nil_r.
    + rewrite app_nil_l. destruct (Nat.leb_spec (S k) i) as [Hle | Hgt].
      * replace (k <=? i)%nat with true by (symmetry; apply Nat.leb_le; lia).
        replace (i - k)%nat with (S (i - S k)) by lia. reflexivity.
      * replace (k <=? i)%nat with false by (symmetry; apply Nat.leb_gt; lia).
        reflexivity.
Qed.

(** X20.  What the download draws on a page depends on the strokes of
    that page alone.  Adding a stroke adds the lines of that stroke after
    the lines that the page of the editor had, and clearing the page
    leaves that page without lines; on every other page the download
    draws the same lines as before. *)
Theorem strokes_reach_the_download_page_by_page pages st stroke i :
  let page := (App.pageNum st - 1)%Z in
  let lines := fun st' =>
    Requests.linesOn i (PdfExport.burnDrawings (App.drawings st') 0 pages) in
  (Z.of_nat i <> page ->
     lines (Edit.handleAddStroke stroke st) = lines st
     /\ lines (Edit.handleClearPage st) = lines st)
  /\ (Z.of_nat i = page ->
        lines (Edit.handleClearPage st) = []
        /\ forall size, pages !! i = Some size ->
             lines (Edit.handleAddStroke stroke st)
             = lines st ++ PdfExport.burnStroke size stroke).
Proof.
  intros page lines. subst lines. cbv beta.
  rewrite !linesOn_burnDrawings. simpl. rewrite Nat.sub_0_r.
  unfold Edit.handleAddStroke, Edit.handleClearPage.
  cbn [App.drawings App.setDrawings App.with_ed App.ed History.drawings
       App.saveToHistory History.saveToHistory].
  fold (App.drawings st). fold page.
  split.
  - intros Hne. rewrite !lookup_insert_ne by congruence. by split.
  - intros ->. rewrite !lookup_insert_eq. simpl. split.
    + by destruct (pages !! i).
    + intros size ->. rewrite flat_map_app. simpl. by rewrite app_nil_r.
Qed.

Lemma strokes_reach_the_download_page_by_page_witness :
  Requests.linesOn 0
    (PdfExport.burnDrawings
       (App.drawings (Edit.handleClearPage
                        (Edit.handleAddStroke Examples.stroke (Examples.page []))))
       0 [Samples.a4])
  = [].
Proof.
  destruct (strokes_reach_the_download_page_by_page [Samples.a4]
              (Edit.handleAddStroke Examples.stroke (Examples.page [])) Examples.stroke 0)
    as (_ & H).
  destruct H as (H & _); [reflexivity | exact H].
Defined.

End DownloadFacts.

Module PlacementFacts.
Local Open Scope R_scope.

Lemma Q2R_pos q : (0 < q)%Q -> 0 < Q2R q.
Proof. intros H. apply Qlt_Rlt in H. by rewrite RMicromega.Q2R_0 in H. Qed.

Lemma Q2R_nonneg q : (0 <= q)%Q -> 0 <= Q2R q.
Proof. intros H. apply Qle_Rle in H. by rewrite RMicromega.Q2R_0 in H. Qed.

Lemma Q2R_heightPercent rect e :
  (0 < DOMRect.height rect)%Q -> (0 < SignatureElement.aspectRatio e)%Q ->
  Q2R (Geometry.heightPercent rect e)
  = Q2R (SignatureElement.width e)
    * (Q2R (DOMRect.width rect) / Q2R (DOMRect.height rect))
    / Q2R (SignatureElement.aspectRatio e).
Proof.
  intros Hh Ha. unfold Geometry.heightPercent.
  rewrite Q2R_div, Q2R_mult, Q2R_div; [reflexivity | |].
  - intros E. rewrite E in Hh. by apply Qlt_irrefl in Hh.
  - intros E. rewrite E in Ha. by apply Qlt_irrefl in Ha.
Qed.

(** X21.  An element that is not rotated and lies on the page of the
    canvas (in the sense of the page invariant: [x >= 0], [y >= 0],
    [x + width <= 100], [y <= 100 - heightPercent]) is drawn by the
    download inside the page of the document: the image rectangle lies
    between 0 and the page width and between 0 and the page height, and
    no rotation is requested.  (The canvas has the proportions of the
    page, and the sizes and the aspect ratio are positive.) *)
Theorem element_on_the_page_is_drawn_inside_it size rect e :
  0 < PdfExport.width size -> 0 < PdfExport.height size ->
  (0 < DOMRect.width rect)%Q -> (0 < DOMRect.height rect)%Q ->
  PdfExport.width size * Q2R (DOMRect.height rect)
  = PdfExport.height size * Q2R (DOMRect.width rect) ->
  (0 < SignatureElement.aspectRatio e)%Q ->
  (SignatureElement.rotation e == 0)%Q ->
  Geometry.onPage (Geometry.heightPercent rect e) e ->
  let o := PdfExport.imageOptions size e in
  PdfExport.rotate o = None
  /\ 0 <= PdfExport.x o
  /\ PdfExport.x o + PdfExport.imgWidth o <= PdfExport.width size
  /\ 0 <= PdfExport.y o
  /\ PdfExport.y o + PdfExport.imgHeight o <= PdfExport.height size.
Proof.
  intros HW HH Hcw Hch Hprop Har Hrot (Hx & Hy & Hxw & _ & Hyh) o.
  subst o. unfold PdfExport.imageOptions.
  apply Qeq_bool_iff in Hrot. rewrite Hrot.
  unfold PdfExport.baseOptions. cbv zeta.
  cbn [PdfExport.rotate PdfExport.x PdfExport.y PdfExport.imgWidth PdfExport.imgHeight].
  apply Q2R_nonneg in Hx, Hy.
  apply Qle_Rle in Hxw, Hyh. rewrite Q2R_plus in Hxw.
  rewrite Q2R_minus, Q2R_heightPercent in Hyh by assumption.
  apply Q2R_pos in Hcw, Hch, Har.
  change (Q2R 100) with (Q2R (100 # 1)) in *.
  assert (E100 : Q2R (100 # 1) = 100) by (unfold Q2R; simpl; lra).
  rewrite E100 in *.
  set (X := Q2R (SignatureElement.x e)) in *.
  set (Y := Q2R (SignatureElement.y e)) in *.
  set (Wd := Q2R (SignatureElement.width e)) in *.
  set (A := Q2R (SignatureElement.aspectRatio e)) in *.
  set (cw := Q2R (DOMRect.width rect)) in *.
  set (ch := Q2R (DOMRect.height rect)) in *.
  set (W := PdfExport.width size) in *.
  set (H := PdfExport.height size) in *.
  assert (Eh : Wd / 100 * W / A = H / 100 * (Wd * (cw / ch) / A)).
  { assert (Ecw : cw = W * ch / H) by (field_simplify_eq; [lra | lra]).
    rewrite Ecw. field. repeat split; lra. }
  rewrite Eh. set (hp := Wd * (cw / ch) / A) in *.
  split; [reflexivity|]. split; [|split; [|split]]; nra.
Qed.

Lemma element_on_the_page_is_drawn_inside_it_witness :
  let o := PdfExport.imageOptions Samples.a4 Examples.fresh in
  0 <= PdfExport.y o /\ PdfExport.y o + PdfExport.imgHeight o <= 842.
Proof.
  intros o.
  destruct (element_on_the_page_is_drawn_inside_it Samples.a4
              {| DOMRect.width := 595; DOMRect.height := 842 |} Examples.fresh)
    as (_ & _ & _ & H1 & H2).
  - simpl. lra.
  - simpl. lra.
  - reflexivity.
  - reflexivity.
  - unfold Q2R; simpl. lra.
  - reflexivity.
  - reflexivity.
  - unfold Geometry.onPage. repeat split; apply Qle_bool_imp_le; reflexivity.
  - split; [exact H1 | exact H2].
Defined.

End PlacementFacts.

(** ** The free-draw overlay *)

Module FreeDrawFacts.
Import QMore.
Local Open Scope Q_scope.

Lemma run_off p canvas events st :
  FreeDrawLayer.isDrawingMode p = false ->
  FreeDrawLayer.run p canvas events st = (st, []).
Proof.
  intros Hoff. revert st. induction events as [|e rest IH]; intros st; [reflexivity|].
  cbn [FreeDrawLayer.run].
  assert (He : FreeDrawLayer.handle p canvas st e = (st, None)).
  { destruct e; unfold FreeDrawLayer.handle, FreeDrawLayer.handleStart,
      FreeDrawLayer.handleMove, FreeDrawLayer.handleEnd; by rewrite Hoff. }
  rewrite He, IH. reflexivity.
Qed.

(** The move events of a gesture in progress collect their points. *)
Lemma run_moves p canvas moves rest points :
  FreeDrawLayer.isDrawingMode p = true ->
  FreeDrawLayer.run p canvas
    (map (fun m => FreeDrawLayer.Move (fst m) (snd m)) moves ++ rest)
    {| FreeDrawLayer.currentPoints := points; FreeDrawLayer.isDrawing := true |}
  = FreeDrawLayer.run p canvas rest
      {| FreeDrawLayer.currentPoints :=
           points ++ map (fun m => FreeDrawLayer.getNormalizedPos canvas (fst m) (snd m))
                       moves;
         FreeDrawLayer.isDrawing := true |}.
Proof.
  intros Hon. revert points. induction moves as [|m l IH]; intros points.
  - simpl. by rewrite app_nil_r.
  - cbn [map app FreeDrawLayer.run FreeDrawLayer.handle].
    unfold FreeDrawLayer.handleMove. rewrite Hon.
    cbn [negb orb FreeDrawLayer.isDrawing FreeDrawLayer.currentPoints].
    rewrite IH, <- app_assoc. cbn [app].
    by destruct (FreeDrawLayer.run _ _ _ _).
Qed.

(** A whole gesture in the drawing mode. *)
Lemma run_gesture p canvas clientX clientY moves st :
  FreeDrawLayer.isDrawingMode p = true ->
  FreeDrawLayer.run p canvas
    (FreeDrawLayer.Down clientX clientY
     :: map (fun m => FreeDrawLayer.Move (fst m) (snd m)) moves
        ++ [FreeDrawLayer.Up; FreeDrawLayer.Up]) st
  = (FreeDrawLayer.initial,
     match moves with
     | [] => []
     | _ :: _ =>
         [ {| Stroke.points :=
                FreeDrawLayer.getNormalizedPos canvas clientX clientY
                :: map (fun m => FreeDrawLayer.getNormalizedPos canvas (fst m) (snd m))
                     moves;
              Stroke.color := FreeDrawLayer.brushColor p;
              Stroke.width := FreeDrawLayer.brushWidth p |} ]
     end).
Proof.
  intros Hon.
  cbn [FreeDrawLayer.run FreeDrawLayer.handle].
  unfold FreeDrawLayer.handleStart. rewrite Hon. cbn [negb].
  rewrite run_moves by exact Hon.
  cbn [FreeDrawLayer.run FreeDrawLayer.handle app].
  unfold FreeDrawLayer.handleEnd. rewrite Hon.
  cbn [negb orb FreeDrawLayer.isDrawing FreeDrawLayer.currentPoints].
  destruct moves as [|m l]; reflexivity.
Qed.

(** X22.  Outside the drawing mode the overlay ignores every pointer
    event.  In the drawing mode a gesture (pointer down, any moves,
    pointer up, and the pointer leaving the canvas afterwards) ends in
    the idle state and hands over one stroke, with the brush colour and
    width and with the position of the pointer-down followed by the
    positions of the moves in their order, if the pointer has moved at
    all; a pointer-down and -up without a move hands over nothing.  The
    second end of the gesture never adds a second stroke. *)
Theorem a_gesture_hands_over_one_stroke p canvas :
  (FreeDrawLayer.isDrawingMode p = false ->
     forall events st, FreeDrawLayer.run p canvas events st = (st, []))
  /\ (FreeDrawLayer.isDrawingMode p = true ->
        forall clientX clientY moves st,
          let points :=
            FreeDrawLayer.getNormalizedPos canvas clientX clientY
            :: map (fun m => FreeDrawLayer.getNormalizedPos canvas (fst m) (snd m)) moves in
          FreeDrawLayer.run p canvas
            (FreeDrawLayer.Down clientX clientY
             :: map (fun m => FreeDrawLayer.Move (fst m) (snd m)) moves
                ++ [FreeDrawLayer.Up; FreeDrawLayer.Up]) st
          = (FreeDrawLayer.initial,
             match moves with
             | [] => []
             | _ :: _ => [ {| Stroke.points := points;
                              Stroke.color := FreeDrawLayer.brushColor p;
                              Stroke.width := FreeDrawLayer.brushWidth p |} ]
             end)).
Proof.
  split; [intros; by apply run_off|].
  intros Hon clientX clientY moves st points. by apply run_gesture.
Qed.

Lemma a_gesture_hands_over_one_stroke_witness :
  FreeDrawLayer.run Samples.brush (Some Samples.overlay)
    [FreeDrawLayer.Down 300 0; FreeDrawLayer.Move 300 400;
     FreeDrawLayer.Up; FreeDrawLayer.Up] FreeDrawLayer.initial
  = (FreeDrawLayer.initial,
     [ {| Stroke.points :=
            [FreeDrawLayer.getNormalizedPos (Some Samples.overlay) 300 0;
             FreeDrawLayer.getNormalizedPos (Some Samples.overlay) 300 400];
          Stroke.color := "#000000"; Stroke.width := 3 |} ]).
Proof.
  destruct (a_gesture_hands_over_one_stroke Samples.brush (Some Samples.overlay)) as [_ H].
  exact (H eq_refl 300 0 [(300, 400)] FreeDrawLayer.initial).
Defined.

(** X23.  What the overlay does to the editor through [onAddStroke].
    While the free-draw mode is off, no pointer event on the overlay
    changes the editor.  While it is on, a pointer-down and -up without a
    move changes nothing either, so that no empty step is recorded; a
    gesture with at least one move appends its stroke to the strokes of
    the shown page, leaves the other pages and the signatures alone, and
    records the state before it as one step of the history. *)
Theorem drawing_reaches_the_editor w h s color brush canvas st :
  let p := FreeDrawLayer.propsOf w h s color brush st in
  let after := fun events =>
    FreeDrawLayer.addStrokes (snd (FreeDrawLayer.run p canvas events FreeDrawLayer.initial))
      st in
  (App.isFreeDrawMode st = false -> forall events, after events = st)
  /\ (App.isFreeDrawMode st = true ->
        (forall clientX clientY,
           after [FreeDrawLayer.Down clientX clientY; FreeDrawLayer.Up; FreeDrawLayer.Up] = st)
        /\ forall clientX clientY m moves,
             let st' :=
               after (FreeDrawLayer.Down clientX clientY
                      :: map (fun m => FreeDrawLayer.Move (fst m) (snd m)) (m :: moves)
                         ++ [FreeDrawLayer.Up; FreeDrawLayer.Up]) in
             let stroke :=
               {| Stroke.points :=
                    FreeDrawLayer.getNormalizedPos canvas clientX clientY
                    :: map (fun m => FreeDrawLayer.getNormalizedPos canvas (fst m) (snd m))
                         (m :: moves);
                  Stroke.color := color; Stroke.width := brush |} in
             App.drawings st' !! (App.pageNum st - 1)%Z
             = Some (FreeDrawLayer.strokes p ++ [stroke])
             /\ (forall page, page <> (App.pageNum st - 1)%Z ->
                   App.drawings st' !! page = App.drawings st !! page)
             /\ App.signatures st' = App.signatures st
             /\ App.history st'
                = History.record (History.live (App.ed st)) (App.history st)).
Proof.
  intros p after. subst after. cbv beta. split.
  - intros Hoff events. rewrite run_off; [reflexivity | exact Hoff].
  - intros Hon.
    assert (Hon' : FreeDrawLayer.isDrawingMode p = true) by exact Hon.
    split.
    + intros clientX clientY.
      pose proof (run_gesture p canvas clientX clientY [] FreeDrawLayer.initial Hon') as H0.
      cbn [map app] in H0. rewrite H0. reflexivity.
    + intros clientX clientY m moves st' stroke. subst st'.
      rewrite (run_gesture p canvas clientX clientY (m :: moves) FreeDrawLayer.initial Hon').
      cbn [snd FreeDrawLayer.addStrokes fold_left].
      change (FreeDrawLayer.brushColor p) with color.
      change (FreeDrawLayer.brushWidth p) with brush.
      fold stroke. unfold Edit.handleAddStroke.
      cbn [App.drawings App.setDrawings App.with_ed App.ed History.drawings
           App.saveToHistory History.saveToHistory].
      fold (App.drawings st).
      split; [by rewrite lookup_insert_eq|].
      split; [intros page Hne; by rewrite lookup_insert_ne|].
      by split.
Qed.

Lemma drawing_reaches_the_editor_witness :
  let st := View.handleToggleFreeDraw (Examples.page [Examples.fresh]) in
  FreeDrawLayer.addStrokes
    (snd (FreeDrawLayer.run (FreeDrawLayer.propsOf 600 800 1 "#000000" 3 st)
            (Some Samples.overlay)
            [FreeDrawLayer.Down 300 400; FreeDrawLayer.Up; FreeDrawLayer.Up]
            FreeDrawLayer.initial)) st
  = st.
Proof.
  intros st.
  destruct (drawing_reaches_the_editor 600 800 1 "#000000" 3 (Some Samples.overlay) st)
    as [_ H].
  destruct H as [H _]; [reflexivity|]. apply H.
Defined.

(** X24.  A pointer inside the rectangle of the canvas is recorded as a
    point of the unit square, the fractions of the width and of the
    height at which it is; with no canvas mounted the point is (0, 0).
    On a canvas that is drawn at the size of its rectangle the path goes
    through the very pixel of the pointer. *)
Theorem pointer_positions_are_normalised rect clientX clientY :
  0 < FreeDrawLayer.rectWidth rect -> 0 < FreeDrawLayer.rectHeight rect ->
  FreeDrawLayer.left rect <= clientX <= FreeDrawLayer.left rect + FreeDrawLayer.rectWidth rect ->
  FreeDrawLayer.top rect <= clientY <= FreeDrawLayer.top rect + FreeDrawLayer.rectHeight rect ->
  let pt := FreeDrawLayer.getNormalizedPos (Some rect) clientX clientY in
  (0 <= StrokePoint.x pt <= 1 /\ 0 <= StrokePoint.y pt <= 1)
  /\ (StrokePoint.x pt * FreeDrawLayer.rectWidth rect == clientX - FreeDrawLayer.left rect
      /\ StrokePoint.y pt * FreeDrawLayer.rectHeight rect == clientY - FreeDrawLayer.top rect)
  /\ (forall p,
        FreeDrawLayer.width p == FreeDrawLayer.rectWidth rect ->
        FreeDrawLayer.height p == FreeDrawLayer.rectHeight rect ->
        fst (FreeDrawLayer.toCanvas p pt) == clientX - FreeDrawLayer.left rect
        /\ snd (FreeDrawLayer.toCanvas p pt) == clientY - FreeDrawLayer.top rect)
  /\ FreeDrawLayer.getNormalizedPos None clientX clientY
     = {| StrokePoint.x := 0; StrokePoint.y := 0 |}.
Proof.
  intros Hw Hh [Hx1 Hx2] [Hy1 Hy2] pt. subst pt.
  unfold FreeDrawLayer.getNormalizedPos, FreeDrawLayer.toCanvas.
  cbn [StrokePoint.x StrokePoint.y fst snd].
  set (dx := clientX - FreeDrawLayer.left rect).
  set (dy := clientY - FreeDrawLayer.top rect).
  assert (Ex : dx / FreeDrawLayer.rectWidth rect * FreeDrawLayer.rectWidth rect == dx)
    by (field; lra).
  assert (Ey : dy / FreeDrawLayer.rectHeight rect * FreeDrawLayer.rectHeight rect == dy)
    by (field; lra).
  split; [|split; [by split | split; [|reflexivity]]].
  - repeat split.
    + apply Qle_shift_div_l; [exact Hw | subst dx; lra].
    + apply Qle_shift_div_r; [exact Hw | subst dx; lra].
    + apply Qle_shift_div_l; [exact Hh | subst dy; lra].
    + apply Qle_shift_div_r; [exact Hh | subst dy; lra].
  - intros p Ew Eh. rewrite Ew, Eh. by split.
Qed.

Lemma pointer_positions_are_normalised_witness :
  let pt := FreeDrawLayer.getNormalizedPos (Some Samples.overlay) 300 400 in
  StrokePoint.x pt * 600 == 300 /\ StrokePoint.y pt * 800 == 400.
Proof.
  intros pt.
  destruct (pointer_positions_are_normalised Samples.overlay 300 400)
    as (_ & H & _); try reflexivity.
  - split; apply Qle_bool_imp_le; reflexivity.
  - split; apply Qle_bool_imp_le; reflexivity.
  - exact H.
Defined.

(** X25.  When a gesture ends and its stroke is appended to the strokes
    of the page, the overlay shows exactly the paths it showed just
    before the pointer went up: the stroke in progress is drawn the way
    the saved stroke is. *)
Theorem the_saved_stroke_is_drawn_as_it_was_in_progress p st st' stroke :
  FreeDrawLayer.handleEnd p st = (st', Some stroke) ->
  FreeDrawLayer.render
    (FreeDrawLayer.mkProps (FreeDrawLayer.width p) (FreeDrawLayer.height p)
       (FreeDrawLayer.scale p) (FreeDrawLayer.strokes p ++ [stroke])
       (FreeDrawLayer.isDrawingMode p) (FreeDrawLayer.brushColor p)
       (FreeDrawLayer.brushWidth p)) st'
  = FreeDrawLayer.render p st.
Proof.
  unfold FreeDrawLayer.handleEnd.
  destruct (negb (FreeDrawLayer.isDrawingMode p) || negb (FreeDrawLayer.isDrawing st));
    [discriminate|].
  destruct (1 <? length (FreeDrawLayer.currentPoints st))%nat eqn:E; [|discriminate].
  intros [= <- <-]. unfold FreeDrawLayer.render.
  cbn [FreeDrawLayer.strokes]. rewrite omap_app, <- app_assoc.
  f_equal.
  unfold FreeDrawLayer.drawCurrent, FreeDrawLayer.drawStroke at 1.
  cbn [FreeDrawLayer.currentPoints Stroke.points Stroke.color Stroke.width length
       FreeDrawLayer.width FreeDrawLayer.height FreeDrawLayer.scale omap list_omap
       option_list app].
  rewrite E.
  destruct (FreeDrawLayer.currentPoints st) as [|a [|b l]]; try discriminate.
  reflexivity.
Qed.

Lemma the_saved_stroke_is_drawn_as_it_was_in_progress_witness :
  let st := {| FreeDrawLayer.currentPoints :=
                 [FreeDrawLayer.getNormalizedPos (Some Samples.overlay) 300 0;
                  FreeDrawLayer.getNormalizedPos (Some Samples.overlay) 300 400];
               FreeDrawLayer.isDrawing := true |} in
  FreeDrawLayer.render
    (FreeDrawLayer.mkProps 600 800 1
       [ {| Stroke.points := FreeDrawLayer.currentPoints st;
            Stroke.color := "#000000"; Stroke.width := 3 |} ]
       true "#000000" 3) FreeDrawLayer.initial
  = FreeDrawLayer.render Samples.brush st.
Proof.
  intros st.
  exact (the_saved_stroke_is_drawn_as_it_was_in_progress Samples.brush st
           FreeDrawLayer.initial _ eq_refl).
Defined.

End FreeDrawFacts.

(** ** The signature dialog *)

Module SignaturePadFacts.
Import QMore.
Local Open Scope Q_scope.

Lemma cross_lt a b c d : 0 < b -> 0 < d -> a / b < c / d -> a * d < c * b.
Proof.
  intros Hb Hd H.
  assert (E1 : a * d == a / b * (b * d)) by (field; lra).
  assert (E2 : c * b == c / d * (b * d)) by (field; lra).
  rewrite E1, E2. apply Qmult_lt_r; [|exact H].
  apply Qmult_lt_0_compat; assumption.
Qed.

Lemma cross_ge a b c d : 0 < b -> 0 < d -> c / d <= a / b -> c * b <= a * d.
Proof.
  intros Hb Hd H.
  assert (E1 : a * d == a / b * (b * d)) by (field; lra).
  assert (E2 : c * b == c / d * (b * d)) by (field; lra).
  rewrite E1, E2. apply Qmult_le_compat_r; [exact H|].
  apply Qlt_le_weak, Qmult_lt_0_compat; assumption.
Qed.

(** X26.  The image that the pad loads for editing is drawn inside the
    pad, centred in both directions, with the proportions of the image,
    and as large as that allows: it spans the width or the height of the
    pad.  (The pad and the image have positive sizes.) *)
Theorem loaded_image_fits_the_pad rectWidth rectHeight imgWidth imgHeight :
  0 < rectWidth -> 0 < rectHeight -> 0 < imgWidth -> 0 < imgHeight ->
  let f := SignaturePad.fitImage rectWidth rectHeight imgWidth imgHeight in
  (0 <= SignaturePad.offsetX f /\ 0 <= SignaturePad.offsetY f)
  /\ (0 < SignaturePad.drawWidth f <= rectWidth
      /\ 0 < SignaturePad.drawHeight f <= rectHeight)
  /\ (SignaturePad.offsetX f * 2 + SignaturePad.drawWidth f == rectWidth
      /\ SignaturePad.offsetY f * 2 + SignaturePad.drawHeight f == rectHeight)
  /\ SignaturePad.drawWidth f * imgHeight == SignaturePad.drawHeight f * imgWidth
  /\ (SignaturePad.drawWidth f == rectWidth \/ SignaturePad.drawHeight f == rectHeight).
Proof.
  intros Hrw Hrh Hiw Hih f. subst f. unfold SignaturePad.fitImage. cbv zeta.
  destruct (Qltb (rectWidth / rectHeight) (imgWidth / imgHeight)) eqn:E.
  - apply QFacts.Qltb_lt in E. apply cross_lt in E; trivial.
    cbn [SignaturePad.offsetX SignaturePad.offsetY SignaturePad.drawWidth
         SignaturePad.drawHeight].
    assert (Eh : rectWidth / (imgWidth / imgHeight) == rectWidth * imgHeight / imgWidth)
      by (field; split; lra).
    assert (Hpos : 0 < rectWidth * imgHeight) by (apply Qmult_lt_0_compat; assumption).
    assert (H1 : 0 < rectWidth * imgHeight / imgWidth)
      by (apply Qlt_shift_div_l; [assumption | lra]).
    assert (H2 : rectWidth * imgHeight / imgWidth <= rectHeight)
      by (apply Qle_shift_div_r; [assumption | lra]).
    rewrite Eh. set (h := rectWidth * imgHeight / imgWidth) in *.
    assert (Eprop : rectWidth * imgHeight == h * imgWidth) by (subst h; field; lra).
    clearbody h. clear Eh E Hpos.
    set (o := (rectHeight - h) / 2).
    assert (Eo : o * 2 == rectHeight - h) by (subst o; field).
    clearbody o.
    split; [|split; [|split; [|split; [exact Eprop | by left]]]];
      clear Eprop; conjuncts; lra.
  - apply QFacts.Qltb_ge in E. apply cross_ge in E; trivial.
    cbn [SignaturePad.offsetX SignaturePad.offsetY SignaturePad.drawWidth
         SignaturePad.drawHeight].
    assert (Ew : rectHeight * (imgWidth / imgHeight) == rectHeight * imgWidth / imgHeight)
      by (field; lra).
    assert (Hpos : 0 < rectHeight * imgWidth) by (apply Qmult_lt_0_compat; assumption).
    assert (H1 : 0 < rectHeight * imgWidth / imgHeight)
      by (apply Qlt_shift_div_l; [assumption | lra]).
    assert (H2 : rectHeight * imgWidth / imgHeight <= rectWidth)
      by (apply Qle_shift_div_r; [assumption | lra]).
    rewrite Ew. set (w := rectHeight * imgWidth / imgHeight) in *.
    assert (Eprop : w * imgHeight == rectHeight * imgWidth) by (subst w; field; lra).
    clearbody w. clear Ew E Hpos.
    set (o := (rectWidth - w) / 2).
    assert (Eo : o * 2 == rectWidth - w) by (subst o; field).
    clearbody o.
    split; [|split; [|split; [|split; [exact Eprop | by right]]]];
      clear Eprop; conjuncts; lra.
Qed.

Lemma loaded_image_fits_the_pad_witness :
  let f := SignaturePad.fitImage 400 200 300 100 in
  SignaturePad.drawWidth f == 400 /\ SignaturePad.offsetY f * 2 + SignaturePad.drawHeight f == 200.
Proof.
  intros f.
  destruct (loaded_image_fits_the_pad 400 200 300 100) as (_ & _ & (_ & Hc) & _ & Hs);
    try reflexivity.
  split; [|exact Hc].
  destruct Hs as [Hs | Hs]; [exact Hs|].
  exfalso. revert Hs. subst f. vm_compute. discriminate.
Defined.

(** The loop from a size [20 + 5 * fuel] with [fuel] rounds to go. *)
Lemma shrink_spec measureText width fuel fontSize :
  fontSize = (20 + 5 * Z.of_nat fuel)%Z ->
  let r := SignaturePad.shrink measureText fuel width fontSize in
  (exists k, (0 <= k <= Z.of_nat fuel)%Z /\ r = (fontSize - 5 * k)%Z)
  /\ SignaturePad.tooWide measureText width r = false
  /\ (forall k, (0 <= k)%Z -> (r < fontSize - 5 * k)%Z ->
        SignaturePad.tooWide measureText width (fontSize - 5 * k)%Z = true).
Proof.
  revert fontSize. induction fuel as [|fuel IH]; intros fontSize Hfs; simpl.
  - subst fontSize. simpl. split; [exists 0%Z; split; lia|]. split.
    + unfold SignaturePad.tooWide. simpl. apply andb_false_r.
    + intros k Hk Hlt. lia.
  - destruct (SignaturePad.tooWide measureText width fontSize) eqn:E.
    + destruct (IH (fontSize - 5)%Z) as ((k & Hk & Hr) & Hstop & Hall); [lia|].
      split; [exists (k + 1)%Z; split; lia|]. split; [exact Hstop|].
      intros j Hj Hlt.
      destruct (Z.eq_dec j 0%Z) as [-> | Hne].
      * by rewrite Z.mul_0_r, Z.sub_0_r.
      * replace (fontSize - 5 * j)%Z with (fontSize - 5 - 5 * (j - 1))%Z by lia.
        apply Hall; lia.
    + split; [exists 0%Z; split; lia|]. split; [exact E|].
      intros k Hk Hlt. lia.
Qed.

(** X27.  The font size of a typed signature is one of 80, 75, ..., 20.
    The loop stops because its test fails, within 12 rounds: either the
    text is not wider than the pad less 40 pixels at that size, or the
    size is 20; and at every larger size of the series the text is too
    wide.  So it is the largest size of the series at which the text
    fits, or 20 if there is none, whatever the widths of the text are. *)
Theorem font_size_is_the_largest_that_fits measureText width :
  let r := SignaturePad.fontSizeFor measureText width in
  (exists k, (0 <= k <= 12)%Z /\ r = (80 - 5 * k)%Z)
  /\ SignaturePad.tooWide measureText width r = false
  /\ (measureText r <= width - 40 \/ r = 20%Z)
  /\ (forall k, (0 <= k)%Z -> (r < 80 - 5 * k)%Z -> width - 40 < measureText (80 - 5 * k)%Z).
Proof.
  intros r. subst r. unfold SignaturePad.fontSizeFor.
  destruct (shrink_spec measureText width 12 80 eq_refl) as (Hk & Hstop & Hall).
  cbv zeta in *.
  split; [exact Hk|]. split; [exact Hstop|]. split.
  - unfold SignaturePad.tooWide in Hstop. apply andb_false_iff in Hstop as [H | H].
    + left. by apply QFacts.Qltb_ge.
    + right. destruct Hk as (k & Hk' & Hr). apply Z.ltb_ge in H. lia.
  - intros j Hj Hlt. specialize (Hall j Hj Hlt).
    unfold SignaturePad.tooWide in Hall. apply andb_true_iff in Hall as [H _].
    by apply QFacts.Qltb_lt.
Qed.

Lemma font_size_is_the_largest_that_fits_witness :
  let r := SignaturePad.fontSizeFor (fun size => inject_Z (5 * size)) 300 in
  SignaturePad.tooWide (fun size => inject_Z (5 * size)) 300 r = false
  /\ 260 < inject_Z (5 * 55).
Proof.
  intros r.
  destruct (font_size_is_the_largest_that_fits (fun size => inject_Z (5 * size)) 300)
    as (_ & Hstop & _ & Hall).
  split; [exact Hstop|].
  apply (Hall 5%Z); [lia | reflexivity].
Defined.

(** *** The background remover *)

Local Open Scope nat_scope.

Lemma clearPixel_length data i : length (SignaturePad.clearPixel data i) = length data.
Proof.
  unfold SignaturePad.clearPixel. destruct (SignaturePad.nearWhite data i); [|reflexivity].
  apply length_insert.
Qed.

Lemma scan_length fuel i data : length (SignaturePad.scan fuel i data) = length data.
Proof.
  revert i data. induction fuel as [|fuel IH]; intros i data; simpl; [reflexivity|].
  destruct (i <? length data); [|reflexivity]. by rewrite IH, clearPixel_length.
Qed.

Lemma clearPixel_lookup data i j :
  SignaturePad.clearPixel data i !! j
  = if (j =? i + 3) && SignaturePad.nearWhite data i && (j <? length data)
    then Some 0%Z else data !! j.
Proof.
  unfold SignaturePad.clearPixel.
  destruct (SignaturePad.nearWhite data i); [|by rewrite andb_false_r].
  rewrite andb_true_r.
  destruct (Nat.eqb_spec j (i + 3)) as [-> | Hne]; simpl.
  - destruct (Nat.ltb_spec (i + 3) (length data)) as [Hlt | Hge].
    + by apply list_lookup_insert_eq.
    + by rewrite list_insert_ge.
  - by apply list_lookup_insert_ne.
Qed.

(** A pixel is judged by its own three colour bytes. *)
Lemma nearWhite_ext data data' i :
  data' !! i = data !! i -> data' !! (i + 1) = data !! (i + 1) ->
  data' !! (i + 2) = data !! (i + 2) ->
  SignaturePad.nearWhite data' i = SignaturePad.nearWhite data i.
Proof. intros H0 H1 H2. unfold SignaturePad.nearWhite. by rewrite H0, H1, H2. Qed.

(** The loop from pixel [m] on, byte [c] of pixel [k]. *)
Lemma scan_lookup fuel m data k c :
  length data <= 4 * (m + fuel) -> c < 4 ->
  SignaturePad.scan fuel (4 * m) data !! (4 * k + c)
  = if (m <=? k) && (c =? 3) && SignaturePad.nearWhite data (4 * k)
       && (4 * k + 3 <? length data)
    then Some 0%Z else data !! (4 * k + c).
Proof.
  revert m data. induction fuel as [|fuel IH]; intros m data Hlen Hc.
  - cbn [SignaturePad.scan]. destruct (Nat.leb_spec m k); [|reflexivity].
    destruct (Nat.eqb_spec c 3); [|reflexivity].
    destruct (Nat.ltb_spec (4 * k + 3) (length data)); [lia|].
    cbn [andb]. by rewrite andb_false_r.
  - cbn [SignaturePad.scan].
    destruct (Nat.ltb_spec (4 * m) (length data)) as [Hin | Hout].
    + replace (4 * m + 4) with (4 * S m) by lia.
      rewrite IH by (rewrite ?clearPixel_length; lia).
      rewrite clearPixel_length, clearPixel_lookup.
      destruct (Nat.leb_spec (S m) k) as [Hle | Hgt].
      * replace (m <=? k) with true by (symmetry; apply Nat.leb_le; lia).
        rewrite (nearWhite_ext data (SignaturePad.clearPixel data (4 * m)) (4 * k));
          rewrite ?clearPixel_lookup;
          try (replace (_ =? 4 * m + 3) with false by (symmetry; apply Nat.eqb_neq; lia);
               reflexivity).
      * cbn [andb].
        destruct (Nat.eq_dec k m) as [-> | Hne].
        -- rewrite Nat.leb_refl. cbn [andb].
           destruct (Nat.eqb_spec c 3) as [-> | Hc3].
           ++ by rewrite Nat.eqb_refl.
           ++ replace (4 * m + c =? 4 * m + 3) with false
                by (symmetry; apply Nat.eqb_neq; lia).
              reflexivity.
        -- replace (m <=? k) with false by (symmetry; apply Nat.leb_gt; lia).
           replace (4 * k + c =? 4 * m + 3) with false by (symmetry; apply Nat.eqb_neq; lia).
           reflexivity.
    + destruct (Nat.ltb_spec (4 * k + 3) (length data)) as [Hlt | Hge].
      * replace (m <=? k) with false by (symmetry; apply Nat.leb_gt; lia). reflexivity.
      * by rewrite andb_false_r.
Qed.

Lemma removeWhite_lookup data k c :
  c < 4 ->
  SignaturePad.removeWhite data !! (4 * k + c)
  = if (c =? 3) && SignaturePad.nearWhite data (4 * k) && (4 * k + 3 <? length data)
    then Some 0%Z else data !! (4 * k + c).
Proof.
  intros Hc. unfold SignaturePad.removeWhite.
  change (SignaturePad.scan (length data) 0 data)
    with (SignaturePad.scan (length data) (4 * 0) data).
  rewrite scan_lookup by lia. reflexivity.
Qed.

(** X28.  The background remover keeps the number of bytes and every
    colour byte, sets the alpha byte of exactly the pixels whose red,
    green and blue are all above 240 to 0 and keeps the alpha byte of
    every other pixel; removing the background a second time changes
    nothing more. *)
Theorem white_becomes_transparent data :
  let out := SignaturePad.removeWhite data in
  length out = length data
  /\ (forall k c, c < 3 -> out !! (4 * k + c) = data !! (4 * k + c))
  /\ (forall k alpha,
        data !! (4 * k + 3) = Some alpha ->
        out !! (4 * k + 3)
        = Some (if SignaturePad.nearWhite data (4 * k) then 0%Z else alpha))
  /\ SignaturePad.removeWhite out = out.
Proof.
  intros out.
  assert (Hlen : length out = length data) by apply scan_length.
  assert (Hcol : forall k c, c < 3 -> out !! (4 * k + c) = data !! (4 * k + c)).
  { intros k c Hc. subst out. rewrite removeWhite_lookup by lia.
    by replace (c =? 3) with false by (symmetry; apply Nat.eqb_neq; lia). }
  split; [exact Hlen|]. split; [exact Hcol|]. split.
  - intros k alpha Ha. subst out. rewrite removeWhite_lookup by lia.
    cbn [Nat.eqb andb]. apply lookup_lt_Some in Ha as Hlt.
    replace (4 * k + 3 <? length data) with true by (symmetry; apply Nat.ltb_lt; lia).
    rewrite andb_true_r. by destruct (SignaturePad.nearWhite data (4 * k)).
  - apply list_eq. intros j.
    rewrite (Nat.div_mod_eq j 4).
    pose proof (Nat.mod_upper_bound j 4 ltac:(lia)) as Hc.
    set (k := j / 4) in *. set (c := j mod 4) in *. clearbody k c.
    rewrite removeWhite_lookup by exact Hc.
    destruct (Nat.eqb_spec c 3) as [-> | Hc3]; [|reflexivity]. cbn [andb].
    rewrite (nearWhite_ext data out (4 * k)).
    + rewrite Hlen. subst out. rewrite (removeWhite_lookup data k 3) by lia.
      cbn [Nat.eqb andb].
      destruct (SignaturePad.nearWhite data (4 * k) && (4 * k + 3 <? length data));
        reflexivity.
    + replace (4 * k) with (4 * k + 0) by lia. apply Hcol. lia.
    + apply Hcol. lia.
    + apply Hcol. lia.
Qed.

Lemma white_becomes_transparent_witness :
  SignaturePad.removeWhite [255; 250; 241; 255; 255; 240; 255; 255]%Z !! (4 * 0 + 3)
  = Some 0%Z.
Proof.
  destruct (white_becomes_transparent [255; 250; 241; 255; 255; 240; 255; 255]%Z)
    as (_ & _ & H & _).
  exact (H 0 255%Z eq_refl).
Defined.

End SignaturePadFacts.

(** ** Saving a signature *)

Module SaveFacts.
Import QMore.
Local Open Scope Q_scope.

(** X29.  Saving a signature while no element is being edited appends
    one element and selects it: it has the new id, the image and its
    ratio, sits on the shown page at x = 40, y = 40 with width 20, is
    not rotated and is opaque.  It lies on the page exactly when its
    height is at most 60 percent of the page height.  Saving while an
    element is being edited gives every element with that id the new
    image and ratio, keeps the position, width, rotation and opacity,
    leaves the other elements as they are, and ends the editing. *)
Theorem saving_a_signature dataUrl uuid aspectRatio st :
  (Edit.truthy (App.editingSigId st) = false ->
     let st' := Edit.handleSaveSignature dataUrl uuid aspectRatio st in
     let new := {| SignatureElement.id := uuid;
                   SignatureElement.dataUrl := dataUrl;
                   SignatureElement.pageIndex := (App.pageNum st - 1)%Z;
                   SignatureElement.x := 40; SignatureElement.y := 40;
                   SignatureElement.width := 20;
                   SignatureElement.aspectRatio := aspectRatio;
                   SignatureElement.rotation := 0;
                   SignatureElement.opacity := 1 |} in
     App.signatures st' = App.signatures st ++ [new]
     /\ App.selectedSigId st' = Some uuid
     /\ forall rect,
          Geometry.onPage (Geometry.heightPercent rect new) new
          <-> Geometry.heightPercent rect new <= 60)
  /\ (forall i,
        App.editingSigId st = Some i -> i <> EmptyString ->
        let st' := Edit.handleSaveSignature dataUrl uuid aspectRatio st in
        App.editingSigId st' = None
        /\ App.selectedSigId st' = App.selectedSigId st
        /\ Forall2
             (fun s s' =>
                (SignatureElement.id s <> i -> s' = s)
                /\ (SignatureElement.id s = i ->
                    s' = {| SignatureElement.id := SignatureElement.id s;
                            SignatureElement.dataUrl := dataUrl;
                            SignatureElement.pageIndex := SignatureElement.pageIndex s;
                            SignatureElement.x := SignatureElement.x s;
                            SignatureElement.y := SignatureElement.y s;
                            SignatureElement.width := SignatureElement.width s;
                            SignatureElement.aspectRatio := aspectRatio;
                            SignatureElement.rotation := SignatureElement.rotation s;
                            SignatureElement.opacity := SignatureElement.opacity s |}))
             (App.signatures st) (App.signatures st')).
Proof.
  split.
  - intros Hno st' new. subst st'. unfold Edit.handleSaveSignature. rewrite Hno.
    split; [reflexivity|]. split; [reflexivity|].
    intros rect. unfold Geometry.onPage. subst new.
    cbn [SignatureElement.x SignatureElement.y SignatureElement.width].
    set (hp := Geometry.heightPercent rect _). clearbody hp.
    split; [intros (_ & _ & _ & _ & H); lra | intros H; conjuncts; lra].
  - intros i Hi Hne st'. subst st'. unfold Edit.handleSaveSignature. rewrite Hi.
    assert (Ht : Edit.truthy (Some i) = true).
    { simpl. apply negb_true_iff. by apply String.eqb_neq. }
    rewrite Ht. split; [reflexivity|]. split; [reflexivity|].
    cbn [App.signatures App.setEditingSigId App.setSignatures App.with_ed App.ed
         History.signatures App.saveToHistory History.saveToHistory].
    fold (App.signatures st).
    induction (App.signatures st) as [|s l IH]; simpl; constructor; [|exact IH].
    destruct (String.eqb_spec (SignatureElement.id s) i) as [E | E].
    + split; [congruence | reflexivity].
    + split; [reflexivity | congruence].
Qed.

Lemma saving_a_signature_witness :
  Geometry.onPage
    (Geometry.heightPercent Examples.canvas (Examples.element "n" 40 40 20 2))
    (Examples.element "n" 40 40 20 2).
Proof.
  destruct (saving_a_signature "data:image/png;base64," "n" 2 (Examples.page []))
    as [H _].
  destruct H as (_ & _ & H); [reflexivity|].
  apply (H Examples.canvas). apply Qle_bool_imp_le. reflexivity.
Defined.

End SaveFacts.

(** ** Strokes in the two exports *)

Module StrokeExportFacts.
Local Open Scope R_scope.

(** X30.  The image export and the download show a stroke at the same
    place.  A stroke with fewer than two points is skipped by both.
    Otherwise the path of the image export goes through the points of
    the stroke, the download draws one line for each pair of consecutive
    points, and seen on a page that is [exportScale] times smaller, with
    the y axis turned upwards, the points of the path are the ends of
    these lines; the path is [exportScale] times as thick as the lines. *)
Theorem both_exports_show_a_stroke_alike size v stroke :
  RasterExport.width v = RasterExport.exportScale * PdfExport.width size ->
  RasterExport.height v = RasterExport.exportScale * PdfExport.height size ->
  match RasterExport.drawStroke v stroke with
  | None => PdfExport.burnStroke size stroke = []
  | Some (lineWidth, path) =>
      length path = length (Stroke.points stroke)
      /\ S (length (PdfExport.burnStroke size stroke)) = length path
      /\ forall j o,
           PdfExport.burnStroke size stroke !! j = Some o ->
           exists a b,
             path !! j = Some a /\ path !! S j = Some b
             /\ PdfExport.lineStart o
                = PdfExport.ofCanvas RasterExport.exportScale (PdfExport.height size) a
             /\ PdfExport.lineEnd o
                = PdfExport.ofCanvas RasterExport.exportScale (PdfExport.height size) b
             /\ lineWidth = RasterExport.exportScale * PdfExport.thickness o
  end.
Proof.
  intros Hw Hh. unfold RasterExport.drawStroke, PdfExport.burnStroke.
  destruct (length (Stroke.points stroke) <? 2)%nat eqn:E; [reflexivity|].
  apply Nat.ltb_ge in E.
  split; [by rewrite length_map|]. split.
  - rewrite ExportFacts.segments_length, length_map. lia.
  - intros j o Ho.
    apply ExportFacts.segments_lookup in Ho as (p1 & p2 & H1 & H2 & ->).
    assert (Hpt : forall p,
      PdfExport.toPage size p
      = PdfExport.ofCanvas RasterExport.exportScale (PdfExport.height size)
          (Q2R (StrokePoint.x p) * RasterExport.width v,
           Q2R (StrokePoint.y p) * RasterExport.height v)).
    { intros p. unfold PdfExport.toPage, PdfExport.ofCanvas. cbn [fst snd].
      rewrite Hw, Hh. unfold RasterExport.exportScale. f_equal; field. }
    eexists _, _. rewrite !list_lookup_fmap, H1, H2. cbn [fmap option_fmap option_map].
    split; [reflexivity|]. split; [reflexivity|].
    cbn [PdfExport.lineStart PdfExport.lineEnd PdfExport.thickness].
    split; [apply Hpt|]. split; [apply Hpt|]. apply Rmult_comm.
Qed.

Lemma both_exports_show_a_stroke_alike_witness :
  match RasterExport.drawStroke
          {| RasterExport.width := RasterExport.exportScale * 595;
             RasterExport.height := RasterExport.exportScale * 842 |} Examples.stroke with
  | None => False
  | Some (lineWidth, path) => S (length (PdfExport.burnStroke Samples.a4 Examples.stroke)) = length path
  end.
Proof.
  pose proof (both_exports_show_a_stroke_alike Samples.a4
                {| RasterExport.width := RasterExport.exportScale * 595;
                   RasterExport.height := RasterExport.exportScale * 842 |}
                Examples.stroke eq_refl eq_refl) as H.
  unfold RasterExport.drawStroke in *. simpl in *. tauto.
Defined.

End StrokeExportFacts.
